(** * Multilingual text-to-speech: dataset index, batch collator and decoder loop

    A shallow embedding of
      - [params/params.py]      (the [Params] attribute bag),
      - [dataset/dataset.py]    ([TextToSpeechDataset], [TextToSpeechCollate]),
      - [modules/tacotron2.py]  ([Decoder._decode], [Tacotron.inference]),
    together with the properties of these functions that the specification
    states.

    Conventions.  Python exceptions are modelled by [None] (or by an explicit
    error constructor where the kind of exception matters).  Tensors and
    arrays are nested lists; a failed shape check of torch is a [None].
    Numerical layers, the text utilities and the library routines whose
    source is not part of the modelled files are Section variables. *)

From Stdlib Require Import ZArith Ascii String.
From stdpp Require Import base option list sorting strings pretty gmap.

Local Open Scope nat_scope.

(** ** params/params.py *)

Module Params.

(** The fields of [class Params] read or written by the modelled code. *)
Record t := mk {
    max_output_length : nat;
    stop_frames : Z;
    predict_linear : bool;
    residual_encoder : bool;
    encoder_disabled : bool;
    encoder_dimension : nat;
    multi_speaker : bool;
    multi_language : bool;
    cache_spectrograms : bool;
    languages : list string;
    case_sensitive : bool;
    remove_multiple_wspaces : bool;
    use_punctuation : bool;
    use_phonemes : bool;
    sample_rate : Z;
    num_fft : nat;
    num_mels : nat;
    normalize_spectrogram : bool
  }.

(** [hp.sample_rate = v] and [hp.num_fft = v]. *)
Definition set_sample_rate (v : Z) (hp : t) : t :=
    mk (max_output_length hp) (stop_frames hp) (predict_linear hp)
       (residual_encoder hp) (encoder_disabled hp) (encoder_dimension hp)
       (multi_speaker hp) (multi_language hp) (cache_spectrograms hp)
       (languages hp) (case_sensitive hp) (remove_multiple_wspaces hp)
       (use_punctuation hp) (use_phonemes hp) v (num_fft hp) (num_mels hp)
       (normalize_spectrogram hp).

Definition set_num_fft (v : nat) (hp : t) : t :=
    mk (max_output_length hp) (stop_frames hp) (predict_linear hp)
       (residual_encoder hp) (encoder_disabled hp) (encoder_dimension hp)
       (multi_speaker hp) (multi_language hp) (cache_spectrograms hp)
       (languages hp) (case_sensitive hp) (remove_multiple_wspaces hp)
       (use_punctuation hp) (use_phonemes hp) (sample_rate hp) v (num_mels hp)
       (normalize_spectrogram hp).

(** The defaults of the class body. *)
Definition default : t :=
    mk 5000 5 true false false 512 false false true ["en-us"%string]
       true true true false 22050%Z 1102 80 true.

End Params.

(** ** dataset/dataset.py: TextToSpeechCollate *)

Module Collate.

Section Collate.

(** Floating point samples; [f0] and [f1] are [0.] and [1.], [to_float] is
      the conversion done by [torch.FloatTensor(a)]. *)
Context {F : Type}.
Variables (f0 f1 : F) (to_float : F → F).

(** [torch.sort(xs, descending=True)], returning (values, indices). *)
Variable torch_sort : list nat → list nat * list nat.

(** One element of the batch: the tuple [(s, l, u, a, b)] returned by
      [TextToSpeechDataset.__getitem__]. *)
Record example := Example {
    ex_s : nat;
    ex_l : nat;
    ex_u : list Z;
    ex_a : list (list F);
    ex_b : option (list (list F))
  }.

Record collated := Collated {
    sorted_utterance_lengths : list nat;
    utterances : list (list Z);
    mel_spectrograms : list (list (list F));
    lin_spectrograms : option (list (list (list F)));
    stop_tokens : list (list F);
    spectrogram_lengths : list nat;
    speakers : option (list nat);
    languages : option (list nat)
  }.

(** *** Tensor primitives *)

(** [xs[idxs]] for an index tensor; an index out of range raises. *)
Definition gather {A} (xs : list A) (idxs : list nat) : option (list A) :=
    mapM (λ i, xs !! i) idxs.

(** [row[:k] = src].  The slice is clipped to the row; [src] must have the
      length of the slice, or one element which is then broadcast. *)
Definition assign_prefix {A} (row : list A) (k : nat) (src : list A)
    : option (list A) :=
    let n := k `min` length row in
    if decide (length src = n) then Some (src ++ drop n row)
    else match src with
         | [x] => Some (replicate n x ++ drop n row)
         | _ => None
         end.

Fixpoint assign_rows {A} (m src : list (list A)) (k : nat)
    : option (list (list A)) :=
    match m, src with
    | [], [] => Some []
    | row :: m', r :: src' =>
        row' ← assign_prefix row k r;
        rest ← assign_rows m' src' k;
        Some (row' :: rest)
    | _, _ => None
    end.

(** [m[:, :k] = src] for a matrix [m]; a source of one row is broadcast
      over the rows of [m]. *)
Definition assign_block {A} (m : list (list A)) (k : nat)
      (src : list (list A)) : option (list (list A)) :=
    if decide (length src = length m) then assign_rows m src k
    else match src with
         | [r] => mapM (λ row, assign_prefix row k r) m
         | _ => None
         end.

(** Start of the slice [start:] of a sequence of length [len]: a negative
      start counts from the end, and the result is clipped to [0, len]. *)
Definition slice_start (start : Z) (len : nat) : nat :=
    let s := if decide (start < 0)%Z then (start + Z.of_nat len)%Z else start in
    Z.to_nat s `min` len.

(** [row[start:] = x]. *)
Definition fill_from {A} (row : list A) (start : Z) (x : A) : list A :=
    let s := slice_start start (length row) in
    take s row ++ replicate (length row - s) x.

(** *** The first loop: lengths (lines 229-240) *)

Record lengths := Lengths {
    l_speakers : list nat;
    l_languages : list nat;
    l_utterance_lengths : list nat;
    l_spectrogram_lengths : list nat;
    l_max_frames : nat
  }.

Fixpoint get_lengths (batch : list example) (acc : lengths)
    : option lengths :=
    match batch with
    | [] => Some acc
    | e :: rest =>
        a0 ← ex_a e !! 0;
        let t := length a0 in
        get_lengths rest
          {| l_speakers := l_speakers acc ++ [ex_s e];
             l_languages := l_languages acc ++ [ex_l e];
             l_utterance_lengths := l_utterance_lengths acc ++ [length (ex_u e)];
             l_spectrogram_lengths := l_spectrogram_lengths acc ++ [t];
             l_max_frames :=
               if decide (l_max_frames acc < t) then t else l_max_frames acc |}
    end.

(** *** The second loop: filling the tensors (lines 256-262) *)

Record tensors := Tensors {
    t_utterances : list (list Z);
    t_mel : list (list (list F));
    t_lin : option (list (list (list F)));
    t_stop : list (list F)
  }.

Definition fill_step (hp : Params.t) (batch : list example)
      (i idx : nat) (st : tensors) : option tensors :=
    e ← batch !! idx;
    let u := ex_u e in
    let a := ex_a e in
    urow ← t_utterances st !! i;
    urow' ← assign_prefix urow (length u) u;
    a0 ← a !! 0;
    m ← t_mel st !! i;
    m' ← assign_block m (length a0) (map (map to_float) a);
    lin' ← (if Params.predict_linear hp then
              b ← ex_b e;
              b0 ← b !! 0;
              lin ← t_lin st;
              lm ← lin !! i;
              lm' ← assign_block lm (length b0) (map (map to_float) b);
              Some (Some (<[i := lm']> lin))
            else Some (t_lin st));
    srow ← t_stop st !! i;
    Some {| t_utterances := <[i := urow']> (t_utterances st);
            t_mel := <[i := m']> (t_mel st);
            t_lin := lin';
            t_stop :=
              <[i := fill_from srow (Z.of_nat (length a0) - 1) f1]> (t_stop st) |}.

Fixpoint fill (hp : Params.t) (batch : list example)
      (i : nat) (sorted_idxs : list nat) (st : tensors) : option tensors :=
    match sorted_idxs with
    | [] => Some st
    | idx :: rest =>
        st' ← fill_step hp batch i idx st;
        fill hp batch (S i) rest st'
    end.

(** *** TextToSpeechCollate.__call__ *)

Definition zeros2 {A} (z : A) (n m : nat) : list (list A) :=
    replicate n (replicate m z).
Definition zeros3 {A} (z : A) (n m k : nat) : list (list (list A)) :=
    replicate n (zeros2 z m k).

Definition collate (hp : Params.t) (batch : list example) : option collated :=
    ls ← get_lengths batch (Lengths [] [] [] [] 0);
    let max_frames := l_max_frames ls in
    let '(sorted_lengths, sorted_idxs) := torch_sort (l_utterance_lengths ls) in
    spec_lengths ← gather (l_spectrogram_lengths ls) sorted_idxs;
    spk ← (if Params.multi_speaker hp
           then Some <$> gather (l_speakers ls) sorted_idxs else Some None);
    lang ← (if Params.multi_language hp
            then Some <$> gather (l_languages ls) sorted_idxs else Some None);
    let batch_size := length batch in
    longest ← sorted_lengths !! 0;
    let st0 :=
      {| t_utterances := zeros2 0%Z batch_size longest;
         t_mel := zeros3 f0 batch_size (Params.num_mels hp) max_frames;
         t_lin :=
           if Params.predict_linear hp
           then Some (zeros3 f0 batch_size (Params.num_fft hp / 2 + 1) max_frames)
           else None;
         t_stop := zeros2 f0 batch_size max_frames |} in
    st ← fill hp batch 0 sorted_idxs st0;
    Some {| sorted_utterance_lengths := sorted_lengths;
            utterances := t_utterances st;
            mel_spectrograms := t_mel st;
            lin_spectrograms := t_lin st;
            stop_tokens := t_stop st;
            spectrogram_lengths := spec_lengths;
            speakers := spk;
            languages := lang |}.

End Collate.

Arguments example : clear implicits.
Arguments collated : clear implicits.
Arguments tensors : clear implicits.

(** *** What [torch.sort] promises, and a routine that keeps the promise *)

(** The result [(values, indices)] of sorting [xs] in descending order: the
    indices are a permutation of the positions, each value is the element at
    its index, and the values decrease. *)
Definition is_descending_sort (xs : list nat) (res : list nat * list nat) : bool :=
  bool_decide (res.2 ≡ₚ seq 0 (length xs))
  && bool_decide (gather xs res.2 = Some res.1)
  && bool_decide (StronglySorted (λ x y, y ≤ x) res.1).

(** Stability: among equal elements the indices increase. *)
Definition is_stable (xs : list nat) (idxs : list nat) : bool :=
  bool_decide (StronglySorted (λ i j, xs !! i = xs !! j → i < j) idxs).

(** Insertion into a list of (value, index) pairs sorted in descending
    order.  [before q p] tells whether the new pair [p] goes before [q]. *)
Fixpoint insert_desc (before : nat → nat → bool) (p : nat * nat)
    (l : list (nat * nat)) : list (nat * nat) :=
  match l with
  | [] => [p]
  | q :: l' =>
      if before q.1 p.1 then p :: q :: l'
      else q :: insert_desc before p l'
  end.

Definition sort_with (before : nat → nat → bool) (xs : list nat)
  : list nat * list nat :=
  let ps := foldr (insert_desc before) [] (zip xs (seq 0 (length xs))) in
  (ps.*1, ps.*2).

(** A stable descending sort: an element goes before the later elements that
    are not greater. *)
Definition stable_sort : list nat → list nat * list nat :=
  sort_with (λ q p, bool_decide (q ≤ p)).

(** *** Vocabulary of the statements *)

Section Vocabulary.

Context {F : Type}.

(** [len(a[0])], the number of frames of a spectrogram. *)
Definition frame_count (e : example F) : nat :=
  from_option length 0 (ex_a e !! 0).

Definition utterance_length (e : example F) : nat := length (ex_u e).

(** The example copied into row [i]. *)
Definition row_example (sorted_idxs : list nat) (batch : list (example F))
    (i : nat) : option (example F) :=
  idx ← sorted_idxs !! i; batch !! idx.

(** Row [i] of the three tensors of [st'] is row [i] of [st] with the data of
    [e] written into it. *)
Definition row_written (f1 : F) (to_float : F → F) (e : example F) (i : nat)
    (st st' : tensors F) : Prop :=
  ∃ urow urow' a0 m m' srow,
    t_utterances st !! i = Some urow
    ∧ assign_prefix urow (length (ex_u e)) (ex_u e) = Some urow'
    ∧ t_utterances st' !! i = Some urow'
    ∧ ex_a e !! 0 = Some a0
    ∧ t_mel st !! i = Some m
    ∧ assign_block m (length a0) (map (map to_float) (ex_a e)) = Some m'
    ∧ t_mel st' !! i = Some m'
    ∧ t_stop st !! i = Some srow
    ∧ t_stop st' !! i = Some (fill_from srow (Z.of_nat (length a0) - 1) f1).

(** The rows of index [j] of the three tensors are the same. *)
Definition same_row (j : nat) (st st' : tensors F) : Prop :=
  t_utterances st' !! j = t_utterances st !! j
  ∧ t_mel st' !! j = t_mel st !! j
  ∧ t_stop st' !! j = t_stop st !! j.

Definition same_sizes (st st' : tensors F) : Prop :=
  length (t_utterances st') = length (t_utterances st)
  ∧ length (t_mel st') = length (t_mel st)
  ∧ length (t_stop st') = length (t_stop st).

Definition has_shape2 {A} (t : list (list A)) (n m : nat) : Prop :=
  length t = n ∧ Forall (λ row, length row = m) t.

Definition has_shape3 {A} (t : list (list (list A))) (n m k : nat) : Prop :=
  length t = n ∧ Forall (λ x, has_shape2 x m k) t.

(** The tensors allocated on lines 250-253. *)
Definition initial_tensors (f0 : F) (hp : Params.t) (batch_size longest max_frames : nat)
  : tensors F :=
  {| t_utterances := zeros2 0%Z batch_size longest;
     t_mel := zeros3 f0 batch_size (Params.num_mels hp) max_frames;
     t_lin :=
       if Params.predict_linear hp
       then Some (zeros3 f0 batch_size (Params.num_fft hp / 2 + 1) max_frames)
       else None;
     t_stop := zeros2 f0 batch_size max_frames |}.

(** The rows from [i] on are as they were allocated. *)
Definition untouched_from (f0 : F) hp (batch_size longest max_frames i : nat)
    (st : tensors F) : Prop :=
  ∀ j, i ≤ j → j < batch_size →
    t_utterances st !! j = Some (replicate longest 0%Z)
    ∧ t_mel st !! j = Some (zeros2 f0 (Params.num_mels hp) max_frames)
    ∧ t_stop st !! j = Some (replicate max_frames f0)
    ∧ (Params.predict_linear hp = true →
       ∃ lin, t_lin st = Some lin
              ∧ lin !! j = Some (zeros2 f0 (Params.num_fft hp / 2 + 1) max_frames)).

(** The stop target of a row, as the specification words it: [f0] at the
    indices strictly below [frame_count - 1] and [f1] at the others, the
    comparison being on integers. *)
Definition stop_row_as_specified (f0 f1 : F) (frame_count : nat)
    (row : list F) : Prop :=
  ∀ j x, row !! j = Some x →
    x = if decide (Z.of_nat j < Z.of_nat frame_count - 1)%Z then f0 else f1.

(** Examples of the same length are in the rows in the order of the batch. *)
Definition ties_keep_order (batch : list (example F)) (sorted_idxs : list nat)
  : Prop :=
  ∀ a b ea eb, a < b → batch !! a = Some ea → batch !! b = Some eb →
    utterance_length ea = utterance_length eb →
    ∃ p q, sorted_idxs !! p = Some a ∧ sorted_idxs !! q = Some b ∧ p < q.

(** An array of [rows] rows of the same length. *)
Definition is_array (rows : nat) (a : list (list F)) : bool :=
  bool_decide (length a = rows)
  && bool_decide (Forall (λ r, length r = from_option length 0 (a !! 0)) a).

(** What [__getitem__] returns: a mel spectrogram of [num_mels] rows and,
    when linear spectrograms are predicted, a linear one of
    [num_fft // 2 + 1] rows with as many frames. *)
Definition well_formed_example (hp : Params.t) (e : example F) : bool :=
  bool_decide (0 < Params.num_mels hp)
  && is_array (Params.num_mels hp) (ex_a e)
  && (if Params.predict_linear hp then
        match ex_b e with
        | Some b =>
            is_array (Params.num_fft hp / 2 + 1) b
            && bool_decide (from_option length 0 (b !! 0) = frame_count e)
        | None => false
        end
      else true).

Definition well_formed_batch (hp : Params.t) (batch : list (example F)) : bool :=
  bool_decide (batch ≠ []) && forallb (well_formed_example hp) batch.

End Vocabulary.

(** *** Small batches *)

(** A configuration with two mel bands and no linear spectrogram. *)
Definition hp_small : Params.t :=
  Params.mk 10 2 false false false 4 true false true ["en-us"%string]
            true true true false 22050%Z 4 2 true.

(** Symbol lengths 5 and 9, frame counts 20 and 12. *)
Definition ex_five : example Z :=
  Example 0 0 [11; 12; 13; 14; 15]%Z [replicate 20 7%Z; replicate 20 8%Z] None.
Definition ex_nine : example Z :=
  Example 1 0 [21; 22; 23; 24; 25; 26; 27; 28; 29]%Z
    [replicate 12 5%Z; replicate 12 6%Z] None.
Definition batch_5_9 : list (example Z) := [ex_five; ex_nine].

(** Two utterances of the same length. *)
Definition ex_tie_first : example Z :=
  Example 0 0 [1; 2]%Z [[7; 7; 7]%Z; [7; 7; 7]%Z] None.
Definition ex_tie_second : example Z :=
  Example 1 0 [3; 4]%Z [[8; 8]%Z; [8; 8]%Z] None.
Definition batch_tie : list (example Z) := [ex_tie_first; ex_tie_second].

(** A spectrogram without frames next to one of three frames. *)
Definition ex_no_frame : example Z := Example 0 0 [7; 8]%Z [[]; []] None.
Definition ex_three_frames : example Z :=
  Example 1 0 [5]%Z [[10; 20; 30]%Z; [10; 20; 30]%Z] None.
Definition batch_no_frame : list (example Z) := [ex_no_frame; ex_three_frames].

End Collate.

(** ** dataset/dataset.py: TextToSpeechDataset *)

Module Dataset.

(** Exceptions that matter for the properties below.  [External] stands for
    whatever a library routine raises (a missing file, a decoding error). *)
Inductive error := IndexError | ValueError | KeyError | AssertionError | External.

Inductive result (A : Type) :=
| Ok (a : A)
| Raise (e : error).
Arguments Ok {A} a.
Arguments Raise {A} e.

Definition rbind {A B} (m : result A) (f : A → result B) : result B :=
  match m with
  | Ok a => f a
  | Raise e => Raise e
  end.

Notation "x ←ᵣ m ; f" := (rbind m (λ x, f))
  (at level 20, m at level 100, f at level 200, only parsing).

Definition of_option {A} (e : error) (o : option A) : result A :=
  match o with
  | Some a => Ok a
  | None => Raise e
  end.

(** *** Strings *)

(** [s.split(sep)] for a one character separator. *)
Fixpoint split (sep : ascii) (s : string) : list string :=
  match s with
  | EmptyString => [EmptyString]
  | String c rest =>
      if decide (c = sep) then EmptyString :: split sep rest
      else match split sep rest with
           | tok :: toks => String c tok :: toks
           | [] => [String c EmptyString]
           end
  end.

(** [s[:-1]]. *)
Fixpoint strip_last (s : string) : string :=
  match s with
  | EmptyString => EmptyString
  | String c EmptyString => EmptyString
  | String c rest => String c (strip_last rest)
  end.

(** [l.index(x)]: position of the first occurrence. *)
Fixpoint list_index (x : string) (l : list string) : option nat :=
  match l with
  | [] => None
  | y :: l' => if decide (x = y) then Some 0 else S <$> list_index x l'
  end.

Definition pipe : ascii := "|"%char.

(** *** Items *)

(** The dictionary built for every line of the meta-file. *)
Record raw_item := RawItem {
  r_id : string;
  r_speaker : string;
  r_language : string;
  r_audio : string;
  r_spectrogram : string;
  r_linear_spectrogram : string;
  r_text : string;
  r_phonemes : string
}.

(** The same dictionary after the conversion loop (lines 109-113). *)
Record item := Item {
  id : string;
  speaker : nat;
  language : nat;
  audio : string;
  spectrogram : string;
  linear_spectrogram : string;
  text : list Z;
  phonemes : list Z
}.

Definition token (line_tokens : list string) (k : nat) : result string :=
  of_option IndexError (line_tokens !! k).

(** Lines 77-87: the tokens are indexed in the order of the dictionary
    display. *)
Definition read_line (line : string) : result raw_item :=
  let line_tokens := split pipe (strip_last line) in
  t0 ←ᵣ token line_tokens 0;
  t1 ←ᵣ token line_tokens 1;
  t2 ←ᵣ token line_tokens 2;
  t3 ←ᵣ token line_tokens 3;
  t4 ←ᵣ token line_tokens 4;
  t5 ←ᵣ token line_tokens 5;
  t6 ←ᵣ token line_tokens 6;
  t7 ←ᵣ token line_tokens 7;
  Ok (RawItem t0 t1 t2 t3 t4 t5 t6 t7).

(** Lines 76-90.  [unique_speakers] is the sequence of [add] calls made on
    the set, [items] is [self.items]. *)
Fixpoint read_lines (hp : Params.t) (lines : list string)
    (unique_speakers : list string) (items : list raw_item)
  : result (list string * list raw_item) :=
  match lines with
  | [] => Ok (unique_speakers, items)
  | line :: rest =>
      it ←ᵣ read_line line;
      if bool_decide (r_language it ∈ Params.languages hp)
      then read_lines hp rest (unique_speakers ++ [r_speaker it]) (items ++ [it])
      else read_lines hp rest unique_speakers items
  end.

Section Dataset.

(** [utils.text]. *)
Variables (remove_punctuation to_lower remove_odd_whitespaces : string → string).
Variable to_sequence : string → bool → list Z.

(** [list(unique_speakers)]: the order in which CPython iterates over a set
    of strings.  It follows the slots of the hash table, hence the string
    hash (randomized per process) and the insertion history; the argument is
    the sequence of [add] calls. *)
Variable list_of_set : list string → list string.

(** Lines 94-106. *)
Definition clean (hp : Params.t) (it : raw_item) : raw_item :=
  let item_text := r_text it in
  let item_phon := r_phonemes it in
  let '(item_text, item_phon) :=
    if negb (Params.use_punctuation hp)
    then (remove_punctuation item_text, remove_punctuation item_phon)
    else (item_text, item_phon) in
  let item_text :=
    if negb (Params.case_sensitive hp) then to_lower item_text else item_text in
  let '(item_text, item_phon) :=
    if Params.remove_multiple_wspaces hp
    then (remove_odd_whitespaces item_text, remove_odd_whitespaces item_phon)
    else (item_text, item_phon) in
  RawItem (r_id it) (r_speaker it) (r_language it) (r_audio it)
          (r_spectrogram it) (r_linear_spectrogram it) item_text item_phon.

(** Lines 110-113 for one item. *)
Definition convert (hp : Params.t) (unique_speakers : list string)
    (it : raw_item) : result item :=
  let phon := to_sequence (r_phonemes it) true in
  let txt := to_sequence (r_text it) false in
  spk ←ᵣ of_option ValueError (list_index (r_speaker it) unique_speakers);
  lang ←ᵣ of_option ValueError (list_index (r_language it) (Params.languages hp));
  Ok (Item (r_id it) spk lang (r_audio it) (r_spectrogram it)
           (r_linear_spectrogram it) txt phon).

Fixpoint convert_all (hp : Params.t) (unique_speakers : list string)
    (items : list raw_item) : result (list item) :=
  match items with
  | [] => Ok []
  | it :: rest =>
      it' ←ᵣ convert hp unique_speakers it;
      rest' ←ᵣ convert_all hp unique_speakers rest;
      Ok (it' :: rest')
  end.

(** [TextToSpeechDataset.__init__]; [meta_file] is the list of the lines of
    the file, each with its line terminator.  The result is [self.items]. *)
Definition init (hp : Params.t) (meta_file : list string) : result (list item) :=
  r ←ᵣ read_lines hp meta_file [] [];
  let unique_speakers := list_of_set r.1 in
  let items := map (clean hp) r.2 in
  convert_all hp unique_speakers items.

End Dataset.

(** *** Vocabulary of the statements about the meta-file *)

(** The number of fields of a line, separated by [|]. *)
Definition field_count (line : string) : nat := length (split pipe line).

(** The tokens that [__init__] indexes. *)
Definition tokens (line : string) : list string := split pipe (strip_last line).

(** The dictionary made of the first eight tokens. *)
Definition item_of_tokens (toks : list string) : raw_item :=
  let tok k := default EmptyString (toks !! k) in
  RawItem (tok 0) (tok 1) (tok 2) (tok 3) (tok 4) (tok 5) (tok 6) (tok 7).

(** The records of the accepted languages, in the order of the file. *)
Definition accepted_items (hp : Params.t) (meta_file : list string)
  : list raw_item :=
  filter (λ it, r_language it ∈ Params.languages hp)
         (item_of_tokens ∘ tokens <$> meta_file).

(** What a conversion of a set to a list promises: every element once. *)
Definition is_set_listing (adds out : list string) : bool :=
  bool_decide (NoDup out) && bool_decide (out ⊆ adds) && bool_decide (adds ⊆ out).

(** The order of first occurrence. *)
Fixpoint first_seen (seen adds : list string) : list string :=
  match adds with
  | [] => []
  | x :: rest =>
      if decide (x ∈ seen) then first_seen seen rest
      else x :: first_seen (x :: seen) rest
  end.

(** Two ways of listing a set: by first occurrence, and the other way
    round. *)
Definition listing_first_seen (adds : list string) : list string :=
  first_seen [] adds.
Definition listing_reversed (adds : list string) : list string :=
  reverse (first_seen [] adds).

(** A meta-file of two lines, by the speakers bob and alice. *)
Definition meta_bob_alice : list string :=
  [ "0|bob|en-us|a0.wav|m0.npy|l0.npy|hello|h" +:+ String "010"%char "";
    "1|alice|en-us|a1.wav|m1.npy|l1.npy|world|w" +:+ String "010"%char "" ]%string.

(** A line of three fields in a language that is not accepted, and a line
    of nine fields. *)
Definition line_short : string := "0|bob|xx" +:+ String "010"%char "".
Definition line_long : string :=
  "1|alice|en-us|a1.wav|m1.npy|l1.npy|world|w|extra" +:+ String "010"%char "".

(** A stand-in for [utils.text.to_sequence]. *)
Definition char_codes (s : string) (use_phonemes : bool) : list Z :=
  (λ c, Z.of_nat (nat_of_ascii c)) <$> list_ascii_of_string s.

(** *** load_spectrogram *)

Section LoadSpectrogram.

Context {F Audio : Type}.

(** [os.path.join], [np.load], [utils.audio]. *)
Variable path_join : string → string → string.
Variable np_load : string → result (list (list F)).
Variable audio_load : string → result Audio.
Variable audio_spectrogram : Params.t → Audio → bool → result (list (list F)).
Variable audio_normalize_spectrogram :
  Params.t → list (list F) → bool → list (list F).

(** [np.shape(x)] of a two dimensional array. *)
Definition np_shape (x : list (list F)) : nat * nat :=
  (length x, from_option length 0 (x !! 0)).

(** Lines 126-132. *)
Definition obtain_spectrogram (hp : Params.t) (root_dir audio_path
    spectrogram_path : string) (is_mel : bool) : result (list (list F)) :=
  if Params.cache_spectrograms hp then
    let full_spec_path := path_join root_dir spectrogram_path in
    np_load full_spec_path
  else
    let full_audio_path := path_join root_dir audio_path in
    audio_data ←ᵣ audio_load full_audio_path;
    audio_spectrogram hp audio_data is_mel.

Definition expected_dimension (hp : Params.t) (is_mel : bool) : nat :=
  if is_mel then Params.num_mels hp else Params.num_fft hp / 2 + 1.

Definition load_spectrogram (hp : Params.t) (root_dir audio_path
    spectrogram_path : string) (normalize is_mel : bool)
  : result (list (list F)) :=
  spectrogram ←ᵣ obtain_spectrogram hp root_dir audio_path spectrogram_path is_mel;
  if decide ((np_shape spectrogram).1 = expected_dimension hp is_mel) then
    Ok (if normalize
        then audio_normalize_spectrogram hp spectrogram is_mel
        else spectrogram)
  else Raise AssertionError.

End LoadSpectrogram.

(** A cache with one file, of two rows and three frames. *)
Definition toy_np_load (path : string) : result (list (list Z)) :=
  if decide (path = "root/m0.npy"%string)
  then Ok [[1; 2; 3]; [4; 5; 6]]%Z
  else Raise External.

Definition toy_join (a b : string) : string := a +:+ "/" +:+ b.

(** A normalization that works on every entry. *)
Definition toy_normalize (hp : Params.t) (x : list (list Z)) (is_mel : bool)
  : list (list Z) :=
  map (map (λ v, v - 1)%Z) x.

(** *** create_meta_file *)

Section CreateMetaFile.

(** [World]: the file system and the console.  [Audio], [Spec], [Dicts] and
    [Dict] are the values handled by [utils.audio] and [utils.text]. *)
Context {World Audio Spec Dicts Dict : Type}.

(** A computation reads and writes the global [Params] and the world, and
    returns or raises. *)
Definition M (A : Type) : Type :=
  Params.t * World → result A * (Params.t * World).

#[local] Instance M_ret : MRet M := λ A a s, (Ok a, s).
#[local] Instance M_bind : MBind M := λ A B f m s,
  match m s with
  | (Ok a, s') => f a s'
  | (Raise e, s') => (Raise e, s')
  end.

Definition get_hp : M Params.t := λ s, (Ok s.1, s).
Definition modify_hp (f : Params.t → Params.t) : M unit :=
  λ s, (Ok (), (f s.1, s.2)).
Definition raise {A} (e : error) : M A := λ s, (Raise e, s).

(** A library routine sees the current [Params] and changes the world only. *)
Definition call {A} (f : Params.t → World → result A * World) : M A :=
  λ s, let (r, w) := f s.1 s.2 in (r, (s.1, w)).

(** An item produced by a loader: [text, audiopath, speaker_id,
    language_code]. *)
Record loader_item := LoaderItem {
  li_text : string;
  li_audio : string;
  li_speaker : string;
  li_language : string
}.

Variable join : string → string → string.
Variable get_loader_by_name :
  string → string → Params.t → World → result (list loader_item) * World.
Variable build_phoneme_dicts :
  list (string * string) → Params.t → World → result Dicts * World.
Variable dict_get : Dicts → string → option Dict.
Variable to_phoneme :
  string → bool → string → Dict → Params.t → World → result string * World.
Variable path_exists : string → Params.t → World → result bool * World.
Variable makedirs : string → Params.t → World → result unit * World.
Variable open_write : string → Params.t → World → result unit * World.
Variable print_to : string → string → Params.t → World → result unit * World.
Variable close_file : string → Params.t → World → result unit * World.
Variable logger_progress : nat → nat → Params.t → World → result unit * World.
Variable audio_load' : string → Params.t → World → result Audio * World.
Variable audio_spectrogram' :
  Audio → bool → Params.t → World → result Spec * World.
Variable np_save : string → Spec → Params.t → World → result unit * World.

(** [str(i).zfill(6)]. *)
Definition zfill6 (i : nat) : string :=
  let s := pretty i in
  String.concat "" (replicate (6 - String.length s) "0"%string) +:+ s.

(** [hp.languages[0] if lang == "" else lang]. *)
Definition language_or_default (lang : string) : M string :=
  if decide (lang = ""%string) then
    hp ← get_hp;
    match Params.languages hp with
    | l0 :: _ => mret l0
    | [] => raise IndexError
    end
  else mret lang.

Fixpoint text_lang_pairs (items : list loader_item) : M (list (string * string)) :=
  match items with
  | [] => mret []
  | i :: rest =>
      l ← language_or_default (li_language i);
      ps ← text_lang_pairs rest;
      mret ((li_text i, l) :: ps)
  end.

Fixpoint make_dirs (dirs : list string) : M unit :=
  match dirs with
  | [] => mret ()
  | x :: rest =>
      e ← call (path_exists x);
      (if e : bool then mret () else call (makedirs x));;
      make_dirs rest
  end.

(** Lines 207-218 for the item of index [i]. *)
Definition write_item (dataset_root_dir metafile_path : string)
    (spectrograms phonemes : bool) (phoneme_dicts : option Dicts)
    (spectrogram_dirs : list string) (n i : nat) (it : loader_item) : M unit :=
  let raw_text := li_text it in
  let audio_path := li_audio it in
  let speaker := li_speaker it in
  language ← language_or_default (li_language it);
  phonemized_text ←
    (if phonemes then
       match phoneme_dicts ≫= λ d, dict_get d language with
       | Some d => call (to_phoneme raw_text false language d)
       | None => raise KeyError
       end
     else mret ""%string);
  spectrogram_paths ←
    (if spectrograms then
       let spec_name := zfill6 i +:+ ".npy" in
       audio_data ← call (audio_load' (join dataset_root_dir audio_path));
       mel ← call (audio_spectrogram' audio_data true);
       d0 ← (match spectrogram_dirs !! 0 with
             | Some d => mret d | None => raise IndexError end);
       call (np_save (join d0 spec_name) mel);;
       lin ← call (audio_spectrogram' audio_data false);
       d1 ← (match spectrogram_dirs !! 1 with
             | Some d => mret d | None => raise IndexError end);
       call (np_save (join d1 spec_name) lin);;
       mret (join "spectrograms" spec_name +:+ "|"
             +:+ join "linear_spectrograms" spec_name)
     else mret "|"%string);
  call (print_to metafile_path
          (zfill6 i +:+ "|" +:+ speaker +:+ "|" +:+ language +:+ "|"
           +:+ audio_path +:+ "|" +:+ spectrogram_paths +:+ "|" +:+ raw_text
           +:+ "|" +:+ phonemized_text));;
  call (logger_progress (i + 1) n).

Fixpoint write_items (dataset_root_dir metafile_path : string)
    (spectrograms phonemes : bool) (phoneme_dicts : option Dicts)
    (spectrogram_dirs : list string) (n i : nat) (items : list loader_item)
  : M unit :=
  match items with
  | [] => mret ()
  | it :: rest =>
      write_item dataset_root_dir metafile_path spectrograms phonemes
        phoneme_dicts spectrogram_dirs n i it;;
      write_items dataset_root_dir metafile_path spectrograms phonemes
        phoneme_dicts spectrogram_dirs n (S i) rest
  end.

(** Lines 187-218: what runs between the two pairs of assignments. *)
Definition build_meta_file (dataset_name dataset_root_dir
    output_metafile_name : string) (spectrograms phonemes : bool) : M unit :=
  items ← call (get_loader_by_name dataset_name dataset_root_dir);
  phoneme_dicts ←
    (if phonemes then
       pairs ← text_lang_pairs items;
       d ← call (build_phoneme_dicts pairs);
       mret (Some d)
     else mret None);
  let spectrogram_dirs :=
    [join dataset_root_dir "spectrograms";
     join dataset_root_dir "linear_spectrograms"] in
  (if spectrograms then make_dirs spectrogram_dirs else mret ());;
  let metafile_path := join dataset_root_dir output_metafile_name in
  call (open_write metafile_path);;
  call (logger_progress 0 1);;
  write_items dataset_root_dir metafile_path spectrograms phonemes
    phoneme_dicts spectrogram_dirs (length items) 0 items;;
  call (close_file metafile_path).

Definition create_meta_file (dataset_name dataset_root_dir
    output_metafile_name : string) (audio_sample_rate : Z)
    (num_fft_freqs : nat) (spectrograms phonemes : bool) : M unit :=
  hp ← get_hp;
  let old_sample_rate := Params.sample_rate hp in
  modify_hp (Params.set_sample_rate audio_sample_rate);;
  hp ← get_hp;
  let old_fft_freqs := Params.num_fft hp in
  modify_hp (Params.set_num_fft num_fft_freqs);;
  build_meta_file dataset_name dataset_root_dir output_metafile_name
    spectrograms phonemes;;
  modify_hp (Params.set_sample_rate old_sample_rate);;
  modify_hp (Params.set_num_fft old_fft_freqs).

(** A computation that leaves [Params] as it finds them. *)
Definition keeps_hp {A} (m : M A) : Prop := ∀ s, (m s).2.1 = s.1.

(** [Params] while the meta-file is built. *)
Definition overwritten (audio_sample_rate : Z) (num_fft_freqs : nat)
    (hp : Params.t) : Params.t :=
  Params.set_num_fft num_fft_freqs (Params.set_sample_rate audio_sample_rate hp).

End CreateMetaFile.

(** A world that records what is saved and printed, with routines that
    put the sample rate and the FFT size they see into what they return. *)
Definition toy_world : Type := list string.

Definition toy_loader (name root : string) (hp : Params.t) (w : toy_world)
  : result (list loader_item) * toy_world :=
  (Ok [LoaderItem "hello" "a0.wav" "bob" ""], w).

Definition toy_unit {A} (a : A) (hp : Params.t) (w : toy_world)
  : result A * toy_world := (Ok a, w).

Definition toy_audio_load (path : string) (hp : Params.t) (w : toy_world)
  : result Z * toy_world := (Ok (Params.sample_rate hp), w).

Definition toy_audio_load_missing (path : string) (hp : Params.t)
    (w : toy_world) : result Z * toy_world := (Raise External, w).

Definition toy_audio_spectrogram (a : Z) (is_mel : bool) (hp : Params.t)
    (w : toy_world) : result (Z * nat) * toy_world :=
  (Ok (a, Params.num_fft hp), w).

Definition toy_np_save (path : string) (x : Z * nat) (hp : Params.t)
    (w : toy_world) : result unit * toy_world :=
  (Ok (), w ++ [path +:+ " " +:+ pretty x.1 +:+ " " +:+ pretty x.2]).

Definition toy_print_to (path line : string) (hp : Params.t) (w : toy_world)
  : result unit * toy_world := (Ok (), w ++ [line]).

(** [create_meta_file] and its body in the toy world, for the data set
    [ljspeech] under [root], with spectrograms and phonemes. *)
Abbreviation toy_create_meta_file load audio_sample_rate num_fft_freqs :=
  (create_meta_file (World := toy_world) (Audio := Z) (Spec := Z * nat)
     (Dicts := unit) (Dict := unit)
     (λ a b, a +:+ "/" +:+ b) toy_loader (λ _, toy_unit ())
     (λ _ _, Some ()) (λ text _ _ _, toy_unit text)
     (λ _, toy_unit true) (λ _, toy_unit ()) (λ _, toy_unit ())
     toy_print_to (λ _, toy_unit ()) (λ _ _, toy_unit ())
     load toy_audio_spectrogram toy_np_save
     "ljspeech" "root" "train.txt" audio_sample_rate num_fft_freqs true true).

Abbreviation toy_build_meta_file load :=
  (build_meta_file (World := toy_world) (Audio := Z) (Spec := Z * nat)
     (Dicts := unit) (Dict := unit)
     (λ a b, a +:+ "/" +:+ b) toy_loader (λ _, toy_unit ())
     (λ _ _, Some ()) (λ text _ _ _, toy_unit text)
     (λ _, toy_unit true) (λ _, toy_unit ()) (λ _, toy_unit ())
     toy_print_to (λ _, toy_unit ()) (λ _ _, toy_unit ())
     load toy_audio_spectrogram toy_np_save
     "ljspeech" "root" "train.txt" true true).

(** What the run of the toy world saves and prints at the sample rate
    16000 and the FFT size 800. *)
Definition toy_output : toy_world :=
  ["root/spectrograms/000000.npy 16000 800";
   "root/linear_spectrograms/000000.npy 16000 800";
   "000000|bob|en-us|a0.wav|spectrograms/000000.npy|linear_spectrograms/000000.npy|hello|hello"]%string.

End Dataset.

(** ** modules/tacotron2.py: Decoder *)

Module Decoder.

Section Decoder.

(** The numerical part of the decoder is kept abstract.  [State] gathers
    what a step reads and updates: the context vector and the accumulators
    of the attention, the hidden and cell states of both recurrent cells,
    and the random generator that dropout and [torch.rand] draw from.
    [PFrame] is a frame that went through the pre-net. *)
Context {State Frame PFrame Logit Weights Ratio : Type}.

Variables (zero_frame : Frame) (zero_logit : Logit) (zero_weights : Weights).

(** [self._prenet(frame)]. *)
Variable prenet : State → Frame → PFrame * State.

(** One component of [torch.rand([max_frames]) > (1 - teacher_forcing_ratio)]. *)
Variable rand_gt : State → Ratio → bool * State.

(** Lines 186-195: attention cell, attention, generator cell and the two
    projections, giving the frame, the stop logits and the weights. *)
Variable decoder_cell : State → PFrame → State * Frame * Logit * Weights.

(** [torch.sigmoid(stop_logits).ge(0.5)] as a truth value (inference runs on
    a batch of one utterance). *)
Variable stop_predicted : Logit → bool.

(** The three tensors returned by [_decode], indexed by the step. *)
Record outputs := Outputs {
  o_spectrogram : list Frame;
  o_stop_tokens : list Logit;
  o_alignments : list Weights
}.

(** [_target_init]: the zero frame is prepended and every frame goes through
    the pre-net. *)
Fixpoint prenet_all (st : State) (frames : list Frame) : list PFrame * State :=
  match frames with
  | [] => ([], st)
  | f :: rest =>
      let (p, st1) := prenet st f in
      let (ps, st2) := prenet_all st1 rest in
      (p :: ps, st2)
  end.

Definition _target_init (st : State) (target : list Frame)
  : list PFrame * State :=
  prenet_all st (zero_frame :: target).

(** Line 173. *)
Fixpoint teacher_draws (st : State) (ratio : Ratio) (n : nat)
  : list bool * State :=
  match n with
  | 0 => ([], st)
  | S n' =>
      let (b, st1) := rand_gt st ratio in
      let (bs, st2) := teacher_draws st1 ratio n' in
      (b :: bs, st2)
  end.

(** The variables of the decoding loop. *)
Record loop_state := LoopState {
  ls_state : State;
  ls_frame : Frame;
  ls_stop_frames : Z;
  ls_out : outputs
}.

Definition store (i : nat) (frame : Frame) (stop_logits : Logit)
    (weights : Weights) (o : outputs) : outputs :=
  {| o_spectrogram := <[i := frame]> (o_spectrogram o);
     o_stop_tokens := <[i := stop_logits]> (o_stop_tokens o);
     o_alignments := <[i := weights]> (o_alignments o) |}.

Definition truncate (n : nat) (o : outputs) : outputs :=
  {| o_spectrogram := take n (o_spectrogram o);
     o_stop_tokens := take n (o_stop_tokens o);
     o_alignments := take n (o_alignments o) |}.

(** Line 183. *)
Definition prev_frame_of (inference : bool) (teacher : list bool)
    (target : list PFrame) (i : nat) (st : State) (frame : Frame)
  : option (PFrame * State) :=
  if inference then Some (prenet st frame)
  else
    t ← teacher !! i;
    if negb t then Some (prenet st frame)
    else p ← target !! i; Some (p, st).

(** Lines 182-211: [n] iterations are left and [i] is the loop index. *)
Fixpoint decode_loop (hp : Params.t) (inference : bool)
    (teacher : list bool) (target : list PFrame) (n i : nat)
    (s : loop_state) : option outputs :=
  match n with
  | 0 => Some (ls_out s)
  | S n' =>
      '(prev_frame, st1) ←
        prev_frame_of inference teacher target i (ls_state s) (ls_frame s);
      let '(st2, frame, stop_logits, weights) := decoder_cell st1 prev_frame in
      let out := store i frame stop_logits weights (ls_out s) in
      if inference && stop_predicted stop_logits then
        if decide (ls_stop_frames s = -1)%Z then
          decode_loop hp inference teacher target n' (S i)
            (LoopState st2 frame (Params.stop_frames hp) out)
        else
          let stop_frames := (ls_stop_frames s - 1)%Z in
          if decide (stop_frames = 0)%Z then Some (truncate (i + 1) out)
          else
            decode_loop hp inference teacher target n' (S i)
              (LoopState st2 frame stop_frames out)
      else
        decode_loop hp inference teacher target n' (S i)
          (LoopState st2 frame (ls_stop_frames s) out)
  end.

(** [Decoder._decode].  [self_max_frames] is [self._max_frames]; [st0] is the
    state after the conditional embeddings, [attention.reset] and
    [_decoder_init]; [target] is the list of the frames of the target
    spectrogram, [None] for inference. *)
Definition _decode (hp : Params.t) (self_max_frames : nat) (st0 : State)
    (target : option (list Frame)) (teacher_forcing_ratio : Ratio)
  : option outputs :=
  let inference := match target with None => true | Some _ => false end in
  let max_frames :=
    match target with
    | None => self_max_frames
    | Some t => length t
    end in
  let frame := zero_frame in
  let '(target', teacher, st) :=
    match target with
    | Some t =>
        let (tp, st1) := _target_init st0 t in
        let (te, st2) := teacher_draws st1 teacher_forcing_ratio max_frames in
        (tp, te, st2)
    | None => ([], [], st0)
    end in
  let out0 :=
    {| o_spectrogram := replicate max_frames zero_frame;
       o_stop_tokens := replicate max_frames zero_logit;
       o_alignments := replicate max_frames zero_weights |} in
  decode_loop hp inference teacher target' max_frames 0
    (LoopState st frame (-1) out0).

(** *** The sequence of cell outputs, without the output buffers *)

(** The outputs of [n] iterations from index [i] when nothing interrupts the
    loop. *)
Fixpoint cell_trace (inference : bool) (teacher : list bool)
    (target : list PFrame) (n i : nat) (st : State) (frame : Frame)
  : option (list (Frame * Logit * Weights)) :=
  match n with
  | 0 => Some []
  | S n' =>
      '(prev_frame, st1) ← prev_frame_of inference teacher target i st frame;
      let '(st2, frame', stop_logits, weights) := decoder_cell st1 prev_frame in
      rest ← cell_trace inference teacher target n' (S i) st2 frame';
      Some ((frame', stop_logits, weights) :: rest)
  end.

Definition outputs_of (tr : list (Frame * Logit * Weights)) : outputs :=
  {| o_spectrogram := (λ x, x.1.1) <$> tr;
     o_stop_tokens := (λ x, x.1.2) <$> tr;
     o_alignments := (λ x, x.2) <$> tr |}.

(** Which steps of a trace predict the stop. *)
Definition fires (tr : list (Frame * Logit * Weights)) : list bool :=
  (λ x, stop_predicted x.1.2) <$> tr.

(** [l[i] = x] for the successive elements of [xs], from index [i] on. *)
Fixpoint write_from {A} (i : nat) (xs : list A) (l : list A) : list A :=
  match xs with
  | [] => l
  | x :: rest => write_from (S i) rest (<[i := x]> l)
  end.

(** The outputs of the steps of a trace, written from index [i] on. *)
Fixpoint store_trace (i : nat) (tr : list (Frame * Logit * Weights))
    (o : outputs) : outputs :=
  match tr with
  | [] => o
  | x :: rest => store_trace (S i) rest (store i x.1.1 x.1.2 x.2 o)
  end.

(** The cell outputs of a training call: one step per frame of the
    target. *)
Definition training_trace (st0 : State) (target : list Frame)
    (teacher_forcing_ratio : Ratio)
  : option (list (Frame * Logit * Weights)) :=
  let (tp, st1) := _target_init st0 target in
  let (te, st2) := teacher_draws st1 teacher_forcing_ratio (length target) in
  cell_trace false te tp (length target) 0 st2 zero_frame.

(** The cell outputs of an inference call that nothing stops before
    [self._max_frames]. *)
Definition inference_trace (self_max_frames : nat) (st0 : State)
  : option (list (Frame * Logit * Weights)) :=
  cell_trace true [] [] self_max_frames 0 st0 zero_frame.

End Decoder.

(** The countdown of lines 203-209 on the stop predictions of the steps
    to come: the number of steps after which the loop returns early, if it
    does.  [g] is [hp.stop_frames] and [c] the variable [stop_frames]. *)
Fixpoint stop_after (g c : Z) (fs : list bool) : option nat :=
  match fs with
  | [] => None
  | true :: rest =>
      if decide (c = -1)%Z then S <$> stop_after g g rest
      else if decide (c - 1 = 0)%Z then Some 1
           else S <$> stop_after g (c - 1) rest
  | false :: rest => S <$> stop_after g c rest
  end.

(** The number of steps that the loop runs. *)
Definition steps_run (g c : Z) (fs : list bool) : nat :=
  default (length fs) (stop_after g c fs).

(** Number of steps up to and including the one that holds the
    [(k+1)]-th positive stop prediction, or all of them when there are
    fewer. *)
Fixpoint steps_until (k : nat) (fs : list bool) : nat :=
  match fs with
  | [] => 0
  | true :: rest =>
      match k with
      | 0 => 1
      | S k' => S (steps_until k' rest)
      end
  | false :: rest => S (steps_until k rest)
  end.

(** Index of the first positive stop prediction. *)
Fixpoint first_fire (fs : list bool) : option nat :=
  match fs with
  | [] => None
  | true :: _ => Some 0
  | false :: rest => S <$> first_fire rest
  end.

(** The grace period as the specification words it: from the first
    positive stop prediction on, at most [g + 1] further steps, or the cap. *)
Definition stops_within_grace (g : Z) (max_frames : nat) (fs : list bool)
    (steps : nat) : Prop :=
  ∀ s, first_fire fs = Some s →
       steps ≤ (s + 1 + (Z.to_nat g + 1)) `min` max_frames.

(** A decoder whose state counts the steps and whose stop logit is the
    index of the step. *)
Definition toy_cell (st : nat) (p : nat) : nat * nat * nat * nat :=
  (S st, st, st, st).
Definition toy_prenet (st : nat) (f : nat) : nat * nat := (f, st).
Definition toy_rand (st : nat) (ratio : unit) : bool * nat := (true, st).

(** The stop is predicted at step 1 only. *)
Definition stop_once (l : nat) : bool := bool_decide (l = 1).

(** The stop is predicted from step 1 on. *)
Definition stop_from_one (l : nat) : bool := bool_decide (1 ≤ l).

Definition toy_decode (stop_predicted : nat → bool) (hp : Params.t)
    (target : option (list nat)) : option (@outputs nat nat nat) :=
  _decode 0 0 0 toy_prenet toy_rand toy_cell stop_predicted hp
    (Params.max_output_length hp) 0 target ().

End Decoder.

(** ** modules/tacotron2.py: Tacotron.inference *)

Module Tacotron.

(** Tensors live in a store and are passed by reference. *)
Record tensor := Tensor {
  shape : list nat;
  data : list Z
}.

Definition loc := positive.
Abbreviation heap := (gmap loc tensor).

(** [t.unsqueeze_(0)]: the tensor object itself gets a new leading
    dimension. *)
Definition unsqueeze_0_ (t : tensor) : tensor :=
  {| shape := 1 :: shape t; data := data t |}.

Section Tacotron.

(** Values computed by the layers; they are fresh tensors, never the
    argument. *)
Context {Encoded Speaker Language Latent Spectrogram : Type}.

Variable embedding_and_encoder :
  tensor → nat → option Language → option Encoded.
Variable zeros_encoded : nat → nat → nat → Encoded.
Variable residual_inference : nat → option Latent.
Variable append_latent : Encoded → Latent → option Encoded.
Variable decoder_inference :
  Encoded → option Speaker → option Language → option Spectrogram.
Variable postnet_squeeze : Spectrogram → option Spectrogram.

(** [text.size(1)] and [text.shape[k]]. *)
Definition size (t : tensor) (k : nat) : option nat := shape t !! k.

(** Lines 403-422, on the value of the text tensor after line 401. *)
Definition inference_body (hp : Params.t) (text : tensor)
    (speaker : option Speaker) (language : option Language)
  : option Spectrogram :=
  encoded ←
    (if negb (Params.encoder_disabled hp) then
       n ← size text 1;
       embedding_and_encoder text n language
     else
       s0 ← size text 0;
       s1 ← size text 1;
       Some (zeros_encoded s0 s1 (Params.encoder_dimension hp)));
  encoded ←
    (if Params.residual_encoder hp then
       latent ← residual_inference 1;
       append_latent encoded latent
     else Some encoded);
  prediction ← decoder_inference encoded speaker language;
  postnet_squeeze prediction.

(** [Tacotron.inference(text, speaker, language)]; [text] is the reference
    the caller passes.  The result is the returned value (or [None] when
    something raised) and the store after the call. *)
Definition inference (hp : Params.t) (h : heap) (text : loc)
    (speaker : option Speaker) (language : option Language)
  : option Spectrogram * heap :=
  match h !! text with
  | None => (None, h)
  | Some t =>
      let h' := <[text := unsqueeze_0_ t]> h in
      (inference_body hp (unsqueeze_0_ t) speaker language, h')
  end.

End Tacotron.

(** A store with the text tensor of a caller at address 1 and another
    tensor at address 2. *)
Definition toy_heap : heap :=
  <[1%positive := Tensor [3] [10; 11; 12]%Z]>
    (<[2%positive := Tensor [2] [0; 0]%Z]> ∅).

End Tacotron.

(** ** More of modules/tacotron2.py: what the decoding loop feeds the cell *)

Module Forcing.

Section Forcing.

Context {State Frame PFrame Logit Weights : Type}.
Variable decoder_cell : State → PFrame → State * Frame * Logit * Weights.

(** The cell run on a given sequence of inputs. *)
Fixpoint forced_trace (inputs : list PFrame) (st : State)
  : list (Frame * Logit * Weights) :=
  match inputs with
  | [] => []
  | p :: rest =>
      let '(st2, frame, stop_logits, weights) := decoder_cell st p in
      (frame, stop_logits, weights) :: forced_trace rest st2
  end.

End Forcing.

End Forcing.

(** A configuration whose stop count is zero. *)
Definition hp_zero_grace : Params.t :=
  Params.mk 10 0 false false false 4 true false true ["en-us"%string]
            true true true false 22050%Z 4 2 true.

(** ** More of dataset/dataset.py: the methods around the items *)

Module DatasetMore.

Import Dataset.

(** Exceptions of these methods: the ones of [TextToSpeechDataset], a
    division by zero, and the [IOError] of a missing meta-file with its
    path. *)
Inductive xerror :=
| Err (e : error)
| ZeroDivisionError
| IOError (path : string).

Inductive xresult (A : Type) :=
| XOk (a : A)
| XRaise (e : xerror).
Arguments XOk {A} a.
Arguments XRaise {A} e.

Definition lift {A} (r : result A) : xresult A :=
  match r with
  | Ok a => XOk a
  | Raise e => XRaise (Err e)
  end.

(** [l[index]] for a Python list: a negative index counts from the end. *)
Definition py_list_get {A} (l : list A) (index : Z) : result A :=
  let n := Z.of_nat (length l) in
  if decide (0 ≤ index)%Z then of_option IndexError (l !! Z.to_nat index)
  else if decide (- n ≤ index)%Z
       then of_option IndexError (l !! Z.to_nat (index + n))
       else Raise IndexError.

(** The object [self]. *)
Record dataset := Dataset {
  root_dir : string;
  items : list item
}.

(** [__len__]. *)
Definition len (self : dataset) : nat := length (items self).

(** [get_num_speakers] and [get_num_languages]: the loop adds the ids to a
    set, whose size is returned. *)
Definition get_num_speakers (self : dataset) : nat :=
  size (foldl (λ (speakers : gset nat) it, {[speaker it]} ∪ speakers)
              ∅ (items self)).

Definition get_num_languages (self : dataset) : nat :=
  size (foldl (λ (languages : gset nat) it, {[language it]} ∪ languages)
              ∅ (items self)).

Section Loading.

Context {F Audio V : Type}.

Variable path_join : string → string → string.
Variable np_load : string → result (list (list F)).
Variable audio_load : string → result Audio.
Variable audio_spectrogram : Params.t → Audio → bool → result (list (list F)).
Variable audio_normalize_spectrogram :
  Params.t → list (list F) → bool → list (list F).

(** [__getitem__]; the tuple it returns is an example of the collator. *)
Definition getitem (hp : Params.t) (self : dataset) (index : Z)
  : result (Collate.example F) :=
  it ←ᵣ py_list_get (items self) index;
  let audio_path := audio it in
  mel_spec ←ᵣ load_spectrogram path_join np_load audio_load audio_spectrogram
                audio_normalize_spectrogram hp (root_dir self) audio_path
                (spectrogram it) (Params.normalize_spectrogram hp) true;
  lin_spec ←ᵣ (if Params.predict_linear hp then
                 s ←ᵣ load_spectrogram path_join np_load audio_load
                        audio_spectrogram audio_normalize_spectrogram hp
                        (root_dir self) audio_path (linear_spectrogram it)
                        (Params.normalize_spectrogram hp) false;
                 Ok (Some s)
               else Ok None);
  Ok (Collate.Example (speaker it) (language it)
        (if Params.use_phonemes hp then phonemes it else text it)
        mel_spec lin_spec).

(** [np.mean(x, axis=1, keepdims=True)], [np.std(...)], [+] with the
    initial [0.0], and the division by [len(self.items)]. *)
Variables (np_mean np_std : list (list F) → V).
Variable zero : V.
Variable add : V → V → V.
Variable divide : V → nat → V.

(** The loop of [get_normalization_constants]. *)
Fixpoint accumulate (hp : Params.t) (self : dataset) (is_mel : bool)
    (its : list item) (mean std : V) : result (V * V) :=
  match its with
  | [] => Ok (mean, std)
  | it :: rest =>
      let path := if is_mel then spectrogram it else linear_spectrogram it in
      s ←ᵣ load_spectrogram path_join np_load audio_load audio_spectrogram
             audio_normalize_spectrogram hp (root_dir self) (audio it) path
             false is_mel;
      accumulate hp self is_mel rest (add mean (np_mean s)) (add std (np_std s))
  end.

Definition get_normalization_constants (hp : Params.t) (self : dataset)
    (is_mel : bool) : xresult (V * V) :=
  match lift (accumulate hp self is_mel (items self) zero zero) with
  | XRaise e => XRaise e
  | XOk (mean, std) =>
      if decide (length (items self) = 0) then XRaise ZeroDivisionError
      else XOk (divide mean (length (items self)),
                divide std (length (items self)))
  end.

End Loading.

(** *** TextToSpeechDatasetCollection *)

Section Collection.

Variables (remove_punctuation to_lower remove_odd_whitespaces : string → string).
Variable to_sequence : string → bool → list Z.
Variable list_of_set : list string → list string.
Variable path_join : string → string → string.

(** The file system: the lines of the files that exist. *)
Abbreviation files := (gmap string (list string)).

(** [TextToSpeechDataset(meta_file, dataset_root_dir)], which opens the
    file. *)
Definition new_dataset (hp : Params.t) (fs : files) (meta_file : string)
    (dataset_root_dir : string) : xresult dataset :=
  match fs !! meta_file with
  | None => XRaise (Err External)
  | Some lines =>
      match init remove_punctuation to_lower remove_odd_whitespaces
              to_sequence list_of_set hp lines with
      | Ok its => XOk (Dataset dataset_root_dir its)
      | Raise e => XRaise (Err e)
      end
  end.

Record collection := Collection {
  train : dataset;
  dev : dataset;
  test : option dataset
}.

(** The part done for each of the three sets. *)
Definition checked_dataset (hp : Params.t) (fs : files)
    (dataset_root_dir file : string) : xresult dataset :=
  let full_path := path_join dataset_root_dir file in
  if bool_decide (is_Some (fs !! full_path))
  then new_dataset hp fs full_path dataset_root_dir
  else XRaise (IOError full_path).

(** [TextToSpeechDatasetCollection.__init__]; a [test_file] that is [None]
    or empty is ignored. *)
Definition collection_init (hp : Params.t) (fs : files)
    (dataset_root_dir training_file validation_file : string)
    (test_file : option string) : xresult collection :=
  match checked_dataset hp fs dataset_root_dir training_file with
  | XRaise e => XRaise e
  | XOk tr =>
      match checked_dataset hp fs dataset_root_dir validation_file with
      | XRaise e => XRaise e
      | XOk dv =>
          match test_file with
          | Some file =>
              if decide (file = ""%string) then XOk (Collection tr dv None)
              else
                match checked_dataset hp fs dataset_root_dir file with
                | XRaise e => XRaise e
                | XOk te => XOk (Collection tr dv (Some te))
                end
          | None => XOk (Collection tr dv None)
          end
      end
  end.

End Collection.

(** A file system with a training file and a validation file. *)
Definition toy_files : gmap string (list string) :=
  <["root/train.txt"%string := meta_bob_alice]>
    (<["root/val.txt"%string := [line_long]]> ∅).

(** The items that the meta-file of bob and alice gives when the set of
    speakers is listed in the order of first occurrence. *)
Definition toy_dataset : dataset :=
  Dataset "root"
    (match init Datatypes.id Datatypes.id Datatypes.id char_codes
             listing_first_seen Params.default
             meta_bob_alice with
     | Ok its => its
     | Raise _ => []
     end).

(** The data set of the first item only, whose mel spectrogram is in the
    toy cache. *)
Definition toy_dataset_one : dataset :=
  Dataset "root" (take 1 (items toy_dataset)).

(** [__getitem__] and [get_normalization_constants] on the toy cache. *)
Abbreviation toy_getitem :=
  (getitem (F := Z) (Audio := unit) toy_join toy_np_load
     (λ _, Raise External) (λ _ _ _, Raise External) toy_normalize).

Abbreviation toy_normalization_constants :=
  (get_normalization_constants (F := Z) (Audio := unit) (V := Z) toy_join
     toy_np_load (λ _, Raise External) (λ _ _ _, Raise External)
     toy_normalize (λ s, Z.of_nat (length s)) (λ _, 0%Z) 0%Z Z.add
     (λ v n, (v / Z.of_nat n)%Z)).

End DatasetMore.

(** ** dataset/dataset.py: the lines of the meta-file *)

Module MetaFile.

Import Dataset.


(** The line terminator that [print] appends. *)
Definition newline : string := String "010"%char "".

(** The f-string printed on line 217 for the item of index [i]. *)
Definition meta_line (i : nat) (speaker language audio_path spectrogram_paths
    raw_text phonemized_text : string) : string :=
  zfill6 i +:+ "|" +:+ speaker +:+ "|" +:+ language +:+ "|"
  +:+ audio_path +:+ "|" +:+ spectrogram_paths +:+ "|" +:+ raw_text
  +:+ "|" +:+ phonemized_text.

End MetaFile.

(** ** dataset/dataset.py: the item made of a record *)

Module DatasetRecords.

Import Dataset.

Section Records.

Variables (remove_punctuation to_lower remove_odd_whitespaces : string → string).
Variable to_sequence : string → bool → list Z.

(** [it] is the item that lines 94-113 make of the record [raw]: the id and
    the three paths are kept, the speaker and the language are replaced by
    their first position in the list of the speakers and in [hp.languages],
    the text and the phonemes are cleaned and converted. *)
Definition item_of_record (hp : Params.t) (unique_speakers : list string)
    (raw : raw_item) (it : item) : Prop :=
  let cleaned := clean remove_punctuation to_lower remove_odd_whitespaces hp raw in
  id it = r_id raw
  ∧ list_index (r_speaker raw) unique_speakers = Some (speaker it)
  ∧ list_index (r_language raw) (Params.languages hp) = Some (language it)
  ∧ audio it = r_audio raw
  ∧ spectrogram it = r_spectrogram raw
  ∧ linear_spectrogram it = r_linear_spectrogram raw
  ∧ text it = to_sequence (r_text cleaned) false
  ∧ phonemes it = to_sequence (r_phonemes cleaned) true.

End Records.

End DatasetRecords.

(** ** dataset/dataset.py: what a row of the collated batch holds *)

Module CollateRows.

Import Collate.

Section Rows.

Context {F : Type}.
Variables (f0 f1 : F) (to_float : F → F).

(** A spectrogram converted to floats, every band filled with [f0] up to
    [max_frames] frames. *)
Definition padded (max_frames : nat) (a : list (list F)) : list (list F) :=
  (λ band, map to_float band ++ replicate (max_frames - length band) f0) <$> a.

(** Row [p] of every tensor that the collator returns holds the data of the
    example [e]: its two lengths, its symbols followed by zeros, its mel
    spectrogram (and its linear one when [hp.predict_linear], [None]
    otherwise) assigned to the first frames of a matrix of zeros, which is
    the padded spectrogram when the spectrogram is an array of the expected
    size, the stop target that is [f1] from the index [frame_count - 1] on,
    and its speaker and language ids when [hp.multi_speaker] and
    [hp.multi_language] ([None] otherwise). *)
Definition row_holds (hp : Params.t) (batch : list (example F))
    (out : collated F) (p : nat) (e : example F) : Prop :=
  let max_frames := max_list (frame_count <$> batch) in
  let longest := max_list (utterance_length <$> batch) in
  sorted_utterance_lengths out !! p = Some (utterance_length e)
  ∧ utterances out !! p
    = Some (ex_u e ++ replicate (longest - utterance_length e) 0%Z)
  ∧ (∃ m, mel_spectrograms out !! p = Some m
          ∧ assign_block (zeros2 f0 (Params.num_mels hp) max_frames)
              (frame_count e) (map (map to_float) (ex_a e)) = Some m
          ∧ (well_formed_example hp e = true →
             m = padded max_frames (ex_a e)))
  ∧ (if Params.predict_linear hp then
       ∃ b lin lm,
         ex_b e = Some b
         ∧ lin_spectrograms out = Some lin ∧ lin !! p = Some lm
         ∧ assign_block (zeros2 f0 (Params.num_fft hp / 2 + 1) max_frames)
             (from_option length 0 (b !! 0)) (map (map to_float) b) = Some lm
         ∧ (well_formed_example hp e = true → lm = padded max_frames b)
     else lin_spectrograms out = None)
  ∧ stop_tokens out !! p
    = Some (fill_from (replicate max_frames f0)
              (Z.of_nat (frame_count e) - 1) f1)
  ∧ spectrogram_lengths out !! p = Some (frame_count e)
  ∧ (if Params.multi_speaker hp then
       ∃ l, speakers out = Some l ∧ l !! p = Some (ex_s e)
     else speakers out = None)
  ∧ (if Params.multi_language hp then
       ∃ l, languages out = Some l ∧ l !! p = Some (ex_l e)
     else languages out = None).

End Rows.

End CollateRows.

(** ** The sort behind [torch.sort] on the CPU *)

(** When [stable] is left at its default, the library sorts the pairs of a
    value and its position with [std::sort] of the C++ library: a quicksort
    with the median of three as pivot on the ranges of more than sixteen
    elements, followed by an insertion sort.  Up to sixteen elements only
    the insertion sort runs, which keeps ties in order; beyond, the
    partition exchanges equal elements. *)
Module StdSort.

Definition pair := (nat * nat)%type.

(** The order asked by [descending=True]: the greater value goes first. *)
Definition comp (l : list pair) (i j : nat) : bool :=
  match l !! i, l !! j with
  | Some a, Some b => bool_decide (b.1 < a.1)
  | _, _ => false
  end.

Definition iter_swap (l : list pair) (i j : nat) : list pair :=
  match l !! i, l !! j with
  | Some a, Some b => <[i := b]> (<[j := a]> l)
  | _, _ => l
  end.

Definition move_median_to_first (l : list pair) (result a b c : nat)
  : list pair :=
  if comp l a b then
    if comp l b c then iter_swap l result b
    else if comp l a c then iter_swap l result c
    else iter_swap l result a
  else if comp l a c then iter_swap l result a
  else if comp l b c then iter_swap l result c
  else iter_swap l result b.

(** [while (comp(first, pivot)) ++first;] *)
Fixpoint scan_up (fuel : nat) (l : list pair) (first pivot : nat) : nat :=
  match fuel with
  | 0 => first
  | S fuel =>
      if comp l first pivot then scan_up fuel l (S first) pivot else first
  end.

(** [while (comp(pivot, last)) --last;] *)
Fixpoint scan_down (fuel : nat) (l : list pair) (last pivot : nat) : nat :=
  match fuel with
  | 0 => last
  | S fuel =>
      if comp l pivot last then scan_down fuel l (last - 1) pivot else last
  end.

Fixpoint unguarded_partition (fuel : nat) (l : list pair)
    (first last pivot : nat) : list pair * nat :=
  match fuel with
  | 0 => (l, first)
  | S fuel =>
      let first := scan_up (length l) l first pivot in
      let last := scan_down (length l) l (last - 1) pivot in
      if bool_decide (first < last)
      then unguarded_partition fuel (iter_swap l first last) (S first) last pivot
      else (l, first)
  end.

Definition unguarded_partition_pivot (l : list pair) (first last : nat)
  : list pair * nat :=
  let mid := first + (last - first) / 2 in
  let l := move_median_to_first l first (first + 1) mid (last - 1) in
  unguarded_partition (length l) l (first + 1) last first.

(** The loop on the ranges of more than sixteen elements.  At the depth
    limit the library sorts the range as a heap; the ranges are left here
    to the insertion sort that follows, the limit not being reached on the
    batches below. *)
Fixpoint introsort_loop (depth_limit : nat) (l : list pair)
    (first last : nat) : list pair :=
  if bool_decide (16 < last - first) then
    match depth_limit with
    | 0 => l
    | S depth_limit =>
        let '(l, cut) := unguarded_partition_pivot l first last in
        let l := introsort_loop depth_limit l cut last in
        introsort_loop depth_limit l first cut
    end
  else l.

(** An element moves to the left as long as it goes before its left
    neighbour. *)
Fixpoint linear_insert (val : pair) (sorted : list pair) : list pair :=
  match sorted with
  | [] => [val]
  | q :: rest =>
      if bool_decide (q.1 < val.1) then val :: q :: rest
      else q :: linear_insert val rest
  end.

Definition final_insertion_sort (l : list pair) : list pair :=
  foldl (λ sorted val, linear_insert val sorted) [] l.

Definition sort (l : list pair) : list pair :=
  final_insertion_sort
    (introsort_loop (2 * Nat.log2 (length l)) l 0 (length l)).

(** [torch.sort(xs, descending=True)]: the values and their positions. *)
Definition torch_sort (xs : list nat) : list nat * list nat :=
  let ps := sort (zip xs (seq 0 (length xs))) in (ps.*1, ps.*2).

(** Seventeen examples of one symbol and one frame each. *)
Definition batch_seventeen : list (Collate.example Z) :=
  (λ i, Collate.Example i 0 [Z.of_nat i]
          [[Z.of_nat i]; [Z.of_nat i]] None) <$> seq 0 17.

End StdSort.

(** ** modules/tacotron2.py: ModelParallelTacotron *)

Module ModelParallel.

Section Forward.

(** [Split] is a tuple of chunks of [text, text_length, target,
    target_length, speakers, languages], as [zip( *batch_splits)] yields
    them; [Encoded] is the output of the encoder, [T] a returned tensor and
    [State] what the modules read and write during a pass (the random
    generator of the dropout layers, the statistics of the batch norms). *)
Context {Split Encoded T State Ratio : Type}.

(** Lines 439-441. *)
Variable _encoder_forward : Split → State → Encoded * State.

(** Lines 444-458: the decoder, the post-net and the masks, giving
    [post_prediction, pre_prediction, stop_token, alignment]. *)
Variable decode : Encoded → Split → Ratio → State → (T * T * T * T) * State.

(** [torch.cat]. *)
Variable cat : list T → T.

(** The four lists of [ret]. *)
Definition ret : Type := list T * list T * list T * list T.

(** Lines 443-463. *)
Definition _decoder_forward (encoded : Encoded) (splits : Split) (r : ret)
    (teacher_forcing_ratio : Ratio) (st : State) : ret * State :=
  let '((post, pre, stop, ali), st') :=
    decode encoded splits teacher_forcing_ratio st in
  let '(r0, r1, r2, r3) := r in
  ((r0 ++ [post], r1 ++ [pre], r2 ++ [stop], r3 ++ [ali]), st').

(** The loop of lines 477-480, over the tuples that are left. *)
Fixpoint forward_loop (rest : list Split) (encoded : Encoded)
    (prev_splits : Split) (r : ret) (teacher_forcing_ratio : Ratio)
    (st : State) : Encoded * Split * ret * State :=
  match rest with
  | [] => (encoded, prev_splits, r, st)
  | next_splits :: rest =>
      let '(r, st) :=
        _decoder_forward encoded prev_splits r teacher_forcing_ratio st in
      let '(encoded, st) := _encoder_forward next_splits st in
      forward_loop rest encoded next_splits r teacher_forcing_ratio st
  end.

(** [forward], lines 471-484; [zipped] is the sequence of the tuples of
    [zip( *batch_splits)].  [None] is the [StopIteration] that [next]
    raises when there is no tuple. *)
Definition forward (zipped : list Split) (teacher_forcing_ratio : Ratio)
    (st : State) : option ((T * T * T * T) * State) :=
  match zipped with
  | [] => None
  | next_splits :: rest =>
      let '(encoded, st) := _encoder_forward next_splits st in
      let '(encoded, prev_splits, r, st) :=
        forward_loop rest encoded next_splits ([], [], [], [])
          teacher_forcing_ratio st in
      let '(r, st) :=
        _decoder_forward encoded prev_splits r teacher_forcing_ratio st in
      let '(r0, r1, r2, r3) := r in
      Some ((cat r0, cat r1, cat r2, cat r3), st)
  end.

(** One chunk after the other: the chunk is encoded, then decoded with its
    own encoding. *)
Definition chunk_by_chunk (zipped : list Split) (teacher_forcing_ratio : Ratio)
    (r : ret) (st : State) : ret * State :=
  foldl (λ (acc : ret * State) splits,
           let '(encoded, st) := _encoder_forward splits acc.2 in
           _decoder_forward encoded splits acc.1 teacher_forcing_ratio st)
        (r, st) zipped.

End Forward.

(** Chunks that are numbers and tensors that are lists: the encoder
    doubles, the decoder adds the state, which counts the calls. *)
Definition toy_encoder (s : nat) (st : nat) : nat * nat := (2 * s, S st).
Definition toy_decode (e s : nat) (ratio : unit) (st : nat)
  : (list nat * list nat * list nat * list nat) * nat :=
  (([e + st], [e], [s], [st]), S st).

End ModelParallel.

(** ** modules/tacotron2.py: TacotronLoss *)

Module TacotronLoss.

Section Loss.

(** [G] holds the floating point numbers [_g] and [_gamma], [V] the value
    of a loss and [Inputs] the arguments [alignments, input_lengths,
    target_lengths]. *)
Context {G V Inputs : Type}.

(** The product of two floating point numbers. *)
Variable mul : G → G → G.

(** Lines 510-517: the loss computed from [self._g] and the arguments. *)
Variable guided_loss : G → Inputs → V.

Record t := mk {
  _g : G;
  _gamma : G;
  _g_steps : Z
}.

(** Lines 504-506. *)
Definition update_states (self : t) : t :=
  {| _g := mul (_g self) (_gamma self);
     _gamma := _gamma self;
     _g_steps := Z.max 0 (_g_steps self - 1) |}.

(** The integer [0] of line 509, or the loss. *)
Inductive loss_value :=
| Zero
| Loss (v : V).

(** Lines 508-517; [guided_attention_loss] is [hp.guided_attention_loss]. *)
Definition _guided_attention (guided_attention_loss : bool) (self : t)
    (inputs : Inputs) : loss_value :=
  if negb guided_attention_loss || bool_decide (_g_steps self = 0%Z)
  then Zero
  else Loss (guided_loss (_g self) inputs).

End Loss.

Arguments t : clear implicits.
Arguments loss_value : clear implicits.

End TacotronLoss.

(** ** modules/layers.py: ConvBlock *)

Module Layers.

(** Lines 66-67: the padding given to [ConstantPad1d], on the left and on
    the right; an integer pads both sides alike. *)
Definition conv_block_padding (kernel dilation : Z) : Z * Z :=
  let p := (((kernel - 1) * dilation) `div` 2)%Z in
  if bool_decide (kernel `mod` 2 ≠ 0)%Z then (p, p) else (p, (p + 1)%Z).

(** The length that the block gives to a sequence of length [len]: the
    padding adds its two sides, and the convolution, which has no padding
    of its own and the stride 1, takes [dilation * (kernel - 1)] away. *)
Definition conv_block_length (kernel dilation len : Z) : Z :=
  let '(pad_left, pad_right) := conv_block_padding kernel dilation in
  (len + pad_left + pad_right - dilation * (kernel - 1))%Z.

End Layers.

(** * Properties *)

(** ** Lists and slices *)

#[local] Arguments Nat.div : simpl never.

Lemma StronglySorted_lookup {A} (R : relation A) (l : list A) i j x y :
  StronglySorted R l → i < j → l !! i = Some x → l !! j = Some y → R x y.
Proof.
  intros Hs. revert i j. induction Hs as [|a l Hs IH Hall]; intros i j Hij Hi Hj.
  - by rewrite lookup_nil in Hi.
  - destruct j as [|j]; [lia|]. destruct i as [|i]; simpl in *.
    + simplify_eq. rewrite Forall_forall in Hall. apply Hall.
      by eapply list_elem_of_lookup_2.
    + eapply IH; [|done..]. lia.
Qed.

Lemma max_list_app (l1 l2 : list nat) :
  max_list (l1 ++ l2) = max_list l1 `max` max_list l2.
Proof. induction l1 as [|x l1 IH]; simpl; [done|]. rewrite IH. lia. Qed.

Lemma forallb_Forall {A} (f : A → bool) (l : list A) :
  forallb f l = true → Forall (λ x, f x = true) l.
Proof.
  induction l as [|x l IH]; simpl; [done|].
  intros [??]%andb_true_iff. constructor; auto.
Qed.

Section CollateFacts.

Context {F : Type}.
Variables (f0 f1 : F) (to_float : F → F).
Variable torch_sort : list nat → list nat * list nat.

Import Collate.

Lemma assign_prefix_length {A} (row : list A) k src row' :
  assign_prefix row k src = Some row' → length row' = length row.
Proof.
  unfold assign_prefix. intros H. case_decide as Hn.
  - simplify_eq. rewrite length_app, length_drop. lia.
  - destruct src as [|x [|]]; simplify_eq.
    rewrite length_app, length_replicate, length_drop. lia.
Qed.

(** Copying [src] at the start of a row that can hold it. *)
Lemma assign_prefix_fits {A} (row : list A) src :
  length src ≤ length row →
  assign_prefix row (length src) src = Some (src ++ drop (length src) row).
Proof.
  intros H. unfold assign_prefix.
  replace (length src `min` length row) with (length src) by lia.
  by rewrite decide_True.
Qed.

Lemma assign_prefix_inv {A} (row : list A) src row' :
  assign_prefix row (length src) src = Some row' →
  length src ≤ length row →
  row' = src ++ drop (length src) row.
Proof. intros H Hle. rewrite assign_prefix_fits in H by done. congruence. Qed.

Lemma assign_rows_shape {A} (m src : list (list A)) k m' :
  assign_rows m src k = Some m' →
  Forall2 (λ r r', length r' = length r) m m'.
Proof.
  revert src m'. induction m as [|row m IH]; intros [|r src] m' H;
    simplify_option_eq; constructor; eauto using assign_prefix_length.
Qed.

Lemma assign_block_shape {A} (m src : list (list A)) k m' :
  assign_block m k src = Some m' →
  Forall2 (λ r r', length r' = length r) m m'.
Proof.
  unfold assign_block. intros H. case_decide.
  - by eapply assign_rows_shape.
  - destruct src as [|r [|]]; simplify_eq.
    apply mapM_Some_1 in H.
    eapply Forall2_impl; [done|]. simpl. eauto using assign_prefix_length.
Qed.

Lemma assign_block_has_shape2 {A} (m src : list (list A)) k m' n c :
  assign_block m k src = Some m' → has_shape2 m n c → has_shape2 m' n c.
Proof.
  intros H [Hn Hc]. apply assign_block_shape in H. split.
  - by rewrite <-(Forall2_length _ _ _ H).
  - clear Hn. induction H; [done|]. inversion_clear Hc.
    constructor; [congruence|auto].
Qed.

Lemma fill_from_length {A} (row : list A) start x :
  length (fill_from row start x) = length row.
Proof.
  unfold fill_from, slice_start.
  rewrite length_app, length_take, length_replicate. lia.
Qed.

(** For a start inside the row, the row is kept before it and is [x] from
    it on. *)
Lemma fill_from_lookup {A} (row : list A) (s : nat) x j :
  j < length row →
  fill_from row (Z.of_nat s) x !! j = if decide (j < s) then row !! j else Some x.
Proof.
  intros Hj. unfold fill_from, slice_start.
  rewrite decide_False by lia. rewrite Nat2Z.id.
  case_decide.
  - rewrite lookup_app_l by (rewrite length_take; lia).
    by rewrite lookup_take_lt by lia.
  - rewrite lookup_app_r by (rewrite length_take; lia).
    rewrite length_take. apply lookup_replicate_2. lia.
Qed.

(** *** The two loops *)

Lemma get_lengths_spec (batch : list (example F)) acc ls :
  get_lengths batch acc = Some ls →
  l_speakers ls = l_speakers acc ++ (ex_s <$> batch)
  ∧ l_languages ls = l_languages acc ++ (ex_l <$> batch)
  ∧ l_utterance_lengths ls = l_utterance_lengths acc ++ (utterance_length <$> batch)
  ∧ l_spectrogram_lengths ls = l_spectrogram_lengths acc ++ (frame_count <$> batch)
  ∧ l_max_frames ls = l_max_frames acc `max` max_list (frame_count <$> batch).
Proof.
  revert acc. induction batch as [|e batch IH]; intros acc H; simpl in *.
  - simplify_eq. rewrite !app_nil_r. repeat split; lia.
  - assert (Hfc : ∀ a0, ex_a e !! 0 = Some a0 → frame_count e = length a0).
    { intros a0 Ha. unfold frame_count. by rewrite Ha. }
    destruct (ex_a e !! 0) as [a0|]; [|done]. simpl in H.
    rewrite (Hfc a0 eq_refl).
    apply IH in H as (H1 & H2 & H3 & H4 & H5). simpl in *.
    rewrite H1, H2, H3, H4, H5, <-!app_assoc. simpl.
    split_and!; [done..|]. unfold fmap. case_decide; lia.
Qed.

Lemma get_lengths_total (batch : list (example F)) acc :
  Forall (λ e, is_Some (ex_a e !! 0)) batch → is_Some (get_lengths batch acc).
Proof.
  intros H. revert acc. induction H as [|e batch [a0 Ha] _ IH]; intros acc.
  - by eexists.
  - simpl. rewrite Ha. simpl. apply IH.
Qed.

Lemma fill_step_spec hp (batch : list (example F)) i idx st st' :
  fill_step f1 to_float hp batch i idx st = Some st' →
  ∃ e, batch !! idx = Some e
       ∧ row_written f1 to_float e i st st'
       ∧ (∀ j, j ≠ i → same_row j st st')
       ∧ same_sizes st st'.
Proof.
  unfold fill_step. intros H.
  destruct (batch !! idx) as [e|]; [|done]. simpl in H.
  destruct (t_utterances st !! i) as [urow|] eqn:Hu; [|done]. simpl in H.
  destruct (assign_prefix urow _ _) as [urow'|] eqn:Hu'; [|done]. simpl in H.
  destruct (ex_a e !! 0) as [a0|] eqn:Ha; [|done]. simpl in H.
  destruct (t_mel st !! i) as [m|] eqn:Hm; [|done]. simpl in H.
  destruct (assign_block m _ _) as [m'|] eqn:Hm'; [|done]. simpl in H.
  match type of H with (?l ≫= _) = _ => destruct l as [lin'|]; [|done] end.
  simpl in H.
  destruct (t_stop st !! i) as [srow|] eqn:Hs; [|done]. simpl in H.
  simplify_eq. exists e. split; [done|]. split; [|split].
  - exists urow, urow', a0, m, m', srow. simpl.
    rewrite !list_lookup_insert_eq by by eapply lookup_lt_Some.
    by repeat split.
  - intros j Hj. unfold same_row. simpl.
    by rewrite !list_lookup_insert_ne by done.
  - unfold same_sizes. simpl. by rewrite !length_insert.
Qed.

Lemma fill_spec hp (batch : list (example F)) idxs i st st' :
  fill f1 to_float hp batch i idxs st = Some st' →
  same_sizes st st'
  ∧ (∀ j, j < i ∨ i + length idxs ≤ j → same_row j st st')
  ∧ (∀ k idx, idxs !! k = Some idx →
       ∃ e, batch !! idx = Some e ∧ row_written f1 to_float e (i + k) st st').
Proof.
  revert i st. induction idxs as [|idx idxs IH]; intros i st H; simpl in H.
  - simplify_eq. repeat split; intros; by rewrite ?lookup_nil in *.
  - destruct (fill_step _ _ _ _ _ _ _) as [st1|] eqn:Hstep; [|done].
    simpl in H. apply fill_step_spec in Hstep as (e & He & Hrow & Hother & Hsz).
    apply IH in H as (Hsz' & Hsame & Hrows).
    split; [|split].
    + destruct Hsz as (?&?&?), Hsz' as (?&?&?). repeat split; congruence.
    + intros j Hj. simpl in Hj.
      destruct (Hsame j) as (?&?&?); [lia|].
      destruct (Hother j) as (?&?&?); [lia|].
      repeat split; congruence.
    + intros [|k] idx' Hk; simpl in Hk.
      * simplify_eq. exists e. split; [done|].
        rewrite Nat.add_0_r.
        destruct Hrow as (urow & urow' & a0 & m & m' & srow & Hrow).
        destruct (Hsame i) as (Hu & Hm & Hs); [lia|].
        exists urow, urow', a0, m, m', srow.
        rewrite Hu, Hm, Hs. tauto.
      * destruct (Hrows k idx' Hk) as (e' & He' & Hrow').
        exists e'. split; [done|].
        replace (i + S k) with (S i + k) by lia.
        destruct Hrow' as (urow & urow' & a0 & m & m' & srow & Hrow').
        destruct (Hother (S i + k)) as (Hu & Hm & Hs); [lia|].
        exists urow, urow', a0, m, m', srow.
        rewrite <-Hu, <-Hm, <-Hs. tauto.
Qed.

(** *** The result of the collator *)

Lemma collate_inv hp (batch : list (example F)) out :
  collate f0 f1 to_float torch_sort hp batch = Some out →
  ∃ longest st,
    (torch_sort (utterance_length <$> batch)).1 !! 0 = Some longest
    ∧ fill f1 to_float hp batch 0 (torch_sort (utterance_length <$> batch)).2
        (initial_tensors f0 hp (length batch) longest
           (max_list (frame_count <$> batch))) = Some st
    ∧ sorted_utterance_lengths out = (torch_sort (utterance_length <$> batch)).1
    ∧ utterances out = t_utterances st
    ∧ mel_spectrograms out = t_mel st
    ∧ lin_spectrograms out = t_lin st
    ∧ stop_tokens out = t_stop st
    ∧ gather (frame_count <$> batch) (torch_sort (utterance_length <$> batch)).2
      = Some (spectrogram_lengths out).
Proof.
  unfold collate. intros H.
  destruct (get_lengths batch _) as [ls|] eqn:Hls; [|done]. simpl in H.
  apply get_lengths_spec in Hls as (_ & _ & Hul & Hsl & Hmf). simpl in *.
  rewrite Hul, Hsl, Hmf in H. clear Hul Hsl Hmf.
  destruct (torch_sort (utterance_length <$> batch)) as [vals idxs]. simpl.
  destruct (gather (frame_count <$> batch) idxs) as [sl|]; [|done]. simpl in H.
  match type of H with (?l ≫= _) = _ => destruct l as [spk|]; [|done] end.
  simpl in H.
  match type of H with (?l ≫= _) = _ => destruct l as [lang|]; [|done] end.
  simpl in H.
  destruct (vals !! 0) as [longest|]; [|done]. simpl in H.
  match type of H with (?l ≫= _) = _ => destruct l as [st|] eqn:Hfill; [|done] end.
  simpl in H. simplify_eq. exists longest, st. simpl. by repeat split.
Qed.

(** *** The promise of [torch.sort] *)

Lemma is_descending_sort_inv xs vals idxs :
  is_descending_sort xs (vals, idxs) = true →
  idxs ≡ₚ seq 0 (length xs)
  ∧ gather xs idxs = Some vals
  ∧ StronglySorted (λ x y, y ≤ x) vals.
Proof.
  unfold is_descending_sort. rewrite !andb_true_iff, !bool_decide_eq_true.
  simpl. tauto.
Qed.

Lemma gather_lookup {A} (xs : list A) idxs vals i idx :
  gather xs idxs = Some vals → idxs !! i = Some idx →
  ∃ v, xs !! idx = Some v ∧ vals !! i = Some v.
Proof.
  intros H Hi. apply mapM_Some_1 in H.
  destruct (Forall2_lookup_l _ _ _ _ _ H Hi) as (v & Hv & Hx). eauto.
Qed.

Lemma gather_length {A} (xs : list A) idxs vals :
  gather xs idxs = Some vals → length vals = length idxs.
Proof. intros H. symmetry. by eapply length_mapM. Qed.

Lemma gather_total {A} (xs : list A) idxs :
  Forall (λ i, i < length xs) idxs → is_Some (gather xs idxs).
Proof.
  intros H. unfold gather. induction H as [|i idxs Hi _ [vs IH]].
  - by eexists.
  - destruct (lookup_lt_is_Some_2 xs i Hi) as [v Hv].
    exists (v :: vs). rewrite mapM_Some in IH |- *. by constructor.
Qed.

Lemma perm_seq_lookup idxs n i idx :
  idxs ≡ₚ seq 0 n → idxs !! i = Some idx → idx < n.
Proof.
  intros Hp Hi. apply list_elem_of_lookup_2 in Hi. rewrite Hp in Hi.
  apply elem_of_seq in Hi. lia.
Qed.

Lemma perm_seq_position idxs n idx :
  idxs ≡ₚ seq 0 n → idx < n → ∃ i, idxs !! i = Some idx.
Proof.
  intros Hp Hi. apply list_elem_of_lookup_1. rewrite Hp.
  apply elem_of_seq. lia.
Qed.

Lemma perm_seq_length idxs n : idxs ≡ₚ seq 0 n → length idxs = n.
Proof. intros ->. apply length_seq. Qed.

(** The first of the sorted values is the greatest element. *)
Lemma sorted_first_is_max xs vals idxs longest :
  is_descending_sort xs (vals, idxs) = true →
  vals !! 0 = Some longest → longest = max_list xs.
Proof.
  intros (Hp & Hg & Hs)%is_descending_sort_inv H0.
  apply Nat.le_antisymm.
  - assert (is_Some (idxs !! 0)) as [idx Hidx].
    { apply lookup_lt_is_Some. rewrite <-(gather_length _ _ _ Hg).
      by eapply lookup_lt_Some. }
    destruct (gather_lookup _ _ _ _ _ Hg Hidx) as (v & Hv & Hv').
    assert (v = longest) as -> by congruence.
    apply max_list_elem_of_le. by eapply list_elem_of_lookup_2.
  - destruct (decide (xs = [])) as [->|Hne]; [simpl; lia|].
    destruct (list_elem_of_lookup_1 _ _ (max_list_elem_of xs Hne)) as [k Hk].
    destruct (perm_seq_position idxs (length xs) k Hp) as [p Hpos].
    { by eapply lookup_lt_Some. }
    destruct (gather_lookup _ _ _ _ _ Hg Hpos) as (v & Hv & Hv').
    assert (v = max_list xs) as -> by congruence.
    destruct p as [|p]; [by simplify_eq|].
    eapply (StronglySorted_lookup _ _ 0 (S p)) in Hs; [|lia|done..]. done.
Qed.

(** *** Row by row *)

Lemma zeros2_has_shape2 {A} (z : A) n m : has_shape2 (zeros2 z n m) n m.
Proof.
  split; [apply length_replicate|].
  apply Forall_replicate, length_replicate.
Qed.

Lemma collate_sizes hp (batch : list (example F)) out :
  collate f0 f1 to_float torch_sort hp batch = Some out →
  length (utterances out) = length batch
  ∧ length (mel_spectrograms out) = length batch
  ∧ length (stop_tokens out) = length batch.
Proof.
  intros (longest & st & _ & Hfill & _ & -> & -> & _ & -> & _)%collate_inv.
  apply fill_spec in Hfill as ((-> & -> & ->) & _). simpl.
  unfold zeros3, zeros2. by rewrite !length_replicate.
Qed.

(** Row [i] of the result holds the example that the sort puts at
    position [i]. *)
Lemma collate_row hp (batch : list (example F)) out i :
  is_descending_sort (utterance_length <$> batch)
    (torch_sort (utterance_length <$> batch)) = true →
  collate f0 f1 to_float torch_sort hp batch = Some out →
  i < length batch →
  ∃ idx e a0 m,
    (torch_sort (utterance_length <$> batch)).2 !! i = Some idx
    ∧ batch !! idx = Some e
    ∧ ex_a e !! 0 = Some a0
    ∧ utterance_length e ≤ max_list (utterance_length <$> batch)
    ∧ utterances out !! i =
        Some (ex_u e ++ replicate
                (max_list (utterance_length <$> batch) - utterance_length e) 0%Z)
    ∧ mel_spectrograms out !! i = Some m
    ∧ has_shape2 m (Params.num_mels hp) (max_list (frame_count <$> batch))
    ∧ stop_tokens out !! i =
        Some (fill_from (replicate (max_list (frame_count <$> batch)) f0)
                (Z.of_nat (length a0) - 1) f1)
    ∧ sorted_utterance_lengths out !! i = Some (utterance_length e)
    ∧ spectrogram_lengths out !! i = Some (frame_count e).
Proof.
  intros Hsort Hc Hi.
  destruct (collate_inv _ _ _ Hc)
    as (longest & st & H0 & Hfill & Hsul & Hu & Hm & _ & Hs & Hsl).
  destruct (torch_sort (utterance_length <$> batch)) as [vals idxs] eqn:Hts.
  simpl in *.
  pose proof (sorted_first_is_max _ _ _ _ Hsort H0) as ->.
  apply is_descending_sort_inv in Hsort as (Hp & Hg & Hsorted).
  rewrite length_fmap in Hp.
  assert (is_Some (idxs !! i)) as [idx Hidx].
  { apply lookup_lt_is_Some. by rewrite (perm_seq_length _ _ Hp). }
  apply fill_spec in Hfill as (_ & _ & Hrows).
  destruct (Hrows i idx Hidx) as (e & He & Hrow). simpl in Hrow.
  destruct Hrow as (urow & urow' & a0 & m & m' & srow
                    & Hu0 & Hu1 & Hu2 & Ha0 & Hm0 & Hm1 & Hm2 & Hs0 & Hs2).
  simpl in *. unfold zeros3, zeros2 in *.
  apply lookup_replicate in Hu0 as [-> _].
  apply lookup_replicate in Hm0 as [-> _].
  apply lookup_replicate in Hs0 as [-> _].
  assert (Hle : utterance_length e ≤ max_list (utterance_length <$> batch)).
  { apply max_list_elem_of_le, list_elem_of_fmap. exists e. split; [done|].
    by eapply list_elem_of_lookup_2. }
  exists idx, e, a0, m'. rewrite Hu, Hm, Hs, Hsul.
  split_and!; try done.
  - apply assign_prefix_inv in Hu1; [|by rewrite length_replicate].
    rewrite Hu2, Hu1. f_equal. f_equal. by rewrite drop_replicate.
  - eapply assign_block_has_shape2; [done|]. apply zeros2_has_shape2.
  - destruct (gather_lookup _ _ _ _ _ Hg Hidx) as (v & Hv & ->).
    rewrite list_lookup_fmap, He in Hv. simpl in Hv. congruence.
  - destruct (gather_lookup _ _ _ _ _ Hsl Hidx) as (v & Hv & ->).
    rewrite list_lookup_fmap, He in Hv. simpl in Hv. congruence.
Qed.

(** *** The collator returns on well-formed batches *)

Lemma is_array_inv (rows : nat) (a : list (list F)) :
  is_array rows a = true → 0 < rows →
  ∃ a0, a !! 0 = Some a0 ∧ length a = rows
        ∧ Forall (λ r, length r = length a0) a.
Proof.
  unfold is_array. rewrite andb_true_iff, !bool_decide_eq_true.
  intros [Hl Hr] Hpos. destruct a as [|a0 a]; simpl in *; [lia|]. eauto.
Qed.

Lemma well_formed_example_inv hp (e : example F) :
  well_formed_example hp e = true →
  ∃ a0, ex_a e !! 0 = Some a0
        ∧ length (ex_a e) = Params.num_mels hp
        ∧ Forall (λ r, length r = length a0) (ex_a e)
        ∧ (Params.predict_linear hp = true →
           ∃ b b0, ex_b e = Some b ∧ b !! 0 = Some b0
                   ∧ length b = Params.num_fft hp / 2 + 1
                   ∧ Forall (λ r, length r = length b0) b
                   ∧ length b0 = length a0).
Proof.
  unfold well_formed_example. rewrite !andb_true_iff, bool_decide_eq_true.
  intros [[Hpos Ha] Hb].
  destruct (is_array_inv _ _ Ha Hpos) as (a0 & Ha0 & Hla & Hra).
  exists a0. split_and!; try done. intros Hlin. rewrite Hlin in Hb.
  destruct (ex_b e) as [b|]; [|done].
  apply andb_true_iff in Hb as [Hb Hfc]. apply bool_decide_eq_true in Hfc.
  destruct (is_array_inv _ _ Hb) as (b0 & Hb0 & Hlb & Hrb); [lia|].
  exists b, b0. split_and!; try done.
  unfold frame_count in Hfc. by rewrite Hb0, Ha0 in Hfc.
Qed.

Lemma assign_rows_total {A} (m src : list (list A)) k :
  length src = length m →
  Forall (λ row, k ≤ length row) m →
  Forall (λ r, length r = k) src →
  is_Some (assign_rows m src k).
Proof.
  revert src. induction m as [|row m IH]; intros [|r src] Hl Hm Hs;
    simplify_eq/=; [by eexists|].
  inversion_clear Hm. inversion_clear Hs. subst k.
  rewrite assign_prefix_fits by done. simpl.
  destruct (IH src) as [rest ->]; [lia|done..|]. by eexists.
Qed.

Lemma assign_block_total (g : F → F) (z : F) rows cols (a : list (list F)) (a0 : list F) :
  length a = rows → Forall (λ r, length r = length a0) a →
  length a0 ≤ cols →
  is_Some (assign_block (zeros2 z rows cols) (length a0) (map (map g) a)).
Proof.
  intros Hl Hr Hc. unfold assign_block, zeros2.
  rewrite length_map, length_replicate, decide_True by done.
  apply assign_rows_total.
  - by rewrite length_map, length_replicate.
  - apply Forall_replicate. by rewrite length_replicate.
  - apply Forall_fmap. eapply Forall_impl; [done|]. simpl.
    intros r Hlen. by rewrite length_map.
Qed.

Lemma fill_step_total hp (batch : list (example F)) n longest max_frames
    i idx e st :
  batch !! idx = Some e →
  well_formed_example hp e = true →
  utterance_length e ≤ longest → frame_count e ≤ max_frames →
  i < n →
  untouched_from f0 hp n longest max_frames i st →
  ∃ st', fill_step f1 to_float hp batch i idx st = Some st'
         ∧ untouched_from f0 hp n longest max_frames (S i) st'.
Proof.
  intros He (a0 & Ha0 & Hla & Hra & Hlin)%well_formed_example_inv Hu Hfc Hi Hinv.
  destruct (Hinv i) as (Hur & Hmr & Hsr & Hlr); [lia..|].
  unfold frame_count in Hfc. rewrite Ha0 in Hfc. simpl in Hfc.
  unfold fill_step. rewrite He. simpl. rewrite Hur. simpl.
  rewrite assign_prefix_fits by by rewrite length_replicate. simpl.
  rewrite Ha0. simpl. rewrite Hmr. simpl.
  destruct (assign_block_total to_float f0 _ max_frames _ a0 Hla Hra Hfc)
    as [m' ->]. simpl.
  destruct (Params.predict_linear hp) eqn:Hpl.
  - destruct (Hlin eq_refl) as (b & b0 & -> & Hb0 & Hlb & Hrb & Hb0a).
    destruct (Hlr eq_refl) as (lin & Hl & Hlj). simpl.
    rewrite Hb0, Hl. simpl. rewrite Hlj. simpl.
    destruct (assign_block_total to_float f0 _ max_frames _ b0 Hlb Hrb)
      as [lm' ->]; [lia|]. simpl.
    rewrite Hsr. simpl. eexists. split; [done|].
    intros j Hj1 Hj2. simpl.
    destruct (Hinv j) as (? & ? & ? & Hl'); [lia..|].
    rewrite !list_lookup_insert_ne by lia. split_and!; try done.
    intros _. destruct (Hl' Hpl) as (lin' & ? & ?). simplify_eq.
    eexists. split; [done|]. by rewrite list_lookup_insert_ne by lia.
  - simpl. rewrite Hsr. simpl. eexists. split; [done|].
    intros j Hj1 Hj2. simpl.
    destruct (Hinv j) as (? & ? & ? & Hl'); [lia..|].
    rewrite !list_lookup_insert_ne by lia. split_and!; done.
Qed.

Lemma fill_total hp (batch : list (example F)) n longest max_frames idxs i st :
  Forall (λ idx, ∃ e, batch !! idx = Some e
                      ∧ well_formed_example hp e = true
                      ∧ utterance_length e ≤ longest
                      ∧ frame_count e ≤ max_frames) idxs →
  i + length idxs ≤ n →
  untouched_from f0 hp n longest max_frames i st →
  is_Some (fill f1 to_float hp batch i idxs st).
Proof.
  intros H. revert i st.
  induction H as [|idx idxs (e & He & Hwf & Hu & Hfc) _ IH]; intros i st Hn Hinv.
  - by eexists.
  - simpl in *.
    destruct (fill_step_total hp batch n longest max_frames i idx e st)
      as (st' & -> & Hinv'); try done; [lia|].
    simpl. apply IH; [lia|done].
Qed.

Lemma collate_total hp (batch : list (example F)) :
  is_descending_sort (utterance_length <$> batch)
    (torch_sort (utterance_length <$> batch)) = true →
  well_formed_batch hp batch = true →
  is_Some (collate f0 f1 to_float torch_sort hp batch).
Proof.
  intros Hsort [Hne Hwf]%andb_true_iff.
  apply bool_decide_eq_true in Hne.
  apply forallb_Forall in Hwf.
  unfold collate.
  destruct (get_lengths_total batch (Lengths [] [] [] [] 0)) as [ls Hls].
  { eapply Forall_impl; [done|]. simpl.
    intros e (a0 & -> & _)%well_formed_example_inv. by eexists. }
  rewrite Hls. simpl.
  apply get_lengths_spec in Hls as (Hsp & Hla & Hul & Hsl & Hmf). simpl in *.
  rewrite Hsp, Hla, Hul, Hsl, Hmf. clear Hsp Hla Hul Hsl Hmf.
  destruct (torch_sort (utterance_length <$> batch)) as [vals idxs] eqn:Hts.
  pose proof Hsort as (Hp & Hg & Hsorted)%is_descending_sort_inv.
  rewrite length_fmap in Hp.
  assert (Hidx : ∀ {A} (g : example F → A),
             Forall (λ i, i < length (g <$> batch)) idxs).
  { intros A g. apply Forall_lookup. intros k idx Hk.
    rewrite length_fmap. by eapply perm_seq_lookup. }
  destruct (gather_total _ _ (Hidx _ frame_count)) as [sl ->]. simpl.
  destruct (gather_total _ _ (Hidx _ ex_s)) as [spk Hspk].
  destruct (gather_total _ _ (Hidx _ ex_l)) as [lang Hlang].
  assert (is_Some (vals !! 0)) as [longest H0].
  { apply lookup_lt_is_Some.
    rewrite (gather_length _ _ _ Hg), (perm_seq_length _ _ Hp).
    destruct batch; [done|simpl; lia]. }
  pose proof (sorted_first_is_max _ _ _ _ Hsort H0) as Hmax.
  destruct (fill_total hp batch (length batch) longest
              (max_list (frame_count <$> batch)) idxs 0
              (initial_tensors f0 hp (length batch) longest
                 (max_list (frame_count <$> batch)))) as [st Hst].
  { apply Forall_lookup. intros k idx Hk.
    destruct (lookup_lt_is_Some_2 batch idx) as [e He].
    { by eapply perm_seq_lookup. }
    exists e. split_and!; try done.
    - rewrite Forall_forall in Hwf. apply Hwf.
      by eapply list_elem_of_lookup_2.
    - subst longest. apply max_list_elem_of_le, list_elem_of_fmap.
      exists e. split; [done|]. by eapply list_elem_of_lookup_2.
    - apply max_list_elem_of_le, list_elem_of_fmap.
      exists e. split; [done|]. by eapply list_elem_of_lookup_2. }
  { by rewrite (perm_seq_length _ _ Hp). }
  { intros j _ Hj. unfold initial_tensors, zeros3, zeros2. simpl.
    rewrite !lookup_replicate_2 by done. split_and!; try done.
    intros ->. eexists. split; [done|]. by rewrite lookup_replicate_2. }
  rewrite Hspk, Hlang.
  destruct (Params.multi_speaker hp), (Params.multi_language hp); simpl;
    rewrite H0; simpl; unfold initial_tensors in Hst; rewrite Hst; by eexists.
Qed.

(** *** The stated properties *)

Lemma row_example_inv (idxs : list nat) (batch : list (example F)) i e :
  row_example idxs batch i = Some e →
  ∃ idx, idxs !! i = Some idx ∧ batch !! idx = Some e.
Proof.
  unfold row_example. intros H.
  destruct (idxs !! i) as [idx|]; [|done]. eauto.
Qed.

(** C1.  Whenever [torch.sort] returns a descending sort of the utterance
    lengths: the collator returns on every well-formed batch; the symbol
    tensor it returns has shape [batch_size, longest utterance] and the mel
    tensor has shape [batch_size, num_mels, longest spectrogram]; row [i]
    of the symbol tensor starts with the symbols of the example the sort
    puts at position [i] and is zero from the length of that utterance on;
    and the utterance lengths decrease along the rows. *)
Theorem collate_symbols_sorted_and_padded hp (batch : list (example F)) :
  is_descending_sort (utterance_length <$> batch)
    (torch_sort (utterance_length <$> batch)) = true →
  (well_formed_batch hp batch = true →
   is_Some (collate f0 f1 to_float torch_sort hp batch))
  ∧ ∀ out, collate f0 f1 to_float torch_sort hp batch = Some out →
      has_shape2 (utterances out) (length batch)
        (max_list (utterance_length <$> batch))
      ∧ has_shape3 (mel_spectrograms out) (length batch) (Params.num_mels hp)
          (max_list (frame_count <$> batch))
      ∧ (∀ i, i < length batch →
           ∃ e row,
             row_example (torch_sort (utterance_length <$> batch)).2 batch i
               = Some e
             ∧ utterances out !! i = Some row
             ∧ take (utterance_length e) row = ex_u e
             ∧ ∀ j, utterance_length e ≤ j →
                    j < max_list (utterance_length <$> batch) →
                    row !! j = Some 0%Z)
      ∧ (∀ i j ei ej, i ≤ j →
           row_example (torch_sort (utterance_length <$> batch)).2 batch i
             = Some ei →
           row_example (torch_sort (utterance_length <$> batch)).2 batch j
             = Some ej →
           utterance_length ej ≤ utterance_length ei).
Proof.
  intros Hsort. split; [by apply collate_total|].
  intros out Hc.
  destruct (collate_sizes _ _ _ Hc) as (Hlu & Hlm & _).
  split_and!.
  - split; [done|]. apply Forall_lookup. intros i row Hrow.
    destruct (collate_row hp batch out i Hsort Hc)
      as (idx & e & a0 & m & _ & _ & _ & Hle & Hu & _).
    { rewrite <-Hlu. by eapply lookup_lt_Some. }
    rewrite Hu in Hrow. simplify_eq.
    rewrite length_app, length_replicate. unfold utterance_length in *. lia.
  - split; [done|]. apply Forall_lookup. intros i m Hm.
    destruct (collate_row hp batch out i Hsort Hc)
      as (idx & e & a0 & m' & _ & _ & _ & _ & _ & Hm' & Hsh & _).
    { rewrite <-Hlm. by eapply lookup_lt_Some. }
    congruence.
  - intros i Hi.
    destruct (collate_row hp batch out i Hsort Hc Hi)
      as (idx & e & a0 & m & Hidx & He & _ & Hle & Hu & _).
    exists e. eexists. split_and!; [|done|..].
    + unfold row_example. by rewrite Hidx.
    + unfold utterance_length. by rewrite take_app_length.
    + intros j Hj1 Hj2. unfold utterance_length in *.
      rewrite lookup_app_r by done. apply lookup_replicate_2. lia.
  - intros i j ei ej Hij (a & Ha & Hea)%row_example_inv
      (b & Hb & Heb)%row_example_inv.
    destruct (torch_sort (utterance_length <$> batch)) as [vals idxs].
    apply is_descending_sort_inv in Hsort as (_ & Hg & Hs). simpl in *.
    destruct (gather_lookup _ _ _ _ _ Hg Ha) as (va & Hva & Hva').
    destruct (gather_lookup _ _ _ _ _ Hg Hb) as (vb & Hvb & Hvb').
    rewrite list_lookup_fmap, Hea in Hva.
    rewrite list_lookup_fmap, Heb in Hvb. simplify_eq/=.
    destruct (decide (i = j)) as [->|]; [by simplify_eq|].
    eapply (StronglySorted_lookup _ _ i j) in Hs; [done|lia|done..].
Qed.

(** C4, amended.  For every row whose example has at least one frame, the
    stop target is [0.] below index [frame_count - 1] and [1.] from that
    index on, [frame_count] being the frame count of the example copied
    into the row, which is also the entry of the reordered frame-length
    vector; every example of the batch is in some row. *)
Theorem stop_tokens_mark_last_frame hp (batch : list (example F)) out :
  is_descending_sort (utterance_length <$> batch)
    (torch_sort (utterance_length <$> batch)) = true →
  collate f0 f1 to_float torch_sort hp batch = Some out →
  (∀ i e,
     row_example (torch_sort (utterance_length <$> batch)).2 batch i = Some e →
     1 ≤ frame_count e →
     ∃ row, stop_tokens out !! i = Some row
            ∧ length row = max_list (frame_count <$> batch)
            ∧ spectrogram_lengths out !! i = Some (frame_count e)
            ∧ stop_row_as_specified f0 f1 (frame_count e) row)
  ∧ (∀ idx e, batch !! idx = Some e →
       ∃ i, row_example (torch_sort (utterance_length <$> batch)).2 batch i
            = Some e
            ∧ (torch_sort (utterance_length <$> batch)).2 !! i = Some idx).
Proof.
  intros Hsort Hc. split.
  - intros i e (idx & Hidx & He)%row_example_inv Hfc.
    assert (Hi : i < length batch).
    { pose proof Hsort as Hsort'.
      destruct (torch_sort (utterance_length <$> batch)) as [vals idxs].
      apply is_descending_sort_inv in Hsort' as (Hp & _).
      rewrite length_fmap in Hp. rewrite <-(perm_seq_length _ _ Hp).
      by eapply lookup_lt_Some. }
    destruct (collate_row hp batch out i Hsort Hc Hi)
      as (idx' & e' & a0 & m & Hidx' & He' & Ha0 & _ & _ & _ & _ & Hs & _ & Hsl).
    simplify_eq. eexists. split; [done|].
    assert (Hfc' : frame_count e = length a0).
    { unfold frame_count. by rewrite Ha0. }
    split_and!.
    + by rewrite fill_from_length, length_replicate.
    + done.
    + intros j x Hj. rewrite Hfc' in *.
      assert (j < max_list (frame_count <$> batch)).
      { apply lookup_lt_Some in Hj.
        by rewrite fill_from_length, length_replicate in Hj. }
      replace (Z.of_nat (length a0) - 1)%Z
        with (Z.of_nat (length a0 - 1)) in Hj by lia.
      rewrite fill_from_lookup in Hj by by rewrite length_replicate.
      repeat case_decide; try lia; [|congruence].
      rewrite lookup_replicate_2 in Hj by done. congruence.
  - intros idx e He.
    destruct (torch_sort (utterance_length <$> batch)) as [vals idxs].
    apply is_descending_sort_inv in Hsort as (Hp & _). simpl in *.
    rewrite length_fmap in Hp.
    destruct (perm_seq_position idxs _ idx Hp) as [i Hi].
    { by eapply lookup_lt_Some. }
    exists i. unfold row_example. rewrite Hi. done.
Qed.

(** *** Every tensor of a row *)

Lemma fill_step_lin hp (batch : list (example F)) i idx st st' :
  fill_step f1 to_float hp batch i idx st = Some st' →
  if Params.predict_linear hp then
    ∃ e b b0 lin lm lm',
      batch !! idx = Some e ∧ ex_b e = Some b ∧ b !! 0 = Some b0
      ∧ t_lin st = Some lin ∧ lin !! i = Some lm
      ∧ assign_block lm (length b0) (map (map to_float) b) = Some lm'
      ∧ t_lin st' = Some (<[i := lm']> lin)
  else t_lin st' = t_lin st.
Proof.
  unfold fill_step. intros H.
  destruct (batch !! idx) as [e|] eqn:He; [|done]. simpl in H.
  destruct (t_utterances st !! i) as [urow|]; [|done]. simpl in H.
  destruct (assign_prefix urow _ _) as [urow'|]; [|done]. simpl in H.
  destruct (ex_a e !! 0) as [a0|]; [|done]. simpl in H.
  destruct (t_mel st !! i) as [m|]; [|done]. simpl in H.
  destruct (assign_block m _ _) as [m'|]; [|done]. simpl in H.
  destruct (Params.predict_linear hp).
  - destruct (ex_b e) as [b|] eqn:Hb; [|done]. simpl in H.
    destruct (b !! 0) as [b0|] eqn:Hb0; [|done]. simpl in H.
    destruct (t_lin st) as [lin|] eqn:Hlin; [|done]. simpl in H.
    destruct (lin !! i) as [lm|] eqn:Hlm; [|done]. simpl in H.
    destruct (assign_block lm _ _) as [lm'|] eqn:Hlm'; [|done]. simpl in H.
    destruct (t_stop st !! i); [|done]. simpl in H. simplify_eq.
    by exists e, b, b0, lin, lm, lm'.
  - simpl in H. destruct (t_stop st !! i); [|done]. simpl in H.
    by simplify_eq.
Qed.

Lemma fill_lin hp (batch : list (example F)) idxs i st st' lin :
  fill f1 to_float hp batch i idxs st = Some st' →
  Params.predict_linear hp = true →
  t_lin st = Some lin →
  ∃ lin', t_lin st' = Some lin'
    ∧ (∀ j, j < i ∨ i + length idxs ≤ j → lin' !! j = lin !! j)
    ∧ (∀ k idx, idxs !! k = Some idx →
         ∃ e b b0 lm lm',
           batch !! idx = Some e ∧ ex_b e = Some b ∧ b !! 0 = Some b0
           ∧ lin !! (i + k) = Some lm
           ∧ assign_block lm (length b0) (map (map to_float) b) = Some lm'
           ∧ lin' !! (i + k) = Some lm').
Proof.
  intros H Hpl. revert i st lin H.
  induction idxs as [|idx idxs IH]; intros i st lin H Hlin; simpl in H.
  - simplify_eq. exists lin. split; [done|]. split; [done|].
    intros k idx Hk. by rewrite lookup_nil in Hk.
  - destruct (fill_step _ _ _ _ _ _ _) as [st1|] eqn:Hstep; [|done].
    simpl in H. apply fill_step_lin in Hstep. rewrite Hpl in Hstep.
    destruct Hstep as (e & b & b0 & lin0 & lm & lm' & He & Hb & Hb0 & Hl0
                       & Hlm & Hab & Hl1).
    assert (lin0 = lin) as -> by congruence.
    destruct (IH _ _ _ H Hl1) as (lin' & Hl' & Hsame & Hrows).
    exists lin'. split; [done|]. split.
    + intros j Hj. simpl in Hj. rewrite Hsame by lia.
      apply list_lookup_insert_ne. lia.
    + intros [|k] idx' Hk; simpl in Hk.
      * simplify_eq. exists e, b, b0, lm, lm'. rewrite Nat.add_0_r.
        split_and!; try done. rewrite Hsame by lia.
        apply list_lookup_insert_eq. by eapply lookup_lt_Some.
      * destruct (Hrows k idx' Hk)
          as (e' & b' & b0' & lm0 & lm0' & ? & ? & ? & Hl & ? & ?).
        rewrite list_lookup_insert_ne in Hl by lia.
        exists e', b', b0', lm0, lm0'.
        replace (i + S k) with (S i + k) by lia. done.
Qed.

Lemma fill_no_lin hp (batch : list (example F)) idxs i st st' :
  fill f1 to_float hp batch i idxs st = Some st' →
  Params.predict_linear hp = false →
  t_lin st' = t_lin st.
Proof.
  intros H Hpl. revert i st H.
  induction idxs as [|idx idxs IH]; intros i st H; simpl in H.
  - by simplify_eq.
  - destruct (fill_step _ _ _ _ _ _ _) as [st1|] eqn:Hstep; [|done].
    simpl in H. apply fill_step_lin in Hstep. rewrite Hpl in Hstep.
    rewrite (IH _ _ H). done.
Qed.

(** The linear spectrograms that the collator returns. *)
Lemma collate_lin hp (batch : list (example F)) out :
  collate f0 f1 to_float torch_sort hp batch = Some out →
  if Params.predict_linear hp then
    ∃ lin, lin_spectrograms out = Some lin
      ∧ ∀ p idx,
          (torch_sort (utterance_length <$> batch)).2 !! p = Some idx →
          ∃ e b b0 lm,
            batch !! idx = Some e ∧ ex_b e = Some b ∧ b !! 0 = Some b0
            ∧ assign_block
                (zeros2 f0 (Params.num_fft hp / 2 + 1)
                   (max_list (frame_count <$> batch)))
                (length b0) (map (map to_float) b) = Some lm
            ∧ lin !! p = Some lm
  else lin_spectrograms out = None.
Proof.
  intros Hc.
  destruct (collate_inv _ _ _ Hc)
    as (longest & st & _ & Hfill & _ & _ & _ & Hlin & _).
  destruct (Params.predict_linear hp) eqn:Hpl.
  - eapply fill_lin in Hfill as (lin' & Hl' & _ & Hrows); [|done|].
    2:{ unfold initial_tensors. simpl. by rewrite Hpl. }
    exists lin'. split; [congruence|].
    intros p idx Hp.
    destruct (Hrows p idx Hp) as (e & b & b0 & lm & lm' & ? & ? & ? & Hz & ? & ?).
    simpl in Hz. unfold zeros3 in Hz. apply lookup_replicate in Hz as [-> _].
    by exists e, b, b0, lm'.
  - apply fill_no_lin in Hfill; [|done]. rewrite Hlin, Hfill.
    unfold initial_tensors. simpl. by rewrite Hpl.
Qed.

(** The speaker and language ids that the collator returns. *)
Lemma collate_ids hp (batch : list (example F)) out :
  collate f0 f1 to_float torch_sort hp batch = Some out →
  (if Params.multi_speaker hp then
     ∃ l, gather (ex_s <$> batch) (torch_sort (utterance_length <$> batch)).2
          = Some l
          ∧ speakers out = Some l
   else speakers out = None)
  ∧ (if Params.multi_language hp then
       ∃ l, gather (ex_l <$> batch) (torch_sort (utterance_length <$> batch)).2
            = Some l
            ∧ languages out = Some l
     else languages out = None).
Proof.
  unfold collate. intros H.
  destruct (get_lengths batch _) as [ls|] eqn:Hls; [|done]. simpl in H.
  apply get_lengths_spec in Hls as (Hsp & Hla & Hul & Hsl & Hmf). simpl in *.
  rewrite Hsp, Hla, Hul, Hsl, Hmf in H. clear Hsp Hla Hul Hsl Hmf.
  destruct (torch_sort (utterance_length <$> batch)) as [vals idxs]. simpl.
  destruct (gather (frame_count <$> batch) idxs) as [sl|]; [|done]. simpl in H.
  match type of H with
    (?l ≫= _) = _ => destruct l as [spk|] eqn:Hspk; [|done] end.
  simpl in H.
  match type of H with
    (?l ≫= _) = _ => destruct l as [lang|] eqn:Hlang; [|done] end.
  simpl in H.
  destruct (vals !! 0) as [longest|]; [|done]. simpl in H.
  match type of H with (?l ≫= _) = _ => destruct l as [st|]; [|done] end.
  simpl in H. simplify_eq. simpl. split.
  - destruct (Params.multi_speaker hp); [|by simplify_eq].
    destruct (gather (ex_s <$> batch) idxs) as [l|]; simplify_eq/=. by exists l.
  - destruct (Params.multi_language hp); [|by simplify_eq].
    destruct (gather (ex_l <$> batch) idxs) as [l|]; simplify_eq/=. by exists l.
Qed.

(** Assigning an array to the first columns of a matrix of zeros gives the
    padded array. *)
Lemma assign_rows_padded (g : F → F) (z : F) cols k (a : list (list F)) :
  Forall (λ r, length r = k) a → k ≤ cols →
  assign_rows (replicate (length a) (replicate cols z)) (map (map g) a) k
  = Some (CollateRows.padded z g cols a).
Proof.
  intros Hr Hk. induction a as [|r a IH]; [done|].
  apply Forall_cons_1 in Hr as [Hr Ha]. simpl.
  assert (Hfit := assign_prefix_fits (replicate cols z) (map g r)).
  rewrite length_map, Hr, length_replicate in Hfit. rewrite Hfit by done.
  simpl. rewrite IH by done. simpl.
  by rewrite drop_replicate, Hr.
Qed.

Lemma assign_block_padded (g : F → F) (z : F) rows cols k (a : list (list F)) :
  length a = rows → Forall (λ r, length r = k) a → k ≤ cols →
  assign_block (zeros2 z rows cols) k (map (map g) a)
  = Some (CollateRows.padded z g cols a).
Proof.
  intros Hl Hr Hk. unfold assign_block, zeros2.
  rewrite length_map, length_replicate, decide_True by done.
  subst rows. by apply assign_rows_padded.
Qed.

(** Row [p] of every returned tensor holds the example that the sort puts
    at position [p]. *)
Lemma collate_row_holds hp (batch : list (example F)) out p a ea :
  is_descending_sort (utterance_length <$> batch)
    (torch_sort (utterance_length <$> batch)) = true →
  collate f0 f1 to_float torch_sort hp batch = Some out →
  (torch_sort (utterance_length <$> batch)).2 !! p = Some a →
  batch !! a = Some ea →
  CollateRows.row_holds f0 f1 to_float hp batch out p ea.
Proof.
  intros Hsort Hc Hp Ha.
  assert (Hi : p < length batch).
  { pose proof Hsort as Hsort'.
    destruct (torch_sort (utterance_length <$> batch)) as [vals idxs].
    apply is_descending_sort_inv in Hsort' as (Hperm & _).
    rewrite length_fmap in Hperm. rewrite <-(perm_seq_length _ _ Hperm).
    by eapply lookup_lt_Some. }
  assert (Hfcle : frame_count ea ≤ max_list (frame_count <$> batch)).
  { apply max_list_elem_of_le, list_elem_of_fmap. exists ea.
    split; [done|]. by eapply list_elem_of_lookup_2. }
  destruct (collate_row hp batch out p Hsort Hc Hi)
    as (idx & e & a0 & m & Hidx & He & Ha0 & Hle & Hu & _ & _ & Hs & Hsul & Hsl).
  assert (idx = a) as -> by congruence.
  assert (e = ea) as -> by congruence.
  assert (Hfc : frame_count ea = length a0).
  { unfold frame_count. by rewrite Ha0. }
  destruct (collate_inv _ _ _ Hc)
    as (longest & st & _ & Hfill & _ & _ & Hm & _).
  apply fill_spec in Hfill as (_ & _ & Hrows).
  destruct (Hrows p a Hp) as (e' & He' & Hrow). simpl in Hrow.
  assert (e' = ea) as -> by congruence.
  destruct Hrow as (urow & urow' & a0' & m0 & m' & srow
                    & _ & _ & _ & Ha0' & Hm0 & Hm1 & Hm2 & _).
  assert (a0' = a0) as -> by congruence.
  simpl in Hm0. unfold zeros3 in Hm0. apply lookup_replicate in Hm0 as [-> _].
  destruct (collate_ids _ _ _ Hc) as [Hspk Hlang].
  pose proof (collate_lin _ _ _ Hc) as Hlin.
  unfold CollateRows.row_holds. rewrite Hfc. split_and!; try done.
  - exists m'. split; [congruence|]. split; [done|].
    intros (a1 & Ha1 & Hla & Hra & _)%well_formed_example_inv.
    assert (a1 = a0) as -> by congruence.
    rewrite (assign_block_padded to_float f0 _ _ (length a0)) in Hm1;
      [congruence|done|done|lia].
  - destruct (Params.predict_linear hp) eqn:Hpl; [|done].
    destruct Hlin as (lin & Hl & Hrowsl).
    destruct (Hrowsl p a Hp) as (e' & b & b0 & lm & He'' & Hb & Hb0 & Hab & Hlm).
    assert (e' = ea) as -> by congruence.
    exists b, lin, lm. rewrite Hb0. simpl. split_and!; try done.
    intros (a1 & Ha1 & _ & _ & Hwl)%well_formed_example_inv.
    assert (a1 = a0) as -> by congruence.
    destruct (Hwl Hpl) as (b' & b0' & Hb' & Hb0' & Hlb & Hrb & Hba).
    assert (b' = b) as -> by congruence.
    assert (b0' = b0) as -> by congruence.
    rewrite (assign_block_padded to_float f0 _ _ (length b0)) in Hab;
      [congruence|done|done|lia].
  - by rewrite <-Hfc.
  - destruct (Params.multi_speaker hp); [|done].
    destruct Hspk as (l & Hg & Hl). exists l. split; [done|].
    destruct (gather_lookup _ _ _ _ _ Hg Hp) as (v & Hv & Hv').
    rewrite list_lookup_fmap, Ha in Hv. simpl in Hv. congruence.
  - destruct (Params.multi_language hp); [|done].
    destruct Hlang as (l & Hg & Hl). exists l. split; [done|].
    destruct (gather_lookup _ _ _ _ _ Hg Hp) as (v & Hv & Hv').
    rewrite list_lookup_fmap, Ha in Hv. simpl in Hv. congruence.
Qed.

(** C6, amended.  When the sort that [torch.sort] performs is stable, two
    examples of the same utterance length are in the rows in the order of
    the batch, in every returned tensor: the earlier example is in a row
    [p] and the later one in a row [q] with [p < q], and the rows [p] and
    [q] of the two length vectors, of the symbol tensor, of the mel and
    linear spectrograms, of the stop targets and of the speaker and
    language ids hold the data of these two examples. *)
Theorem stable_sort_keeps_ties hp (batch : list (example F)) out :
  is_descending_sort (utterance_length <$> batch)
    (torch_sort (utterance_length <$> batch)) = true →
  is_stable (utterance_length <$> batch)
    (torch_sort (utterance_length <$> batch)).2 = true →
  collate f0 f1 to_float torch_sort hp batch = Some out →
  ties_keep_order batch (torch_sort (utterance_length <$> batch)).2
  ∧ (∀ p a ea,
       (torch_sort (utterance_length <$> batch)).2 !! p = Some a →
       batch !! a = Some ea →
       ∃ row, utterances out !! p = Some row
              ∧ take (utterance_length ea) row = ex_u ea)
  ∧ (∀ a b ea eb,
       a < b → batch !! a = Some ea → batch !! b = Some eb →
       utterance_length ea = utterance_length eb →
       ∃ p q,
         p < q
         ∧ (torch_sort (utterance_length <$> batch)).2 !! p = Some a
         ∧ (torch_sort (utterance_length <$> batch)).2 !! q = Some b
         ∧ CollateRows.row_holds f0 f1 to_float hp batch out p ea
         ∧ CollateRows.row_holds f0 f1 to_float hp batch out q eb).
Proof.
  intros Hsort Hst Hc.
  assert (Hties : ties_keep_order batch
                    (torch_sort (utterance_length <$> batch)).2).
  { destruct (torch_sort (utterance_length <$> batch)) as [vals idxs].
    apply is_descending_sort_inv in Hsort as (Hp & _). simpl in *.
    rewrite length_fmap in Hp.
    apply bool_decide_eq_true in Hst.
    intros a b ea eb Hab Ha Hb Hlen.
    destruct (perm_seq_position idxs _ a Hp) as [p Hpa].
    { by eapply lookup_lt_Some. }
    destruct (perm_seq_position idxs _ b Hp) as [q Hqb].
    { by eapply lookup_lt_Some. }
    exists p, q. split_and!; try done.
    destruct (decide (p = q)) as [->|]; [simplify_eq; lia|].
    destruct (decide (p < q)); [done|].
    eapply (StronglySorted_lookup _ _ q p) in Hst; [|lia|done..].
    rewrite !list_lookup_fmap, Ha, Hb in Hst. simpl in Hst.
    specialize (Hst (f_equal Some (eq_sym Hlen))). lia. }
  split; [done|]. split.
  - intros p a ea Hp Ha.
    assert (Hi : p < length batch).
    { pose proof Hsort as Hsort'.
      destruct (torch_sort (utterance_length <$> batch)) as [vals idxs].
      apply is_descending_sort_inv in Hsort' as (Hperm & _).
      rewrite length_fmap in Hperm. rewrite <-(perm_seq_length _ _ Hperm).
      by eapply lookup_lt_Some. }
    destruct (collate_row hp batch out p Hsort Hc Hi)
      as (idx' & e' & a0 & m & Hidx' & He' & _ & _ & Hu & _).
    simplify_eq. eexists. split; [done|].
    unfold utterance_length. by rewrite take_app_length.
  - intros a b ea eb Hab Ha Hb Hlen.
    destruct (Hties a b ea eb Hab Ha Hb Hlen) as (p & q & Hp & Hq & Hpq).
    exists p, q. split_and!; try done.
    + by eapply collate_row_holds.
    + by eapply collate_row_holds.
Qed.

(** Whenever [torch.sort] returns a descending sort, the collator reorders
    all that it returns by the same permutation: every row below the batch
    size holds, in each returned tensor, the data of the example that the
    sort puts at that position (lengths, symbols and zeros, padded mel and
    linear spectrograms, stop targets, speaker and language ids), and every
    example of the batch is held by some row. *)
Theorem collated_rows_hold_their_examples hp (batch : list (example F)) out :
  is_descending_sort (utterance_length <$> batch)
    (torch_sort (utterance_length <$> batch)) = true →
  collate f0 f1 to_float torch_sort hp batch = Some out →
  (∀ p, p < length batch →
     ∃ e, row_example (torch_sort (utterance_length <$> batch)).2 batch p
          = Some e
          ∧ CollateRows.row_holds f0 f1 to_float hp batch out p e)
  ∧ (∀ a ea, batch !! a = Some ea →
       ∃ p, p < length batch
            ∧ (torch_sort (utterance_length <$> batch)).2 !! p = Some a
            ∧ CollateRows.row_holds f0 f1 to_float hp batch out p ea).
Proof.
  intros Hsort Hc.
  assert (Hperm : (torch_sort (utterance_length <$> batch)).2
                  ≡ₚ seq 0 (length batch)).
  { destruct (torch_sort (utterance_length <$> batch)) as [vals idxs].
    apply is_descending_sort_inv in Hsort as (Hp & _).
    by rewrite length_fmap in Hp. }
  split.
  - intros p Hp.
    destruct (lookup_lt_is_Some_2
                (torch_sort (utterance_length <$> batch)).2 p) as [a Ha].
    { by rewrite (perm_seq_length _ _ Hperm). }
    destruct (lookup_lt_is_Some_2 batch a) as [ea Hea].
    { by eapply perm_seq_lookup. }
    exists ea. split.
    + unfold row_example. by rewrite Ha.
    + by eapply collate_row_holds.
  - intros a ea Hea.
    destruct (perm_seq_position _ _ a Hperm) as [p Hp].
    { by eapply lookup_lt_Some. }
    exists p. split_and!; [|done|by eapply collate_row_holds].
    rewrite <-(perm_seq_length _ _ Hperm). by eapply lookup_lt_Some.
Qed.

End CollateFacts.

(** *** Concrete batches *)

(** The scenario of the specification: symbol lengths 5 and 9 with frame
    counts 20 and 12. *)
Example collate_5_9 :
  ∃ out,
    Collate.collate 0%Z 1%Z id Collate.stable_sort Collate.hp_small
      Collate.batch_5_9 = Some out
    ∧ Collate.sorted_utterance_lengths out = [9; 5]
    ∧ Collate.utterances out =
        [[21; 22; 23; 24; 25; 26; 27; 28; 29]; [11; 12; 13; 14; 15; 0; 0; 0; 0]]%Z
    ∧ Collate.spectrogram_lengths out = [12; 20]
    ∧ Collate.stop_tokens out =
        [replicate 11 0%Z ++ replicate 9 1%Z; replicate 19 0%Z ++ [1%Z]]
    ∧ Collate.speakers out = Some [1; 0]
    ∧ Collate.languages out = None.
Proof. eexists. split; [vm_compute; reflexivity|]. by vm_compute. Qed.

(** An empty batch raises on [sorted_utterance_lengths[0]]. *)
Example collate_empty_batch :
  Collate.collate 0%Z 1%Z id Collate.stable_sort Collate.hp_small [] = None.
Proof. reflexivity. Qed.

Lemma collate_symbols_sorted_and_padded_witness :
  ∃ out,
    Collate.collate 0%Z 1%Z id Collate.stable_sort Collate.hp_small
      Collate.batch_5_9 = Some out
    ∧ Collate.has_shape2 (Collate.utterances out) 2 9
    ∧ Collate.has_shape3 (Collate.mel_spectrograms out) 2 2 20.
Proof.
  destruct (collate_symbols_sorted_and_padded 0%Z 1%Z id Collate.stable_sort
              Collate.hp_small Collate.batch_5_9) as [Htot Hprops].
  { vm_compute. reflexivity. }
  destruct Htot as [out Hout].
  { vm_compute. reflexivity. }
  exists out. split; [exact Hout|].
  destruct (Hprops out Hout) as (H1 & H2 & _).
  split; [exact H1 | exact H2].
Defined.

Lemma stop_tokens_mark_last_frame_witness :
  ∃ out row,
    Collate.collate 0%Z 1%Z id Collate.stable_sort Collate.hp_small
      Collate.batch_5_9 = Some out
    ∧ Collate.stop_tokens out !! 0 = Some row
    ∧ Collate.stop_row_as_specified 0%Z 1%Z 12 row.
Proof.
  destruct (Collate.collate 0%Z 1%Z id Collate.stable_sort Collate.hp_small
              Collate.batch_5_9) as [out|] eqn:Hout;
    [|vm_compute in Hout; discriminate Hout].
  destruct (stop_tokens_mark_last_frame 0%Z 1%Z id Collate.stable_sort
              Collate.hp_small Collate.batch_5_9 out) as [Hrows _].
  { vm_compute. reflexivity. }
  { exact Hout. }
  destruct (Hrows 0 Collate.ex_nine) as (row & H1 & _ & _ & H4).
  { vm_compute. reflexivity. }
  { vm_compute. lia. }
  exists out, row. split; [reflexivity|]. split; [exact H1 | exact H4].
Defined.

(** C4 as stated fails on a spectrogram without frames: the slice
    [stop_tokens[i, -1:]] is the last position only. *)
Lemma stop_row_of_empty_spectrogram :
  ∃ out row,
    Collate.collate 0%Z 1%Z id Collate.stable_sort Collate.hp_small
      Collate.batch_no_frame = Some out
    ∧ Collate.row_example
        (Collate.stable_sort
           (Collate.utterance_length <$> Collate.batch_no_frame)).2
        Collate.batch_no_frame 0 = Some Collate.ex_no_frame
    ∧ Collate.stop_tokens out !! 0 = Some row
    ∧ row = [0; 0; 1]%Z
    ∧ ¬ Collate.stop_row_as_specified 0%Z 1%Z
          (Collate.frame_count Collate.ex_no_frame) row.
Proof.
  eexists. exists [0; 0; 1]%Z.
  split; [vm_compute; reflexivity|]. split; [vm_compute; reflexivity|].
  split; [vm_compute; reflexivity|]. split; [reflexivity|].
  intros H. specialize (H 0 0%Z eq_refl). vm_compute in H. discriminate H.
Qed.

Lemma stable_sort_keeps_ties_witness :
  ∃ out p q,
    Collate.collate 0%Z 1%Z id Collate.stable_sort Collate.hp_small
      Collate.batch_tie = Some out
    ∧ Collate.ties_keep_order Collate.batch_tie
        (Collate.stable_sort
           (Collate.utterance_length <$> Collate.batch_tie)).2
    ∧ p < q
    ∧ CollateRows.row_holds 0%Z 1%Z id Collate.hp_small Collate.batch_tie
        out p Collate.ex_tie_first
    ∧ CollateRows.row_holds 0%Z 1%Z id Collate.hp_small Collate.batch_tie
        out q Collate.ex_tie_second.
Proof.
  destruct (Collate.collate 0%Z 1%Z id Collate.stable_sort Collate.hp_small
              Collate.batch_tie) as [out|] eqn:Hout;
    [|vm_compute in Hout; discriminate Hout].
  destruct (stable_sort_keeps_ties 0%Z 1%Z id Collate.stable_sort
              Collate.hp_small Collate.batch_tie out) as (Hties & _ & Hrows).
  { vm_compute. reflexivity. }
  { vm_compute. reflexivity. }
  { exact Hout. }
  destruct (Hrows 0 1 Collate.ex_tie_first Collate.ex_tie_second)
    as (p & q & Hpq & _ & _ & Hp & Hq); [lia|reflexivity..|].
  exists out, p, q. split; [reflexivity|].
  split; [exact Hties|]. split; [exact Hpq|]. split; [exact Hp | exact Hq].
Defined.

(** C6 as stated fails on a batch of seventeen examples of the same length.
    The sort of the library keeps the promise of a descending sort, and
    keeps ties in order up to sixteen elements, as on the batch of two
    above; on seventeen equal lengths its partition exchanges them, so that
    the rows of the symbol tensor are not in the order of the batch, an
    earlier example being in a later row than a later one. *)
Lemma std_sort_reorders_seventeen_ties :
  Collate.is_descending_sort
    (Collate.utterance_length <$> StdSort.batch_seventeen)
    (StdSort.torch_sort
       (Collate.utterance_length <$> StdSort.batch_seventeen)) = true
  ∧ (StdSort.torch_sort (Collate.utterance_length <$> Collate.batch_tie)).2
    = [0; 1]
  ∧ (∃ out,
       Collate.collate 0%Z 1%Z id StdSort.torch_sort Collate.hp_small
         StdSort.batch_seventeen = Some out
       ∧ Collate.utterances out
         ≠ Collate.ex_u <$> StdSort.batch_seventeen)
  ∧ ¬ Collate.ties_keep_order StdSort.batch_seventeen
        (StdSort.torch_sort
           (Collate.utterance_length <$> StdSort.batch_seventeen)).2.
Proof.
  split; [vm_compute; reflexivity|]. split; [vm_compute; reflexivity|]. split.
  - eexists. split; [vm_compute; reflexivity|]. vm_compute. discriminate.
  - intros H.
    assert (Hidx : (StdSort.torch_sort
                      (Collate.utterance_length <$> StdSort.batch_seventeen)).2
                   = [8; 16; 15; 14; 13; 12; 11; 10; 9; 0; 7; 6; 5; 4; 3; 2; 1]).
    { vm_compute. reflexivity. }
    rewrite Hidx in H. clear Hidx.
    destruct (H 0 8 (Collate.Example 0 0 [0%Z] [[0%Z]; [0%Z]] None)
                (Collate.Example 8 0 [8%Z] [[8%Z]; [8%Z]] None))
      as (p & q & Hp & Hq & Hpq); [lia|reflexivity..|].
    destruct q as [|q]; [lia|].
    do 16 (destruct q as [|q]; [by simplify_eq/=|]).
    by simplify_eq/=.
Qed.

Lemma collated_rows_hold_their_examples_witness :
  ∃ out,
    Collate.collate 0%Z 1%Z id Collate.stable_sort Collate.hp_small
      Collate.batch_5_9 = Some out
    ∧ CollateRows.row_holds 0%Z 1%Z id Collate.hp_small Collate.batch_5_9
        out 0 Collate.ex_nine
    ∧ CollateRows.row_holds 0%Z 1%Z id Collate.hp_small Collate.batch_5_9
        out 1 Collate.ex_five.
Proof.
  destruct (Collate.collate 0%Z 1%Z id Collate.stable_sort Collate.hp_small
              Collate.batch_5_9) as [out|] eqn:Hout;
    [|vm_compute in Hout; discriminate Hout].
  destruct (collated_rows_hold_their_examples 0%Z 1%Z id Collate.stable_sort
              Collate.hp_small Collate.batch_5_9 out) as (Hrows & _).
  { vm_compute. reflexivity. }
  { exact Hout. }
  exists out. split; [reflexivity|]. split.
  - destruct (Hrows 0) as (e & He & Hrow); [simpl; lia|].
    assert (Heq : Some e = Some Collate.ex_nine).
    { rewrite <-He. vm_compute. reflexivity. }
    injection Heq as ->. exact Hrow.
  - destruct (Hrows 1) as (e & He & Hrow); [simpl; lia|].
    assert (Heq : Some e = Some Collate.ex_five).
    { rewrite <-He. vm_compute. reflexivity. }
    injection Heq as ->. exact Hrow.
Defined.

(** ** The dataset index *)

Section SplitFacts.

Import Dataset.

Lemma split_nonempty sep s : split sep s ≠ [].
Proof.
  destruct s as [|c s]; simpl; [done|].
  case_decide; [done|]. by destruct (split sep s).
Qed.

Lemma split_length_cons sep c s :
  length (split sep (String c s))
  = (if decide (c = sep) then 1 else 0) + length (split sep s).
Proof.
  simpl. case_decide; [done|].
  pose proof (split_nonempty sep s). by destruct (split sep s).
Qed.

(** Dropping the last character of a line removes at most one field and
    adds none. *)
Lemma strip_last_fields sep s :
  length (split sep (strip_last s)) ≤ length (split sep s)
  ∧ length (split sep s) ≤ S (length (split sep (strip_last s))).
Proof.
  induction s as [|c s IH]; [simpl; lia|].
  destruct s as [|c' s].
  - rewrite split_length_cons. simpl. case_decide; lia.
  - change (strip_last (String c (String c' s)))
      with (String c (strip_last (String c' s))).
    rewrite !(split_length_cons sep c). lia.
Qed.

Lemma read_line_short line :
  length (tokens line) < 8 → read_line line = Raise IndexError.
Proof.
  unfold read_line, tokens. intros H.
  destruct (split pipe (strip_last line)) as [|t0 [|t1 [|t2 [|t3 [|t4 [|t5
    [|t6 [|t7 extra]]]]]]]]; simpl in *; try done. lia.
Qed.

Lemma read_line_long line :
  8 ≤ length (tokens line) →
  read_line line = Ok (item_of_tokens (tokens line)).
Proof.
  unfold read_line, tokens. intros H.
  destruct (split pipe (strip_last line)) as [|t0 [|t1 [|t2 [|t3 [|t4 [|t5
    [|t6 [|t7 extra]]]]]]]]; simpl in *; try lia. done.
Qed.

Lemma read_line_cases line :
  read_line line = Raise IndexError
  ∨ read_line line = Ok (item_of_tokens (tokens line)).
Proof.
  destruct (decide (length (tokens line) < 8)).
  - left. by apply read_line_short.
  - right. apply read_line_long. lia.
Qed.

(** A line that is too short makes the reading loop raise, whatever the
    accepted languages. *)
Lemma read_lines_short hp lines us items line :
  line ∈ lines → length (tokens line) < 8 →
  read_lines hp lines us items = Raise IndexError.
Proof.
  intros Hin Hshort. revert us items.
  induction lines as [|l lines IH]; intros us items; [by inversion Hin|].
  simpl. destruct (decide (l = line)) as [->|Hne].
  - by rewrite read_line_short.
  - destruct (read_line_cases l) as [->| ->]; [done|]. simpl.
    assert (line ∈ lines) by (inversion Hin; by subst).
    case_bool_decide; by apply IH.
Qed.

Lemma read_lines_long hp lines us items :
  Forall (λ line, 8 ≤ length (tokens line)) lines →
  read_lines hp lines us items
  = Ok (us ++ (r_speaker <$> accepted_items hp lines),
        items ++ accepted_items hp lines).
Proof.
  intros H. revert us items.
  induction H as [|l lines Hl _ IH]; intros us items.
  - simpl. by rewrite !app_nil_r.
  - simpl. rewrite read_line_long by done. simpl.
    unfold accepted_items. rewrite fmap_cons. simpl.
    rewrite filter_cons. case_bool_decide.
    + rewrite decide_True by done. rewrite IH, fmap_cons, <-!app_assoc. done.
    + rewrite decide_False by done. by rewrite IH.
Qed.

End SplitFacts.

Section DatasetFacts.

Import Dataset.

Variables (remove_punctuation to_lower remove_odd_whitespaces : string → string).
Variable to_sequence : string → bool → list Z.

Lemma list_index_Some x l i :
  list_index x l = Some i → l !! i = Some x.
Proof.
  revert i. induction l as [|y l IH]; intros i H; simpl in *; [done|].
  case_decide; simplify_eq/=; [done|].
  destruct (list_index x l) as [k|]; simplify_eq/=. by apply IH.
Qed.

Lemma list_index_elem_of x l : x ∈ l → is_Some (list_index x l).
Proof.
  induction 1 as [x l|x y l _ IH]; simpl.
  - rewrite decide_True by done. by eexists.
  - case_decide; [by eexists|]. destruct IH as [k ->]. by eexists.
Qed.

Lemma is_set_listing_inv adds out :
  is_set_listing adds out = true →
  NoDup out ∧ ∀ x, x ∈ out ↔ x ∈ adds.
Proof.
  unfold is_set_listing. rewrite !andb_true_iff, !bool_decide_eq_true.
  intros [[Hnd H1] H2]. split; [done|]. intros x. split; [apply H1|apply H2].
Qed.

Lemma clean_fields hp it :
  r_id (clean remove_punctuation to_lower remove_odd_whitespaces hp it) = r_id it
  ∧ r_speaker (clean remove_punctuation to_lower remove_odd_whitespaces hp it)
    = r_speaker it
  ∧ r_language (clean remove_punctuation to_lower remove_odd_whitespaces hp it)
    = r_language it.
Proof.
  unfold clean.
  by destruct (Params.use_punctuation hp), (Params.case_sensitive hp),
    (Params.remove_multiple_wspaces hp).
Qed.

(** The conversion loop, when every speaker is in the list and every
    language is accepted. *)
Lemma convert_all_spec hp unique_speakers raws :
  Forall (λ raw, r_speaker raw ∈ unique_speakers
                 ∧ r_language raw ∈ Params.languages hp) raws →
  ∃ items,
    convert_all to_sequence hp unique_speakers
      (clean remove_punctuation to_lower remove_odd_whitespaces hp <$> raws)
    = Ok items
    ∧ Forall2 (λ raw it,
         id it = r_id raw
         ∧ list_index (r_speaker raw) unique_speakers = Some (speaker it)
         ∧ list_index (r_language raw) (Params.languages hp)
           = Some (language it)) raws items.
Proof.
  induction 1 as [|raw raws [Hs Hl] _ (items & IH & HF)].
  - exists []. split; [done|constructor].
  - rewrite fmap_cons. simpl. unfold convert at 1.
    destruct (clean_fields hp raw) as (Hid & -> & ->).
    destruct (list_index_elem_of _ _ Hs) as [i Hi].
    destruct (list_index_elem_of _ _ Hl) as [j Hj].
    rewrite Hi, Hj. simpl. rewrite IH. simpl.
    eexists. split; [done|]. constructor; [|done]. simpl. by rewrite Hid.
Qed.

Lemma item_of_tokens_take toks :
  item_of_tokens (take 8 toks) = item_of_tokens toks.
Proof.
  by destruct toks as [|t0 [|t1 [|t2 [|t3 [|t4 [|t5 [|t6 [|t7 extra]]]]]]]].
Qed.

Lemma clean_paths hp it :
  r_audio (clean remove_punctuation to_lower remove_odd_whitespaces hp it)
  = r_audio it
  ∧ r_spectrogram (clean remove_punctuation to_lower remove_odd_whitespaces hp it)
    = r_spectrogram it
  ∧ r_linear_spectrogram
      (clean remove_punctuation to_lower remove_odd_whitespaces hp it)
    = r_linear_spectrogram it.
Proof.
  unfold clean.
  by destruct (Params.use_punctuation hp), (Params.case_sensitive hp),
    (Params.remove_multiple_wspaces hp).
Qed.

(** The conversion loop makes one item of every record. *)
Lemma convert_all_records hp unique_speakers raws :
  Forall (λ raw, r_speaker raw ∈ unique_speakers
                 ∧ r_language raw ∈ Params.languages hp) raws →
  ∃ items,
    convert_all to_sequence hp unique_speakers
      (clean remove_punctuation to_lower remove_odd_whitespaces hp <$> raws)
    = Ok items
    ∧ Forall2 (DatasetRecords.item_of_record remove_punctuation to_lower
                 remove_odd_whitespaces to_sequence hp unique_speakers)
        raws items.
Proof.
  induction 1 as [|raw raws [Hs Hl] _ (items & IH & HF)].
  - exists []. split; [done|constructor].
  - rewrite fmap_cons. simpl. unfold convert at 1.
    destruct (clean_fields hp raw) as (Hid & Hsp & Hla).
    destruct (clean_paths hp raw) as (Hau & Hsg & Hli).
    rewrite Hsp, Hla.
    destruct (list_index_elem_of _ _ Hs) as [i Hi].
    destruct (list_index_elem_of _ _ Hl) as [j Hj].
    rewrite Hi, Hj. simpl. rewrite IH. simpl.
    eexists. split; [done|]. constructor; [|done].
    unfold DatasetRecords.item_of_record. simpl.
    by rewrite Hid, Hau, Hsg, Hli.
Qed.

Lemma take_8_tokens_length line line' :
  8 ≤ length (tokens line) →
  take 8 (tokens line') = take 8 (tokens line) →
  8 ≤ length (tokens line').
Proof.
  intros H Heq. apply (f_equal length) in Heq.
  rewrite !length_take in Heq. lia.
Qed.

(** Two files whose lines agree on their first eight tokens are read into
    the same records. *)
Lemma accepted_items_first_eight hp meta_file meta_file' :
  Forall2 (λ line line', take 8 (tokens line') = take 8 (tokens line))
    meta_file meta_file' →
  accepted_items hp meta_file' = accepted_items hp meta_file.
Proof.
  intros H. unfold accepted_items. f_equal.
  induction H as [|line line' meta_file meta_file' Heq _ IH]; [done|].
  rewrite !fmap_cons, IH. f_equal. simpl.
  by rewrite <-(item_of_tokens_take (tokens line')), Heq, item_of_tokens_take.
Qed.

(** C8.  A line with fewer than eight fields makes [__init__] raise
    [IndexError], whatever its language and the accepted languages.  A line
    with more than eight fields is read as the record of its first eight
    tokens.  When no line is too short, [__init__] returns (the set of the
    speakers being listed with every speaker once) and [self.items] holds
    one item for every line of an accepted language, in the order of the
    file: the item of a line with more than eight fields is the one made
    of its first eight tokens, and no line is dropped for its number of
    fields.  The tokens after the eighth have no effect at all: two files
    whose lines agree on their first eight tokens give the same result. *)
Theorem short_lines_raise_long_lines_are_cut
    (list_of_set : list string → list string) hp meta_file :
  (∀ line, line ∈ meta_file → field_count line < 8 →
     init remove_punctuation to_lower remove_odd_whitespaces to_sequence
       list_of_set hp meta_file = Raise IndexError)
  ∧ (∀ line, 8 < field_count line →
       8 ≤ length (tokens line)
       ∧ read_line line = Ok (item_of_tokens (take 8 (tokens line))))
  ∧ (Forall (λ line, 8 ≤ length (tokens line)) meta_file →
       read_lines hp meta_file [] []
       = Ok (r_speaker <$> accepted_items hp meta_file,
             accepted_items hp meta_file))
  ∧ (Forall (λ line, 8 ≤ length (tokens line)) meta_file →
     is_set_listing (r_speaker <$> accepted_items hp meta_file)
       (list_of_set (r_speaker <$> accepted_items hp meta_file)) = true →
     ∃ items,
       init remove_punctuation to_lower remove_odd_whitespaces to_sequence
         list_of_set hp meta_file = Ok items
       ∧ Forall2 (DatasetRecords.item_of_record remove_punctuation to_lower
                    remove_odd_whitespaces to_sequence hp
                    (list_of_set (r_speaker <$> accepted_items hp meta_file)))
           (accepted_items hp meta_file) items
       ∧ ∀ line, line ∈ meta_file → 8 < field_count line →
           r_language (item_of_tokens (take 8 (tokens line)))
             ∈ Params.languages hp →
           ∃ it, it ∈ items
                 ∧ DatasetRecords.item_of_record remove_punctuation to_lower
                     remove_odd_whitespaces to_sequence hp
                     (list_of_set (r_speaker <$> accepted_items hp meta_file))
                     (item_of_tokens (take 8 (tokens line))) it)
  ∧ (∀ meta_file',
       Forall2 (λ line line',
                  8 ≤ length (tokens line)
                  ∧ take 8 (tokens line') = take 8 (tokens line))
         meta_file meta_file' →
       init remove_punctuation to_lower remove_odd_whitespaces to_sequence
         list_of_set hp meta_file'
       = init remove_punctuation to_lower remove_odd_whitespaces to_sequence
           list_of_set hp meta_file).
Proof.
  split_and!.
  - intros line Hin Hshort. unfold init.
    rewrite (read_lines_short hp meta_file [] [] line); [done..|].
    unfold tokens, field_count in *.
    pose proof (strip_last_fields pipe line). lia.
  - intros line Hlong. unfold tokens, field_count in *.
    pose proof (strip_last_fields pipe line).
    split; [lia|]. rewrite item_of_tokens_take.
    apply read_line_long. unfold tokens. lia.
  - intros H. by rewrite read_lines_long.
  - intros Hlong (Hnd & Hin)%is_set_listing_inv.
    unfold init. rewrite read_lines_long by done. simpl.
    destruct (convert_all_records hp
                (list_of_set (r_speaker <$> accepted_items hp meta_file))
                (accepted_items hp meta_file)) as (items & Hc & HF).
    { apply Forall_forall. intros raw Hraw. split.
      - apply Hin, list_elem_of_fmap. by exists raw.
      - unfold accepted_items in Hraw.
        by apply list_elem_of_filter in Hraw as [? _]. }
    exists items. split; [done|]. split; [done|].
    intros line Hline _ Hlang.
    change (r_language (item_of_tokens (take 8 (tokens line)))
              ∈ Params.languages hp) in Hlang.
    rewrite item_of_tokens_take in Hlang |- *.
    assert (Hacc : item_of_tokens (tokens line) ∈ accepted_items hp meta_file).
    { unfold accepted_items. apply list_elem_of_filter. split; [done|].
      apply list_elem_of_fmap. by exists line. }
    apply list_elem_of_lookup_1 in Hacc as [k Hk].
    destruct (Forall2_lookup_l _ _ _ _ _ HF Hk) as (it & Hit & Hrec).
    exists it. split; [by eapply list_elem_of_lookup_2|done].
  - intros meta_file' H. unfold init.
    assert (Hl : Forall (λ line, 8 ≤ length (tokens line)) meta_file).
    { clear -H. induction H as [|???? [? _]]; by constructor. }
    assert (Hl' : Forall (λ line, 8 ≤ length (tokens line)) meta_file').
    { clear -H. induction H as [|???? [? ?]]; constructor; [|done].
      by eapply take_8_tokens_length. }
    rewrite !read_lines_long by done. simpl.
    rewrite (accepted_items_first_eight hp meta_file meta_file'); [done|].
    eapply Forall2_impl; [done|]. by intros ?? [_ ?].
Qed.

(** C5, amended.  When no line is too short and [list(unique_speakers)]
    lists every speaker of the accepted records once, [__init__] returns one
    item per accepted record, in the order of the file; the speaker id of an
    item is the position of its speaker in that list, so that ids are below
    the number of speakers and two items have the same id exactly when they
    have the same speaker; the language id is the position in
    [hp.languages]; and two constructions for which the set is listed in
    the same order give the same items. *)
Theorem speaker_ids_follow_set_listing
    (list_of_set : list string → list string) hp meta_file :
  Forall (λ line, 8 ≤ length (tokens line)) meta_file →
  is_set_listing (r_speaker <$> accepted_items hp meta_file)
    (list_of_set (r_speaker <$> accepted_items hp meta_file)) = true →
  (∃ items,
     init remove_punctuation to_lower remove_odd_whitespaces to_sequence
       list_of_set hp meta_file = Ok items
     ∧ Forall2 (λ raw it,
          id it = r_id raw
          ∧ list_of_set (r_speaker <$> accepted_items hp meta_file)
              !! speaker it = Some (r_speaker raw)
          ∧ Params.languages hp !! language it = Some (r_language raw))
         (accepted_items hp meta_file) items
     ∧ (∀ i j ri rj ii ij,
          accepted_items hp meta_file !! i = Some ri →
          accepted_items hp meta_file !! j = Some rj →
          items !! i = Some ii → items !! j = Some ij →
          (speaker ii = speaker ij ↔ r_speaker ri = r_speaker rj)))
  ∧ (∀ list_of_set' : list string → list string,
       list_of_set' (r_speaker <$> accepted_items hp meta_file)
       = list_of_set (r_speaker <$> accepted_items hp meta_file) →
       init remove_punctuation to_lower remove_odd_whitespaces to_sequence
         list_of_set' hp meta_file
       = init remove_punctuation to_lower remove_odd_whitespaces to_sequence
           list_of_set hp meta_file).
Proof.
  intros Hlong (Hnd & Hin)%is_set_listing_inv. split.
  - unfold init. rewrite read_lines_long by done. simpl.
    destruct (convert_all_spec hp
                (list_of_set (r_speaker <$> accepted_items hp meta_file))
                (accepted_items hp meta_file)) as (items & Hc & HF).
    { apply Forall_forall. intros raw Hraw. split.
      - apply Hin, list_elem_of_fmap. by exists raw.
      - unfold accepted_items in Hraw. by apply list_elem_of_filter in Hraw as [? _]. }
    exists items. split; [done|]. split.
    + eapply Forall2_impl; [done|]. simpl.
      intros raw it (? & ? & ?). eauto using list_index_Some.
    + intros i j ri rj ii ij Hri Hrj Hii Hij.
      destruct (Forall2_lookup_lr _ _ _ _ _ _ HF Hri Hii) as (_ & Hsi & _).
      destruct (Forall2_lookup_lr _ _ _ _ _ _ HF Hrj Hij) as (_ & Hsj & _).
      split.
      * intros Heq. apply list_index_Some in Hsi, Hsj.
        rewrite Heq in Hsi. congruence.
      * intros Heq. rewrite Heq in Hsi. congruence.
  - intros list_of_set' Heq. unfold init.
    rewrite read_lines_long by done. simpl. by rewrite Heq.
Qed.

End DatasetFacts.

(** *** Concrete meta-files *)

(** The two listings keep the promise on the speakers bob and alice, but
    number them differently. *)
Example init_bob_alice_first_seen :
  Dataset.speaker <$>
    default [] (match Dataset.init id id id Dataset.char_codes
                        Dataset.listing_first_seen Params.default
                        Dataset.meta_bob_alice with
                | Dataset.Ok items => Some items
                | Dataset.Raise _ => None
                end) = [0; 1].
Proof. vm_compute. reflexivity. Qed.

Lemma short_lines_raise_long_lines_are_cut_witness :
  Dataset.init id id id Dataset.char_codes Dataset.listing_first_seen
    Params.default [Dataset.line_long; Dataset.line_short]
  = Dataset.Raise Dataset.IndexError
  ∧ Dataset.read_line Dataset.line_long
    = Dataset.Ok
        (Dataset.RawItem "1" "alice" "en-us" "a1.wav" "m1.npy" "l1.npy"
           "world" "w")
  ∧ ∃ items,
      Dataset.init id id id Dataset.char_codes Dataset.listing_first_seen
        Params.default [Dataset.line_long] = Dataset.Ok items
      ∧ Forall2
          (DatasetRecords.item_of_record id id id Dataset.char_codes
             Params.default
             (Dataset.listing_first_seen
                (Dataset.r_speaker <$>
                   Dataset.accepted_items Params.default [Dataset.line_long])))
          (Dataset.accepted_items Params.default [Dataset.line_long]) items.
Proof.
  destruct (short_lines_raise_long_lines_are_cut id id id Dataset.char_codes
              Dataset.listing_first_seen Params.default
              [Dataset.line_long; Dataset.line_short]) as (H1 & H2 & _).
  destruct (short_lines_raise_long_lines_are_cut id id id Dataset.char_codes
              Dataset.listing_first_seen Params.default
              [Dataset.line_long]) as (_ & _ & _ & H4 & _).
  split_and!.
  - apply (H1 Dataset.line_short).
    + apply list_elem_of_further, list_elem_of_here.
    + vm_compute. lia.
  - destruct (H2 Dataset.line_long) as [_ H].
    + vm_compute. lia.
    + exact H.
  - destruct H4 as (items & Hinit & HF & _).
    + constructor; [vm_compute; lia|constructor].
    + vm_compute. reflexivity.
    + exists items. split; [exact Hinit | exact HF].
Defined.

Lemma speaker_ids_follow_set_listing_witness :
  ∃ items,
    Dataset.init id id id Dataset.char_codes Dataset.listing_reversed
      Params.default Dataset.meta_bob_alice = Dataset.Ok items
    ∧ Forall2 (λ raw it,
         Dataset.id it = Dataset.r_id raw
         ∧ Dataset.listing_reversed
             (Dataset.r_speaker <$>
                Dataset.accepted_items Params.default Dataset.meta_bob_alice)
             !! Dataset.speaker it = Some (Dataset.r_speaker raw)
         ∧ Params.languages Params.default !! Dataset.language it
           = Some (Dataset.r_language raw))
        (Dataset.accepted_items Params.default Dataset.meta_bob_alice) items.
Proof.
  destruct (speaker_ids_follow_set_listing id id id Dataset.char_codes
              Dataset.listing_reversed Params.default Dataset.meta_bob_alice)
    as [(items & H1 & H2 & _) _].
  { repeat constructor; vm_compute; lia. }
  { vm_compute. reflexivity. }
  exists items. split; [exact H1 | exact H2].
Defined.

(** C5 as stated fails when the set is listed in another order than the
    order of first occurrence: bob comes first in the file and gets id 1;
    and the ids change with the listing. *)
Lemma speaker_ids_not_by_first_occurrence :
  Dataset.is_set_listing
    (Dataset.r_speaker <$>
       Dataset.accepted_items Params.default Dataset.meta_bob_alice)
    (Dataset.listing_reversed
       (Dataset.r_speaker <$>
          Dataset.accepted_items Params.default Dataset.meta_bob_alice)) = true
  ∧ (∃ bob alice,
       Dataset.init id id id Dataset.char_codes Dataset.listing_reversed
         Params.default Dataset.meta_bob_alice = Dataset.Ok [bob; alice]
       ∧ Dataset.id bob = "0"%string ∧ Dataset.speaker bob = 1
       ∧ Dataset.id alice = "1"%string ∧ Dataset.speaker alice = 0)
  ∧ Dataset.init id id id Dataset.char_codes Dataset.listing_reversed
      Params.default Dataset.meta_bob_alice
    ≠ Dataset.init id id id Dataset.char_codes Dataset.listing_first_seen
        Params.default Dataset.meta_bob_alice.
Proof.
  split; [vm_compute; reflexivity|]. split.
  - eexists _, _. split; [vm_compute; reflexivity|]. by vm_compute.
  - vm_compute. discriminate.
Qed.

(** *** load_spectrogram *)

Section LoadSpectrogramFacts.

Import Dataset.

Context {F Audio : Type}.
Variable path_join : string → string → string.
Variable np_load : string → result (list (list F)).
Variable audio_load : string → result Audio.
Variable audio_spectrogram : Params.t → Audio → bool → result (list (list F)).
Variable audio_normalize_spectrogram :
  Params.t → list (list F) → bool → list (list F).

(** C7.  Once the spectrogram is loaded or computed, [load_spectrogram]
    raises the assertion error exactly when its first dimension differs
    from [num_mels] (mel) or [num_fft // 2 + 1] (linear); otherwise it
    returns the spectrogram, normalized if asked, and with the shape of the
    loaded one as soon as the normalization keeps the shape. *)
Theorem load_spectrogram_checks_first_dimension hp root_dir audio_path
    spectrogram_path normalize is_mel s :
  obtain_spectrogram path_join np_load audio_load audio_spectrogram hp
    root_dir audio_path spectrogram_path is_mel = Ok s →
  expected_dimension hp true = Params.num_mels hp
  ∧ expected_dimension hp false = Params.num_fft hp / 2 + 1
  ∧ (load_spectrogram path_join np_load audio_load audio_spectrogram
       audio_normalize_spectrogram hp root_dir audio_path spectrogram_path
       normalize is_mel = Raise AssertionError
     ↔ (np_shape s).1 ≠ expected_dimension hp is_mel)
  ∧ ((np_shape s).1 = expected_dimension hp is_mel →
     load_spectrogram path_join np_load audio_load audio_spectrogram
       audio_normalize_spectrogram hp root_dir audio_path spectrogram_path
       normalize is_mel
     = Ok (if normalize then audio_normalize_spectrogram hp s is_mel else s)
     ∧ ((normalize = false
         ∨ np_shape (audio_normalize_spectrogram hp s is_mel) = np_shape s) →
        ∃ r, load_spectrogram path_join np_load audio_load audio_spectrogram
               audio_normalize_spectrogram hp root_dir audio_path
               spectrogram_path normalize is_mel = Ok r
             ∧ np_shape r = np_shape s)).
Proof.
  intros Hs. unfold load_spectrogram. rewrite Hs. simpl.
  split_and!; [done..| |].
  - case_decide; split; intros; simplify_eq; done.
  - intros Heq. rewrite decide_True by done. split; [done|].
    intros Hshape. eexists. split; [done|].
    destruct normalize; [|done]. by destruct Hshape.
Qed.

End LoadSpectrogramFacts.

Lemma load_spectrogram_checks_first_dimension_witness :
  Dataset.load_spectrogram Dataset.toy_join Dataset.toy_np_load
    (λ _, Dataset.Raise Dataset.External)
    (λ _ (_ : unit) _, Dataset.Raise Dataset.External)
    Dataset.toy_normalize Collate.hp_small "root" "a0.wav" "m0.npy" true true
  = Dataset.Ok [[0; 1; 2]; [3; 4; 5]]%Z
  ∧ (Dataset.load_spectrogram Dataset.toy_join Dataset.toy_np_load
       (λ _, Dataset.Raise Dataset.External)
       (λ _ (_ : unit) _, Dataset.Raise Dataset.External)
       Dataset.toy_normalize Collate.hp_small "root" "a0.wav" "m0.npy" true
       false = Dataset.Raise Dataset.AssertionError).
Proof.
  split.
  - destruct (load_spectrogram_checks_first_dimension Dataset.toy_join
                Dataset.toy_np_load (λ _, Dataset.Raise Dataset.External)
                (λ _ (_ : unit) _, Dataset.Raise Dataset.External)
                Dataset.toy_normalize Collate.hp_small "root" "a0.wav" "m0.npy"
                true true [[1; 2; 3]; [4; 5; 6]]%Z) as (_ & _ & _ & H).
    { vm_compute. reflexivity. }
    destruct H as [H _]; [vm_compute; reflexivity|]. exact H.
  - destruct (load_spectrogram_checks_first_dimension Dataset.toy_join
                Dataset.toy_np_load (λ _, Dataset.Raise Dataset.External)
                (λ _ (_ : unit) _, Dataset.Raise Dataset.External)
                Dataset.toy_normalize Collate.hp_small "root" "a0.wav" "m0.npy"
                true false [[1; 2; 3]; [4; 5; 6]]%Z) as (_ & _ & H & _).
    { vm_compute. reflexivity. }
    apply H. vm_compute. lia.
Defined.

(** ** Tacotron.inference *)

Section TacotronFacts.

Import Tacotron.

Context {Encoded Speaker Language Latent Spectrogram : Type}.
Variable embedding_and_encoder :
  tensor → nat → option Language → option Encoded.
Variable zeros_encoded : nat → nat → nat → Encoded.
Variable residual_inference : nat → option Latent.
Variable append_latent : Encoded → Latent → option Encoded.
Variable decoder_inference :
  Encoded → option Speaker → option Language → option Spectrogram.
Variable postnet_squeeze : Spectrogram → option Spectrogram.

(** C10.  After [Tacotron.inference], whether it returned or raised, the
    tensor the caller passed as [text] has one more leading dimension of
    size one: a tensor of shape [T] has become a tensor of shape [1, T]
    with the same data; no other tensor of the store has changed. *)
Theorem inference_unsqueezes_the_text_of_the_caller hp (h : heap) text t n
    speaker language :
  h !! text = Some t →
  shape t = [n] →
  (inference embedding_and_encoder zeros_encoded residual_inference
     append_latent decoder_inference postnet_squeeze hp h text speaker
     language).2 !! text
  = Some (Tensor [1; n] (data t))
  ∧ (Tensor [1; n] (data t) ≠ t)
  ∧ ∀ l, l ≠ text →
      (inference embedding_and_encoder zeros_encoded residual_inference
         append_latent decoder_inference postnet_squeeze hp h text speaker
         language).2 !! l = h !! l.
Proof.
  intros Ht Hn. unfold inference. rewrite Ht. simpl. split_and!.
  - rewrite lookup_insert_eq. unfold unsqueeze_0_. by rewrite Hn.
  - destruct t as [sh d]. simpl in *. subst sh. intros [=].
  - intros l Hl. by rewrite lookup_insert_ne.
Qed.

End TacotronFacts.

Lemma inference_unsqueezes_the_text_of_the_caller_witness :
  (Tacotron.inference (λ _ _ (_ : option unit), Some tt) (λ _ _ _, tt)
     (λ _, Some tt) (λ _ (_ : unit), Some tt)
     (λ _ (_ : option unit) _, Some tt) (λ _ : unit, Some tt)
     Params.default Tacotron.toy_heap 1%positive None None).2 !! 1%positive
  = Some (Tacotron.Tensor [1; 3] [10; 11; 12]%Z).
Proof.
  destruct (inference_unsqueezes_the_text_of_the_caller
              (λ _ _ (_ : option unit), Some tt) (λ _ _ _, tt)
              (λ _, Some tt) (λ _ (_ : unit), Some tt)
              (λ _ (_ : option unit) _, Some tt) (λ _ : unit, Some tt)
              Params.default Tacotron.toy_heap 1%positive
              (Tacotron.Tensor [3] [10; 11; 12]%Z) 3 None None) as [H _].
  { vm_compute. reflexivity. }
  { reflexivity. }
  exact H.
Defined.

(** *** create_meta_file *)

Create HintDb keeps_hp discriminated.

Section CreateMetaFileFacts.

Import Dataset.

Context {World Audio Spec Dicts Dict : Type}.

#[local] Existing Instances Dataset.M_ret Dataset.M_bind.

Lemma keeps_hp_ret {A} (a : A) : keeps_hp (World := World) (mret a).
Proof. by intros s. Qed.

Lemma keeps_hp_raise {A} e : keeps_hp (World := World) (raise (A := A) e).
Proof. by intros s. Qed.

Lemma keeps_hp_get_hp : keeps_hp (World := World) get_hp.
Proof. by intros s. Qed.

Lemma keeps_hp_call {A} (f : Params.t → World → result A * World) :
  keeps_hp (call f).
Proof. intros [hp w]. unfold call. simpl. by destruct (f hp w). Qed.

Lemma keeps_hp_bind {A B} (m : M A) (f : A → M B) :
  keeps_hp (World := World) m → (∀ a, keeps_hp (f a)) → keeps_hp (m ≫= f).
Proof.
  intros Hm Hf s. unfold mbind, M_bind. specialize (Hm s).
  destruct (m s) as [[a|e] s']; simpl in *; [|done].
  by rewrite Hf.
Qed.

Hint Resolve keeps_hp_ret keeps_hp_raise keeps_hp_get_hp keeps_hp_call
  : keeps_hp.

Ltac keeps_hp_step :=
  match goal with
  | |- keeps_hp (_ ≫= _) => apply keeps_hp_bind; [|intros ?]
  | |- keeps_hp (if ?b then _ else _) => destruct b
  | |- keeps_hp (match ?x with _ => _ end) => destruct x
  | |- keeps_hp _ => solve [auto with keeps_hp]
  end.

Variable join : string → string → string.
Variable get_loader_by_name :
  string → string → Params.t → World → result (list loader_item) * World.
Variable build_phoneme_dicts :
  list (string * string) → Params.t → World → result Dicts * World.
Variable dict_get : Dicts → string → option Dict.
Variable to_phoneme :
  string → bool → string → Dict → Params.t → World → result string * World.
Variable path_exists : string → Params.t → World → result bool * World.
Variable makedirs : string → Params.t → World → result unit * World.
Variable open_write : string → Params.t → World → result unit * World.
Variable print_to : string → string → Params.t → World → result unit * World.
Variable close_file : string → Params.t → World → result unit * World.
Variable logger_progress : nat → nat → Params.t → World → result unit * World.
Variable audio_load' : string → Params.t → World → result Audio * World.
Variable audio_spectrogram' :
  Audio → bool → Params.t → World → result Spec * World.
Variable np_save : string → Spec → Params.t → World → result unit * World.

Lemma keeps_hp_language_or_default lang :
  keeps_hp (World := World) (language_or_default lang).
Proof. unfold language_or_default. repeat keeps_hp_step. Qed.

Lemma keeps_hp_text_lang_pairs items :
  keeps_hp (World := World) (text_lang_pairs items).
Proof.
  induction items as [|i items IH]; simpl;
    repeat keeps_hp_step; auto using keeps_hp_language_or_default.
Qed.

Lemma keeps_hp_make_dirs dirs : keeps_hp (make_dirs path_exists makedirs dirs).
Proof. induction dirs as [|x dirs IH]; simpl; repeat keeps_hp_step; auto. Qed.

Lemma keeps_hp_write_item root path spectrograms phonemes dicts dirs n i it :
  keeps_hp (write_item join dict_get to_phoneme print_to logger_progress
              audio_load' audio_spectrogram' np_save root path spectrograms
              phonemes dicts dirs n i it).
Proof.
  unfold write_item.
  repeat keeps_hp_step; auto using keeps_hp_language_or_default.
Qed.

Lemma keeps_hp_write_items root path spectrograms phonemes dicts dirs n i items :
  keeps_hp (write_items join dict_get to_phoneme print_to logger_progress
              audio_load' audio_spectrogram' np_save root path spectrograms
              phonemes dicts dirs n i items).
Proof.
  revert i. induction items as [|it items IH]; intros i; simpl;
    repeat keeps_hp_step; auto using keeps_hp_write_item.
Qed.

Lemma keeps_hp_build_meta_file name root out spectrograms phonemes :
  keeps_hp (build_meta_file join get_loader_by_name build_phoneme_dicts
              dict_get to_phoneme path_exists makedirs open_write print_to
              close_file logger_progress audio_load' audio_spectrogram'
              np_save name root out spectrograms phonemes).
Proof.
  unfold build_meta_file.
  repeat keeps_hp_step;
    auto using keeps_hp_text_lang_pairs, keeps_hp_make_dirs,
      keeps_hp_write_items.
Qed.

Lemma restore_overwritten sr nfft hp :
  Params.set_num_fft (Params.num_fft hp)
    (Params.set_sample_rate (Params.sample_rate hp) (overwritten sr nfft hp))
  = hp.
Proof. by destruct hp. Qed.

(** C9.  While the meta-file is built, [Params.sample_rate] and
    [Params.num_fft] hold the arguments and the other fields hold what
    they held before; the routines in between do not write [Params]; and
    when [create_meta_file] returns, [Params] are what they were before the
    call. *)
Theorem create_meta_file_restores_params name root out sr nfft spectrograms
    phonemes hp w hp' w' :
  create_meta_file join get_loader_by_name build_phoneme_dicts dict_get
    to_phoneme path_exists makedirs open_write print_to close_file
    logger_progress audio_load' audio_spectrogram' np_save name root out sr
    nfft spectrograms phonemes (hp, w) = (Ok (), (hp', w')) →
  hp' = hp
  ∧ build_meta_file join get_loader_by_name build_phoneme_dicts dict_get
      to_phoneme path_exists makedirs open_write print_to close_file
      logger_progress audio_load' audio_spectrogram' np_save name root out
      spectrograms phonemes (overwritten sr nfft hp, w)
    = (Ok (), (overwritten sr nfft hp, w'))
  ∧ Params.sample_rate (overwritten sr nfft hp) = sr
  ∧ Params.num_fft (overwritten sr nfft hp) = nfft
  ∧ Params.set_num_fft (Params.num_fft hp)
      (Params.set_sample_rate (Params.sample_rate hp) (overwritten sr nfft hp))
    = hp.
Proof.
  intros H.
  pose proof (keeps_hp_build_meta_file name root out spectrograms phonemes
                (overwritten sr nfft hp, w)) as Hk.
  unfold create_meta_file, mbind, M_bind in H. simpl in H.
  change (Params.set_num_fft nfft (Params.set_sample_rate sr hp))
    with (overwritten sr nfft hp) in H.
  destruct (build_meta_file _ _ _ _ _ _ _ _ _ _ _ _ _ _ _ _ _ _ _ _)
    as [[[]|e] [hp1 w1]] eqn:Hb; simpl in *; [|done].
  unfold modify_hp in H. simpl in H. simplify_eq. split_and!; try done.
  - apply restore_overwritten.
  - apply restore_overwritten.
Qed.

End CreateMetaFileFacts.

Example toy_create_meta_file_runs :
  Dataset.toy_create_meta_file Dataset.toy_audio_load 16000 800
    (Params.default, [])
  = (Dataset.Ok (),
     (Params.default,
      ["root/spectrograms/000000.npy 16000 800";
       "root/linear_spectrograms/000000.npy 16000 800";
       "000000|bob|en-us|a0.wav|spectrograms/000000.npy|linear_spectrograms/000000.npy|hello|hello"]%string)).
Proof. vm_compute. reflexivity. Qed.

(** Without a handler around the body, an exception leaves the two fields
    overwritten. *)
Example toy_create_meta_file_raises :
  Dataset.toy_create_meta_file Dataset.toy_audio_load_missing 16000 800
    (Params.default, [])
  = (Dataset.Raise Dataset.External,
     (Dataset.overwritten 16000 800 Params.default, [])).
Proof. vm_compute. reflexivity. Qed.

Lemma create_meta_file_restores_params_witness :
  Dataset.toy_build_meta_file Dataset.toy_audio_load
    (Dataset.overwritten 16000 800 Params.default, [])
  = (Dataset.Ok (),
     (Dataset.overwritten 16000 800 Params.default, Dataset.toy_output)).
Proof.
  assert (Hrun : Dataset.toy_create_meta_file Dataset.toy_audio_load 16000 800
                   (Params.default, [])
                 = (Dataset.Ok (), (Params.default, Dataset.toy_output))).
  { vm_compute. reflexivity. }
  destruct (create_meta_file_restores_params _ _ _ _ _ _ _ _ _ _ _ _ _ _
              _ _ _ _ _ _ _ _ _ _ _ Hrun) as (_ & H & _).
  exact H.
Defined.

(** ** The decoding loop *)

Example toy_decode_stop_once :
  Decoder.o_spectrogram <$> Decoder.toy_decode Decoder.stop_once
    Collate.hp_small None = Some [0; 1; 2; 3; 4; 5; 6; 7; 8; 9].
Proof. vm_compute. reflexivity. Qed.

Example toy_decode_stop_from_one :
  Decoder.toy_decode Decoder.stop_from_one Collate.hp_small None
  = Some (Decoder.Outputs [0; 1; 2; 3] [0; 1; 2; 3] [0; 1; 2; 3]).
Proof. vm_compute. reflexivity. Qed.

Example toy_decode_training :
  Decoder.o_spectrogram <$> Decoder.toy_decode Decoder.stop_from_one
    Collate.hp_small (Some [7; 7; 7; 7; 7; 7]) = Some [0; 1; 2; 3; 4; 5].
Proof. vm_compute. reflexivity. Qed.

Lemma write_from_spec {A} (xs l : list A) i :
  i + length xs ≤ length l →
  Decoder.write_from i xs l = take i l ++ xs ++ drop (i + length xs) l.
Proof.
  revert i l. induction xs as [|x xs IH]; intros i l Hl; simpl in *.
  - by rewrite Nat.add_0_r, take_drop.
  - rewrite IH by (rewrite length_insert; lia).
    rewrite (take_S_r _ _ x) by (apply list_lookup_insert_eq; lia).
    rewrite take_insert_ge by done.
    rewrite drop_insert_lt by lia.
    replace (i + S (length xs)) with (S i + length xs) by lia.
    by rewrite <-app_assoc.
Qed.

Lemma steps_until_le k fs : Decoder.steps_until k fs ≤ length fs.
Proof.
  revert k. induction fs as [|[] fs IH]; intros k; simpl; [lia| |].
  - destruct k; [lia|]. specialize (IH k). lia.
  - specialize (IH k). lia.
Qed.

Lemma stop_after_le g c fs k :
  Decoder.stop_after g c fs = Some k → 0 < k ∧ k ≤ length fs.
Proof.
  revert c k. induction fs as [|b fs IH]; intros c k H; simpl in *; [done|].
  destruct b; repeat case_decide; simplify_eq/=; try lia;
    match type of H with
    | S <$> ?x = _ => destruct x as [k'|] eqn:Hx; simplify_eq/=;
                      apply IH in Hx; lia
    end.
Qed.

Lemma steps_run_cons_S g c c' b fs :
  Decoder.stop_after g c (b :: fs) = S <$> Decoder.stop_after g c' fs →
  Decoder.steps_run g c (b :: fs) = S (Decoder.steps_run g c' fs).
Proof.
  unfold Decoder.steps_run. intros ->.
  by destruct (Decoder.stop_after g c' fs).
Qed.

(** Once the countdown runs, the loop returns at the [c]-th positive
    prediction to come. *)
Lemma steps_run_counting g c fs :
  (1 ≤ c)%Z →
  Decoder.steps_run g c fs = Decoder.steps_until (Z.to_nat c - 1) fs.
Proof.
  revert c. induction fs as [|b fs IH]; intros c Hc; [done|].
  destruct b.
  - destruct (decide (c = 1)%Z) as [->|].
    + reflexivity.
    + rewrite (steps_run_cons_S g c (c - 1)).
      2:{ simpl. by rewrite decide_False, decide_False by lia. }
      rewrite IH by lia.
      replace (Z.to_nat c - 1) with (S (Z.to_nat (c - 1) - 1)) by lia.
      done.
  - rewrite (steps_run_cons_S g c c) by done. by rewrite IH.
Qed.

(** From the start, the loop returns at the [(g+1)]-th positive
    prediction. *)
Lemma steps_run_initial g fs :
  (1 ≤ g)%Z →
  Decoder.steps_run g (-1) fs = Decoder.steps_until (Z.to_nat g) fs.
Proof.
  intros Hg. induction fs as [|b fs IH]; [done|].
  destruct b.
  - rewrite (steps_run_cons_S g (-1) g) by done.
    rewrite steps_run_counting by done.
    replace (Z.to_nat g) with (S (Z.to_nat g - 1)) at 2 by lia. done.
  - rewrite (steps_run_cons_S g (-1) (-1)) by done. by rewrite IH.
Qed.

(** A grace count that is not positive never stops the loop. *)
Lemma no_early_stop_without_grace g c fs :
  (g ≤ 0)%Z → (c ≤ 0)%Z → Decoder.stop_after g c fs = None.
Proof.
  intros Hg. revert c. induction fs as [|b fs IH]; intros c Hc; [done|].
  simpl. destruct b; repeat case_decide; try lia; rewrite IH; done || lia.
Qed.

Lemma steps_until_all_fire k fs :
  (∀ j, j ≤ k → fs !! j = Some true) → Decoder.steps_until k fs = S k.
Proof.
  revert fs. induction k as [|k IH]; intros fs H.
  - specialize (H 0 (le_n _)). by destruct fs as [|[] fs].
  - pose proof (H 0 (Nat.le_0_l _)) as H0.
    destruct fs as [|[] fs]; simplify_eq/=.
    rewrite IH; [done|]. intros j Hj. apply (H (S j)). lia.
Qed.

(** When the predictions that follow the first positive one are positive
    too, the loop runs [k] further steps. *)
Lemma steps_until_consecutive k fs s :
  Decoder.first_fire fs = Some s →
  (∀ j, s < j → j ≤ s + k → fs !! j = Some true) →
  Decoder.steps_until k fs = s + 1 + k.
Proof.
  revert s. induction fs as [|b fs IH]; intros s Hs H; [done|].
  destruct b; simpl in *.
  - simplify_eq. destruct k as [|k]; [done|].
    rewrite steps_until_all_fire; [lia|].
    intros j Hj. apply (H (S j)); lia.
  - destruct (Decoder.first_fire fs) as [s'|]; simplify_eq/=.
    rewrite (IH s'); [lia|done|].
    intros j Hj1 Hj2. apply (H (S j)); lia.
Qed.

Section DecoderFacts.

Import Decoder.

Context {State Frame PFrame Logit Weights Ratio : Type}.
Variables (zero_frame : Frame) (zero_logit : Logit) (zero_weights : Weights).
Variable prenet : State → Frame → PFrame * State.
Variable rand_gt : State → Ratio → bool * State.
Variable decoder_cell : State → PFrame → State * Frame * Logit * Weights.

Lemma prenet_all_length st (frames : list Frame) :
  length (prenet_all prenet st frames).1 = length frames.
Proof.
  revert st. induction frames as [|f frames IH]; intros st; simpl; [done|].
  destruct (prenet st f) as [p st1]. specialize (IH st1).
  destruct (prenet_all prenet st1 frames). simpl in *. by rewrite IH.
Qed.

Lemma teacher_draws_length st (ratio : Ratio) n :
  length (teacher_draws rand_gt st ratio n).1 = n.
Proof.
  revert st. induction n as [|n IH]; intros st; simpl; [done|].
  destruct (rand_gt st ratio) as [b st1]. specialize (IH st1).
  destruct (teacher_draws rand_gt st1 ratio n). simpl in *. by rewrite IH.
Qed.

Lemma cell_trace_length inference teacher target n i st frame tr :
  cell_trace prenet decoder_cell inference teacher target n i st frame
  = Some tr → length tr = n.
Proof.
  revert i st frame tr. induction n as [|n IH]; intros i st frame tr H;
    simpl in *; [by simplify_eq|].
  destruct (prev_frame_of _ _ _ _ _ _ _) as [[p st1]|]; [|done]. simpl in H.
  destruct (decoder_cell st1 p) as [[[st2 f] l] w].
  destruct (cell_trace _ _ _ _ _ _ _ _ _) as [rest|] eqn:Hrest; [|done].
  simplify_eq/=. f_equal. by eapply IH.
Qed.

(** With a teacher vector and a target that are long enough, no step of a
    training call raises. *)
Lemma cell_trace_training_total teacher target n i st frame :
  i + n ≤ length teacher → i + n ≤ length target →
  is_Some (cell_trace prenet decoder_cell false teacher target n i st frame).
Proof.
  revert i st frame. induction n as [|n IH]; intros i st frame Ht Hp;
    simpl; [by eexists|].
  unfold prev_frame_of.
  destruct (lookup_lt_is_Some_2 teacher i) as [t ->]; [lia|].
  destruct (lookup_lt_is_Some_2 target i) as [p Hpi]; [lia|]. simpl.
  assert (∃ x, (if negb t then Some (prenet st frame)
                else target !! i ≫= λ p, Some (p, st)) = Some x) as [[p' st1] ->].
  { destruct t; simpl; [rewrite Hpi|]; by eexists. }
  simpl. destruct (decoder_cell st1 p') as [[[st2 f] l] w].
  destruct (IH (S i) st2 f) as [rest ->]; [lia..|]. by eexists.
Qed.

Lemma cell_trace_inference_total teacher target n i st frame :
  is_Some (cell_trace prenet decoder_cell true teacher target n i st frame).
Proof.
  revert i st frame. induction n as [|n IH]; intros i st frame;
    simpl; [by eexists|].
  destruct (prenet st frame) as [p st1]. simpl.
  destruct (decoder_cell st1 p) as [[[st2 f] l] w].
  destruct (IH (S i) st2 f) as [rest ->]. by eexists.
Qed.

(** A training call runs every iteration and stores every cell output. *)
Lemma decode_loop_training (stop_predicted : Logit → bool) hp teacher target n i s :
  decode_loop prenet decoder_cell stop_predicted hp false teacher target n i s
  = tr ← cell_trace prenet decoder_cell false teacher target n i
           (ls_state s) (ls_frame s);
    Some (store_trace i tr (ls_out s)).
Proof.
  revert i s. induction n as [|n IH]; intros i s; simpl; [done|].
  match goal with
  | |- (?x ≫= _) = _ => destruct x as [[p st1]|]; [|done]
  end.
  simpl. destruct (decoder_cell st1 p) as [[[st2 f] l] w].
  rewrite IH. simpl.
  by destruct (cell_trace _ _ _ _ _ _ _ _ _).
Qed.

(** An inference call returns when the countdown says so. *)
Lemma decode_loop_inference (stop_predicted : Logit → bool) hp teacher target n i s :
  decode_loop prenet decoder_cell stop_predicted hp true teacher target n i s
  = tr ← cell_trace prenet decoder_cell true teacher target n i
           (ls_state s) (ls_frame s);
    Some (match stop_after (Params.stop_frames hp) (ls_stop_frames s)
                  (fires stop_predicted tr) with
          | Some k => truncate (i + k) (store_trace i (take k tr) (ls_out s))
          | None => store_trace i tr (ls_out s)
          end).
Proof.
  revert i s. induction n as [|n IH]; intros i s; simpl; [done|].
  destruct (prenet (ls_state s) (ls_frame s)) as [p st1]. simpl.
  destruct (decoder_cell st1 p) as [[[st2 f] l] w].
  destruct (stop_predicted l) eqn:Hl; simpl.
  - case_decide as Hc.
    + rewrite IH. simpl.
      destruct (cell_trace _ _ _ _ _ _ _ _ _) as [rest|]; [|done]. simpl.
      rewrite Hl, decide_True by done.
      destruct (stop_after _ _ _) as [k|]; simpl; [|done].
      by rewrite Nat.add_succ_r.
    + case_decide as Hc0.
      * destruct (cell_trace_inference_total teacher target n (S i) st2 f)
          as [rest ->]. simpl.
        rewrite Hl, decide_False, decide_True by done. done.
      * rewrite IH. simpl.
        destruct (cell_trace _ _ _ _ _ _ _ _ _) as [rest|]; [|done]. simpl.
        rewrite Hl, decide_False, decide_False by done.
        destruct (stop_after _ _ _) as [k|]; simpl; [|done].
        by rewrite Nat.add_succ_r.
  - rewrite IH. simpl.
    destruct (cell_trace _ _ _ _ _ _ _ _ _) as [rest|]; [|done]. simpl.
    rewrite Hl.
    destruct (stop_after _ _ _) as [k|]; simpl; [|done].
    by rewrite Nat.add_succ_r.
Qed.

Lemma store_trace_write_from i (tr : list (Frame * Logit * Weights)) o :
  store_trace i tr o
  = {| o_spectrogram := write_from i ((λ x, x.1.1) <$> tr) (o_spectrogram o);
       o_stop_tokens := write_from i ((λ x, x.1.2) <$> tr) (o_stop_tokens o);
       o_alignments := write_from i ((λ x, x.2) <$> tr) (o_alignments o) |}.
Proof.
  revert i o. induction tr as [|x tr IH]; intros i o; simpl.
  - by destruct o.
  - by rewrite IH.
Qed.

Lemma write_from_zeros {A} (xs : list A) z n k :
  length xs = k → k ≤ n → take k (write_from 0 xs (replicate n z)) = xs.
Proof.
  intros Hk Hn. rewrite write_from_spec by (rewrite length_replicate; lia).
  simpl. by rewrite take_app_length'.
Qed.

Lemma write_from_zeros_full {A} (xs : list A) z n :
  length xs = n → write_from 0 xs (replicate n z) = xs.
Proof.
  intros Hn. rewrite write_from_spec by (rewrite length_replicate; lia).
  simpl. rewrite drop_ge by (rewrite length_replicate; lia).
  by rewrite app_nil_r.
Qed.

(** Written into buffers of [n] zeros and cut after them, the outputs of
    [k] steps are these outputs. *)
Lemma store_trace_zeros (tr : list (Frame * Logit * Weights)) n k :
  length tr = k → k ≤ n →
  truncate k
    (store_trace 0 tr
       {| o_spectrogram := replicate n zero_frame;
          o_stop_tokens := replicate n zero_logit;
          o_alignments := replicate n zero_weights |})
  = outputs_of tr.
Proof.
  intros Hk Hn. rewrite store_trace_write_from. unfold truncate, outputs_of.
  simpl. by rewrite !write_from_zeros by by rewrite ?length_fmap.
Qed.

Lemma store_trace_zeros_full (tr : list (Frame * Logit * Weights)) n :
  length tr = n →
  store_trace 0 tr
    {| o_spectrogram := replicate n zero_frame;
       o_stop_tokens := replicate n zero_logit;
       o_alignments := replicate n zero_weights |}
  = outputs_of tr.
Proof.
  intros Hn. rewrite store_trace_write_from. unfold outputs_of. simpl.
  by rewrite !write_from_zeros_full by by rewrite ?length_fmap.
Qed.

Lemma outputs_of_lengths (tr : list (Frame * Logit * Weights)) :
  length (o_spectrogram (outputs_of tr)) = length tr
  ∧ length (o_stop_tokens (outputs_of tr)) = length tr
  ∧ length (o_alignments (outputs_of tr)) = length tr.
Proof. unfold outputs_of. simpl. by rewrite !length_fmap. Qed.

Lemma decode_training (stop_predicted : Logit → bool) hp self_max_frames
    st0 (target : list Frame) (ratio : Ratio) :
  ∃ tr,
    training_trace zero_frame prenet rand_gt decoder_cell st0 target ratio
    = Some tr
    ∧ length tr = length target
    ∧ _decode zero_frame zero_logit zero_weights prenet rand_gt decoder_cell
        stop_predicted hp self_max_frames st0 (Some target) ratio
      = Some (outputs_of tr).
Proof.
  unfold _decode, training_trace, _target_init.
  pose proof (prenet_all_length st0 (zero_frame :: target)) as Hp.
  destruct (prenet_all prenet st0 (zero_frame :: target)) as [tp st1].
  pose proof (teacher_draws_length st1 ratio (length target)) as Ht.
  destruct (teacher_draws rand_gt st1 ratio (length target)) as [te st2].
  simpl in Hp, Ht.
  destruct (cell_trace_training_total te tp (length target) 0 st2 zero_frame)
    as [tr Htr]; [lia..|].
  exists tr. pose proof (cell_trace_length _ _ _ _ _ _ _ _ Htr) as Hlen.
  split_and!; [done..|].
  rewrite decode_loop_training. simpl. rewrite Htr. simpl.
  by rewrite store_trace_zeros_full.
Qed.

(** C2.  A training call returns; its three tensors hold the outputs of
    exactly one decoder step per frame of the target, so that their step
    dimension is the frame count of the target; and the result is the same
    whatever the stop predictions, [hp.stop_frames] and [self._max_frames]
    are: the stop logic plays no part in training. *)
Theorem training_decodes_every_target_frame (stop_predicted : Logit → bool)
    hp self_max_frames st0 (target : list Frame) (ratio : Ratio) :
  ∃ tr,
    training_trace zero_frame prenet rand_gt decoder_cell st0 target ratio
    = Some tr
    ∧ length tr = length target
    ∧ _decode zero_frame zero_logit zero_weights prenet rand_gt decoder_cell
        stop_predicted hp self_max_frames st0 (Some target) ratio
      = Some (outputs_of tr)
    ∧ length (o_spectrogram (outputs_of tr)) = length target
    ∧ length (o_stop_tokens (outputs_of tr)) = length target
    ∧ length (o_alignments (outputs_of tr)) = length target
    ∧ ∀ (stop_predicted' : Logit → bool) hp' self_max_frames',
        _decode zero_frame zero_logit zero_weights prenet rand_gt decoder_cell
          stop_predicted' hp' self_max_frames' st0 (Some target) ratio
        = Some (outputs_of tr).
Proof.
  destruct (decode_training stop_predicted hp self_max_frames st0 target ratio)
    as (tr & Htr & Hlen & Hdec).
  exists tr. destruct (outputs_of_lengths tr) as (H1 & H2 & H3).
  split_and!; try done; try congruence.
  intros sp' hp' smf'.
  destruct (decode_training sp' hp' smf' st0 target ratio)
    as (tr' & Htr' & _ & Hdec').
  congruence.
Qed.

(** An inference call returns the outputs of the steps that the countdown
    lets run. *)
Lemma decode_inference (stop_predicted : Logit → bool) hp self_max_frames
    st0 (ratio : Ratio) :
  ∃ tr,
    inference_trace zero_frame prenet decoder_cell self_max_frames st0
    = Some tr
    ∧ length tr = self_max_frames
    ∧ _decode zero_frame zero_logit zero_weights prenet rand_gt decoder_cell
        stop_predicted hp self_max_frames st0 None ratio
      = Some (outputs_of
                (take (steps_run (Params.stop_frames hp) (-1)
                         (fires stop_predicted tr)) tr)).
Proof.
  unfold _decode, inference_trace.
  destruct (cell_trace_inference_total [] [] self_max_frames 0 st0 zero_frame)
    as [tr Htr].
  exists tr. pose proof (cell_trace_length _ _ _ _ _ _ _ _ Htr) as Hlen.
  split_and!; [done..|].
  rewrite decode_loop_inference. simpl. rewrite Htr. simpl. f_equal.
  unfold steps_run.
  destruct (stop_after _ _ _) as [k|] eqn:Hk; simpl.
  - apply stop_after_le in Hk as [_ Hk].
    unfold fires in Hk. rewrite length_fmap in Hk.
    apply store_trace_zeros; [|lia]. rewrite length_take. lia.
  - unfold fires. rewrite length_fmap, take_ge by lia.
    by apply store_trace_zeros_full.
Qed.

(** C3, amended.  For a positive [hp.stop_frames], an inference call
    returns the outputs of the steps up to and including the one that
    holds the [(hp.stop_frames + 1)]-th positive stop prediction, and of all
    the [self._max_frames] steps when there are fewer; the three tensors
    have that many steps.  When the predictions that follow the first
    positive one are positive too, there are exactly [hp.stop_frames]
    further steps. *)
Theorem inference_stops_at_counted_stop_prediction
    (stop_predicted : Logit → bool) hp self_max_frames st0 (ratio : Ratio) :
  (1 ≤ Params.stop_frames hp)%Z →
  ∃ tr,
    inference_trace zero_frame prenet decoder_cell self_max_frames st0
    = Some tr
    ∧ length tr = self_max_frames
    ∧ _decode zero_frame zero_logit zero_weights prenet rand_gt decoder_cell
        stop_predicted hp self_max_frames st0 None ratio
      = Some (outputs_of
                (take (steps_until (Z.to_nat (Params.stop_frames hp))
                         (fires stop_predicted tr)) tr))
    ∧ steps_until (Z.to_nat (Params.stop_frames hp)) (fires stop_predicted tr)
      ≤ self_max_frames
    ∧ (∀ out,
         _decode zero_frame zero_logit zero_weights prenet rand_gt decoder_cell
           stop_predicted hp self_max_frames st0 None ratio = Some out →
         length (o_spectrogram out)
         = steps_until (Z.to_nat (Params.stop_frames hp))
             (fires stop_predicted tr)
         ∧ length (o_stop_tokens out) = length (o_spectrogram out)
         ∧ length (o_alignments out) = length (o_spectrogram out))
    ∧ (∀ s, first_fire (fires stop_predicted tr) = Some s →
         (∀ j, s < j → j ≤ s + Z.to_nat (Params.stop_frames hp) →
               fires stop_predicted tr !! j = Some true) →
         steps_until (Z.to_nat (Params.stop_frames hp))
           (fires stop_predicted tr)
         = s + 1 + Z.to_nat (Params.stop_frames hp)).
Proof.
  intros Hg.
  destruct (decode_inference stop_predicted hp self_max_frames st0 ratio)
    as (tr & Htr & Hlen & Hdec).
  rewrite steps_run_initial in Hdec by done.
  assert (Hle : steps_until (Z.to_nat (Params.stop_frames hp))
                  (fires stop_predicted tr) ≤ self_max_frames).
  { etrans; [apply steps_until_le|]. unfold fires. by rewrite length_fmap, Hlen. }
  exists tr. split_and!; try done.
  - intros out Hout. rewrite Hdec in Hout. simplify_eq.
    destruct (outputs_of_lengths
                (take (steps_until (Z.to_nat (Params.stop_frames hp))
                         (fires stop_predicted tr)) tr)) as (-> & -> & ->).
    rewrite length_take. split_and!; try done. lia.
  - intros s Hs Hall. by apply steps_until_consecutive.
Qed.

End DecoderFacts.

Lemma inference_stops_at_counted_stop_prediction_witness :
  ∃ tr,
    Decoder.inference_trace 0 Decoder.toy_prenet Decoder.toy_cell 10 0 = Some tr
    ∧ Decoder.toy_decode Decoder.stop_from_one Collate.hp_small None
      = Some (Decoder.outputs_of
                (take (Decoder.steps_until 2
                         (Decoder.fires Decoder.stop_from_one tr)) tr))
    ∧ Decoder.steps_until 2 (Decoder.fires Decoder.stop_from_one tr) = 4.
Proof.
  destruct (inference_stops_at_counted_stop_prediction 0 0 0
              Decoder.toy_prenet Decoder.toy_rand Decoder.toy_cell
              Decoder.stop_from_one Collate.hp_small 10 0 ())
    as (tr & Htr & _ & Hdec & _ & _ & Hcons).
  { vm_compute. discriminate. }
  exists tr. split; [exact Htr|]. split; [exact Hdec|].
  vm_compute in Htr. injection Htr as <-.
  apply (Hcons 1).
  - vm_compute. reflexivity.
  - intros j Hj1 Hj2.
    change (Z.to_nat (Params.stop_frames Collate.hp_small)) with 2 in Hj2.
    destruct j as [|[|[|[|j]]]]; try lia; vm_compute; reflexivity.
Defined.

(** C3 as stated fails when the stop is predicted once: with
    [hp.stop_frames = 2] and a positive prediction at step 1 only, the loop
    runs the ten steps of the cap and not the five that the grace period
    of the specification allows. *)
Lemma single_stop_prediction_runs_to_the_cap :
  ∃ out tr,
    Decoder.toy_decode Decoder.stop_once Collate.hp_small None = Some out
    ∧ Decoder.inference_trace 0 Decoder.toy_prenet Decoder.toy_cell 10 0
      = Some tr
    ∧ Decoder.first_fire (Decoder.fires Decoder.stop_once tr) = Some 1
    ∧ length (Decoder.o_spectrogram out) = 10
    ∧ ¬ Decoder.stops_within_grace (Params.stop_frames Collate.hp_small)
          (Params.max_output_length Collate.hp_small)
          (Decoder.fires Decoder.stop_once tr)
          (length (Decoder.o_spectrogram out)).
Proof.
  eexists _, _. split; [vm_compute; reflexivity|].
  split; [vm_compute; reflexivity|]. split; [vm_compute; reflexivity|].
  split; [vm_compute; reflexivity|].
  intros H. specialize (H 1 eq_refl). vm_compute in H. lia.
Qed.

(** ** More on the decoding loop *)

Lemma steps_run_cons_stop g c fs :
  (c ≠ -1)%Z → (c - 1 = 0)%Z → Decoder.steps_run g c (true :: fs) = 1.
Proof.
  intros H1 H2. unfold Decoder.steps_run. simpl.
  by rewrite decide_False, decide_True by done.
Qed.

Lemma steps_run_take g c fs n :
  Decoder.steps_run g c (take n fs) = n `min` Decoder.steps_run g c fs.
Proof.
  revert n c. induction fs as [|b fs IH]; intros n c.
  - rewrite take_nil. unfold Decoder.steps_run. simpl. lia.
  - destruct n as [|n]; [done|]. rewrite firstn_cons.
    destruct b.
    + destruct (decide (c = -1)%Z) as [->|Hc].
      * rewrite !(steps_run_cons_S g (-1) g) by done. rewrite IH. lia.
      * destruct (decide (c - 1 = 0)%Z) as [Hc1|Hc1].
        -- rewrite !steps_run_cons_stop by done. lia.
        -- rewrite !(steps_run_cons_S g c (c - 1)).
           2,3: simpl; by rewrite !decide_False by done.
           rewrite IH. lia.
    + rewrite !(steps_run_cons_S g c c) by done. rewrite IH. lia.
Qed.

Lemma steps_until_ge k fs :
  S k `min` length fs ≤ Decoder.steps_until k fs.
Proof.
  revert k. induction fs as [|b fs IH]; intros k; simpl; [lia|].
  destruct b.
  - destruct k as [|k]; [lia|]. specialize (IH k). lia.
  - specialize (IH k). lia.
Qed.

Section DecoderMore.

Import Decoder.

Context {State Frame PFrame Logit Weights Ratio : Type}.
Variables (zero_frame : Frame) (zero_logit : Logit) (zero_weights : Weights).
Variable prenet : State → Frame → PFrame * State.
Variable rand_gt : State → Ratio → bool * State.
Variable decoder_cell : State → PFrame → State * Frame * Logit * Weights.
Variable stop_predicted : Logit → bool.

(** The first steps of a run are the run of fewer steps. *)
Lemma cell_trace_take inference teacher target n m i st frame tr :
  cell_trace prenet decoder_cell inference teacher target m i st frame
  = Some tr →
  n ≤ m →
  cell_trace prenet decoder_cell inference teacher target n i st frame
  = Some (take n tr).
Proof.
  revert m i st frame tr. induction n as [|n IH]; intros m i st frame tr H Hn.
  - by rewrite take_0.
  - destruct m as [|m]; [lia|]. simpl in *.
    destruct (prev_frame_of _ _ _ _ _ _ _) as [[p st1]|]; [|done].
    simpl in *. destruct (decoder_cell st1 p) as [[[st2 f] l] w].
    destruct (cell_trace _ _ _ _ _ m _ _ _) as [rest|] eqn:Hrest; [|done].
    simplify_eq/=. erewrite IH; [done..|lia].
Qed.

Lemma outputs_of_truncate n (tr : list (Frame * Logit * Weights)) :
  truncate n (outputs_of tr) = outputs_of (take n tr).
Proof. unfold truncate, outputs_of. simpl. by rewrite !fmap_take. Qed.

(** The cap only cuts: an inference call with the cap [n] returns the first
    [n] steps of what the call returns with a greater cap. *)
Theorem inference_cap_truncates hp n m st0 (ratio : Ratio) out_n out_m :
  n ≤ m →
  _decode zero_frame zero_logit zero_weights prenet rand_gt decoder_cell
    stop_predicted hp n st0 None ratio = Some out_n →
  _decode zero_frame zero_logit zero_weights prenet rand_gt decoder_cell
    stop_predicted hp m st0 None ratio = Some out_m →
  out_n = truncate n out_m.
Proof.
  intros Hnm Hn Hm.
  destruct (decode_inference zero_frame zero_logit zero_weights prenet rand_gt
              decoder_cell stop_predicted hp n st0 ratio)
    as (trn & Htrn & Hlenn & Hdecn).
  destruct (decode_inference zero_frame zero_logit zero_weights prenet rand_gt
              decoder_cell stop_predicted hp m st0 ratio)
    as (trm & Htrm & Hlenm & Hdecm).
  unfold inference_trace in *.
  rewrite (cell_trace_take _ _ _ n m _ _ _ trm Htrm Hnm) in Htrn.
  injection Htrn as <-.
  rewrite Hdecn in Hn. rewrite Hdecm in Hm.
  injection Hn as <-. injection Hm as <-.
  rewrite outputs_of_truncate. f_equal.
  unfold fires. rewrite fmap_take, steps_run_take, !take_take. f_equal. lia.
Qed.

(** With a stop count that is not positive, stop predictions have no
    effect: inference runs [self._max_frames] steps. *)
Theorem inference_without_grace_runs_to_the_cap hp self_max_frames st0
    (ratio : Ratio) :
  (Params.stop_frames hp ≤ 0)%Z →
  ∃ tr,
    inference_trace zero_frame prenet decoder_cell self_max_frames st0
    = Some tr
    ∧ length tr = self_max_frames
    ∧ _decode zero_frame zero_logit zero_weights prenet rand_gt decoder_cell
        stop_predicted hp self_max_frames st0 None ratio
      = Some (outputs_of tr).
Proof.
  intros Hg.
  destruct (decode_inference zero_frame zero_logit zero_weights prenet rand_gt
              decoder_cell stop_predicted hp self_max_frames st0 ratio)
    as (tr & Htr & Hlen & Hdec).
  exists tr. split_and!; [done..|].
  rewrite Hdec. unfold steps_run.
  rewrite no_early_stop_without_grace by lia. simpl.
  unfold fires. by rewrite length_fmap, take_ge by lia.
Qed.

(** With a positive stop count, inference returns at least
    [hp.stop_frames + 1] steps, or all the steps of the cap. *)
Theorem inference_runs_at_least_the_grace_steps hp self_max_frames st0
    (ratio : Ratio) out :
  (1 ≤ Params.stop_frames hp)%Z →
  _decode zero_frame zero_logit zero_weights prenet rand_gt decoder_cell
    stop_predicted hp self_max_frames st0 None ratio = Some out →
  (Z.to_nat (Params.stop_frames hp) + 1) `min` self_max_frames
  ≤ length (o_spectrogram out)
  ∧ length (o_spectrogram out) ≤ self_max_frames.
Proof.
  intros Hg Hout.
  destruct (decode_inference zero_frame zero_logit zero_weights prenet rand_gt
              decoder_cell stop_predicted hp self_max_frames st0 ratio)
    as (tr & Htr & Hlen & Hdec).
  rewrite steps_run_initial in Hdec by done.
  rewrite Hdec in Hout. injection Hout as <-.
  destruct (outputs_of_lengths
              (take (steps_until (Z.to_nat (Params.stop_frames hp))
                       (fires stop_predicted tr)) tr)) as (-> & _).
  rewrite length_take.
  pose proof (steps_until_ge (Z.to_nat (Params.stop_frames hp))
                (fires stop_predicted tr)) as H.
  pose proof (steps_until_le (Z.to_nat (Params.stop_frames hp))
                (fires stop_predicted tr)) as H'.
  unfold fires in H at 1, H' at 2. rewrite length_fmap, Hlen in H, H'. lia.
Qed.

(** When every step is teacher-forced, the cell runs on the pre-net images
    of the zero frame and of the target frames but the last; the frames it
    predicts are not fed back. *)
Lemma cell_trace_forced teacher target n i st frame :
  Forall (λ b, b = true) teacher →
  i + n ≤ length teacher → i + n ≤ length target →
  cell_trace prenet decoder_cell false teacher target n i st frame
  = Some (Forcing.forced_trace decoder_cell (take n (drop i target)) st).
Proof.
  intros Hall. revert i st frame.
  induction n as [|n IH]; intros i st frame Ht Hp; simpl.
  - done.
  - unfold prev_frame_of.
    destruct (lookup_lt_is_Some_2 teacher i) as [t Hti]; [lia|].
    assert (t = true) as ->.
    { rewrite Forall_forall in Hall. apply Hall.
      by eapply list_elem_of_lookup_2. }
    destruct (lookup_lt_is_Some_2 target i) as [p Hpi]; [lia|].
    rewrite Hti. simpl. rewrite Hpi. simpl.
    rewrite (drop_S _ _ _ Hpi). simpl.
    destruct (decoder_cell st p) as [[[st2 f] l] w].
    rewrite IH by lia. done.
Qed.

Lemma teacher_draws_all_true st (ratio : Ratio) n :
  (∀ st', (rand_gt st' ratio).1 = true) →
  Forall (λ b, b = true) (teacher_draws rand_gt st ratio n).1.
Proof.
  intros Hall. revert st. induction n as [|n IH]; intros st; simpl; [done|].
  pose proof (Hall st) as Hst.
  destruct (rand_gt st ratio) as [b st1]. specialize (IH st1).
  destruct (teacher_draws rand_gt st1 ratio n). simpl in *.
  by constructor.
Qed.

Theorem full_teacher_forcing_never_feeds_predictions_back hp self_max_frames
    st0 (target : list Frame) (ratio : Ratio) :
  (∀ st, (rand_gt st ratio).1 = true) →
  _decode zero_frame zero_logit zero_weights prenet rand_gt decoder_cell
    stop_predicted hp self_max_frames st0 (Some target) ratio
  = Some (outputs_of
            (Forcing.forced_trace decoder_cell
               (take (length target)
                  (prenet_all prenet st0 (zero_frame :: target)).1)
               (teacher_draws rand_gt
                  (prenet_all prenet st0 (zero_frame :: target)).2 ratio
                  (length target)).2)).
Proof.
  intros Hall.
  destruct (decode_training zero_frame zero_logit zero_weights prenet rand_gt
              decoder_cell stop_predicted hp self_max_frames st0 target ratio)
    as (tr & Htr & _ & ->).
  unfold training_trace, _target_init in Htr.
  pose proof (prenet_all_length prenet st0 (zero_frame :: target)) as Hp.
  destruct (prenet_all prenet st0 (zero_frame :: target)) as [tp st1].
  cbn [fst snd] in *.
  pose proof (teacher_draws_length rand_gt st1 ratio (length target)) as Ht.
  pose proof (teacher_draws_all_true st1 ratio (length target) Hall) as Htrue.
  destruct (teacher_draws rand_gt st1 ratio (length target)) as [te st2].
  simpl in *.
  rewrite cell_trace_forced in Htr by (done || lia).
  by simplify_eq.
Qed.

Lemma cell_trace_not_forced teacher target n i st frame :
  Forall (λ b, b = false) teacher →
  i + n ≤ length teacher →
  cell_trace prenet decoder_cell false teacher target n i st frame
  = cell_trace prenet decoder_cell true [] [] n i st frame.
Proof.
  intros Hall. revert i st frame.
  induction n as [|n IH]; intros i st frame Ht; simpl; [done|].
  unfold prev_frame_of.
  destruct (lookup_lt_is_Some_2 teacher i) as [t Hti]; [lia|].
  assert (t = false) as ->.
  { rewrite Forall_forall in Hall. apply Hall.
    by eapply list_elem_of_lookup_2. }
  rewrite Hti. simpl.
  destruct (prenet st frame) as [p st1]. simpl.
  destruct (decoder_cell st1 p) as [[[st2 f] l] w].
  by rewrite IH by lia.
Qed.

Lemma stop_after_never_predicted g c (tr : list (Frame * Logit * Weights)) :
  stop_after g c (fires (λ _, false) tr) = None.
Proof.
  revert c. induction tr as [|x tr IH]; intros c; simpl; [done|].
  by rewrite IH.
Qed.

(** When no step is teacher-forced, the loop of a training call does what
    the loop of an inference call does when the stop is never predicted:
    every step runs on the pre-net image of the frame predicted before. *)
Theorem no_teacher_forcing_is_free_running hp teacher target n i s :
  Forall (λ b, b = false) teacher →
  i + n ≤ length teacher →
  decode_loop prenet decoder_cell stop_predicted hp false teacher target n i s
  = decode_loop prenet decoder_cell (λ _, false) hp true [] [] n i s.
Proof.
  intros Hall Hlen.
  rewrite decode_loop_training, decode_loop_inference.
  rewrite cell_trace_not_forced by done.
  destruct (cell_trace _ _ _ _ _ _ _ _ _) as [tr|]; [|done]. simpl.
  by rewrite stop_after_never_predicted.
Qed.

End DecoderMore.

Lemma inference_cap_truncates_witness :
  Decoder.Outputs [0; 1; 2] [0; 1; 2] [0; 1; 2]
  = Decoder.truncate 3
      (Decoder.Outputs [0; 1; 2; 3] [0; 1; 2; 3] [0; 1; 2; 3]).
Proof.
  apply (inference_cap_truncates 0 0 0 Decoder.toy_prenet Decoder.toy_rand
           Decoder.toy_cell Decoder.stop_from_one Collate.hp_small 3 10 0 ()).
  - lia.
  - vm_compute. reflexivity.
  - vm_compute. reflexivity.
Defined.

Lemma inference_without_grace_runs_to_the_cap_witness :
  ∃ tr,
    length tr = 10
    ∧ Decoder._decode 0 0 0 Decoder.toy_prenet Decoder.toy_rand
        Decoder.toy_cell Decoder.stop_from_one hp_zero_grace 10 0 None ()
      = Some (Decoder.outputs_of tr).
Proof.
  destruct (inference_without_grace_runs_to_the_cap 0 0 0 Decoder.toy_prenet
              Decoder.toy_rand Decoder.toy_cell Decoder.stop_from_one
              hp_zero_grace 10 0 ()) as (tr & _ & H1 & H2).
  { vm_compute. discriminate. }
  exists tr. split; [exact H1 | exact H2].
Defined.

Lemma inference_runs_at_least_the_grace_steps_witness :
  (Z.to_nat (Params.stop_frames Collate.hp_small) + 1) `min` 10
  ≤ length [0; 1; 2; 3]
  ∧ length [0; 1; 2; 3] ≤ 10.
Proof.
  apply (inference_runs_at_least_the_grace_steps 0 0 0 Decoder.toy_prenet
           Decoder.toy_rand Decoder.toy_cell Decoder.stop_from_one
           Collate.hp_small 10 0 ()
           (Decoder.Outputs [0; 1; 2; 3] [0; 1; 2; 3] [0; 1; 2; 3])).
  - vm_compute. discriminate.
  - vm_compute. reflexivity.
Defined.

Lemma full_teacher_forcing_never_feeds_predictions_back_witness :
  Decoder._decode 0 0 0 Decoder.toy_prenet Decoder.toy_rand Decoder.toy_cell
    Decoder.stop_from_one Collate.hp_small 10 0 (Some [7; 8; 9]) ()
  = Some (Decoder.outputs_of
            (Forcing.forced_trace Decoder.toy_cell
               (take (length [7; 8; 9])
                  (Decoder.prenet_all Decoder.toy_prenet 0 [0; 7; 8; 9]).1)
               (Decoder.teacher_draws Decoder.toy_rand
                  (Decoder.prenet_all Decoder.toy_prenet 0 [0; 7; 8; 9]).2 ()
                  (length [7; 8; 9])).2)).
Proof.
  apply (full_teacher_forcing_never_feeds_predictions_back 0 0 0
           Decoder.toy_prenet Decoder.toy_rand Decoder.toy_cell
           Decoder.stop_from_one Collate.hp_small 10 0 [7; 8; 9] ()).
  intros st. reflexivity.
Defined.

Lemma no_teacher_forcing_is_free_running_witness :
  Decoder.decode_loop Decoder.toy_prenet Decoder.toy_cell Decoder.stop_from_one
    Collate.hp_small false [false; false] [5; 6; 7] 2 0
    (Decoder.LoopState 0 0 (-1) (Decoder.Outputs [0; 0] [0; 0] [0; 0]))
  = Decoder.decode_loop Decoder.toy_prenet Decoder.toy_cell (λ _, false)
      Collate.hp_small true [] [] 2 0
      (Decoder.LoopState 0 0 (-1) (Decoder.Outputs [0; 0] [0; 0] [0; 0])).
Proof.
  apply (no_teacher_forcing_is_free_running Decoder.toy_prenet
           Decoder.toy_cell Decoder.stop_from_one Collate.hp_small
           [false; false] [5; 6; 7] 2 0).
  - repeat constructor.
  - simpl. lia.
Defined.

(** ** More on the dataset *)

Section DatasetMoreFacts.

Import Dataset DatasetMore.

Lemma py_list_get_Ok {A} (l : list A) index x :
  py_list_get l index = Ok x →
  (- Z.of_nat (length l) ≤ index < Z.of_nat (length l))%Z.
Proof.
  unfold py_list_get. intros H. repeat case_decide; try done.
  - destruct (l !! Z.to_nat index) eqn:Hl; [|done].
    apply lookup_lt_Some in Hl. lia.
  - destruct (l !! Z.to_nat (index + _)) eqn:Hl; [|done].
    apply lookup_lt_Some in Hl. lia.
Qed.

Lemma py_list_get_out_of_range {A} (l : list A) index :
  (index < - Z.of_nat (length l) ∨ Z.of_nat (length l) ≤ index)%Z →
  py_list_get l index = Raise IndexError.
Proof.
  unfold py_list_get. intros H. repeat case_decide; try done; try lia.
  rewrite lookup_ge_None_2 by lia. done.
Qed.

(** A negative index counts from the end. *)
Lemma py_list_get_negative {A} (l : list A) (k : nat) :
  0 < k → k ≤ length l →
  py_list_get l (- Z.of_nat k) = of_option IndexError (l !! (length l - k)).
Proof.
  intros H1 H2. unfold py_list_get.
  rewrite decide_False, decide_True by lia. do 2 f_equal. lia.
Qed.

Context {F Audio V : Type}.
Variable path_join : string → string → string.
Variable np_load : string → result (list (list F)).
Variable audio_load : string → result Audio.
Variable audio_spectrogram : Params.t → Audio → bool → result (list (list F)).

Lemma load_spectrogram_Ok_length norm hp root a p normalize is_mel s :
  load_spectrogram path_join np_load audio_load audio_spectrogram norm hp
    root a p normalize is_mel = Ok s →
  (normalize = true → ∀ x m, length (norm hp x m) = length x) →
  length s = expected_dimension hp is_mel.
Proof.
  unfold load_spectrogram. intros H Hnorm.
  destruct (obtain_spectrogram _ _ _ _ _ _ _ _ _) as [s0|]; [|done].
  simpl in H. case_decide as Hlen; [|done]. simplify_eq.
  destruct normalize; [|done]. by rewrite Hnorm.
Qed.

Lemma load_spectrogram_not_normalized norm norm' hp root a p is_mel :
  load_spectrogram path_join np_load audio_load audio_spectrogram norm hp
    root a p false is_mel
  = load_spectrogram path_join np_load audio_load audio_spectrogram norm' hp
      root a p false is_mel.
Proof. done. Qed.

(** [__getitem__] raises [IndexError] outside of [-len, len); what it
    returns is the item at the index, with its phonemes or its text, a mel
    spectrogram of [num_mels] rows, and a linear spectrogram of
    [num_fft // 2 + 1] rows exactly when linear spectrograms are
    predicted.  The numbers of rows hold as soon as the normalization, when
    it is on, keeps the number of rows. *)
Theorem getitem_returns_checked_spectrograms norm hp self index :
  ((index < - Z.of_nat (len self) ∨ Z.of_nat (len self) ≤ index)%Z →
   getitem path_join np_load audio_load audio_spectrogram norm hp self index
   = Raise IndexError)
  ∧ ∀ e,
      (Params.normalize_spectrogram hp = true →
       ∀ x m, length (norm hp x m) = length x) →
      getitem path_join np_load audio_load audio_spectrogram norm hp self index
      = Ok e →
      (∃ it, py_list_get (items self) index = Ok it
             ∧ Collate.ex_s e = speaker it
             ∧ Collate.ex_l e = language it
             ∧ Collate.ex_u e
               = if Params.use_phonemes hp then phonemes it else text it)
      ∧ length (Collate.ex_a e) = Params.num_mels hp
      ∧ (if Params.predict_linear hp
         then ∃ b, Collate.ex_b e = Some b
                   ∧ length b = Params.num_fft hp / 2 + 1
         else Collate.ex_b e = None).
Proof.
  split.
  - intros H. unfold getitem, len in *.
    by rewrite py_list_get_out_of_range.
  - intros e Hnorm H. unfold getitem in H.
    destruct (py_list_get (items self) index) as [it|]; [|done]. simpl in H.
    destruct (load_spectrogram _ _ _ _ _ _ _ _ _ _ true) as [mel|] eqn:Hmel;
      [|done].
    simpl in H. apply load_spectrogram_Ok_length in Hmel; [|done].
    destruct (Params.predict_linear hp).
    + destruct (load_spectrogram _ _ _ _ _ _ _ _ _ _ false) as [lin|] eqn:Hlin;
        [|done].
      simpl in H. apply load_spectrogram_Ok_length in Hlin; [|done].
      simplify_eq. simpl. split_and!; [by exists it|done|by exists lin].
    + simpl in H. simplify_eq. simpl. split_and!; [by exists it|done..].
Qed.

Variables (np_mean np_std : list (list F) → V).
Variable zero : V.
Variable add : V → V → V.
Variable divide : V → nat → V.

Lemma accumulate_not_normalized norm norm' hp self is_mel its mean std :
  accumulate path_join np_load audio_load audio_spectrogram norm np_mean
    np_std add hp self is_mel its mean std
  = accumulate path_join np_load audio_load audio_spectrogram norm' np_mean
      np_std add hp self is_mel its mean std.
Proof.
  revert mean std. induction its as [|it its IH]; intros mean std; simpl;
    [done|].
  destruct (load_spectrogram _ _ _ _ _ _ _ _ _ _ _) as [s|]; simpl; [|done].
  apply IH.
Qed.

Lemma accumulate_Ok norm hp self is_mel its mean std r :
  accumulate path_join np_load audio_load audio_spectrogram norm np_mean
    np_std add hp self is_mel its mean std = Ok r →
  Forall (λ it, ∃ s,
            load_spectrogram path_join np_load audio_load audio_spectrogram
              norm hp (root_dir self) (audio it)
              (if is_mel then spectrogram it else linear_spectrogram it)
              false is_mel = Ok s
            ∧ length s = expected_dimension hp is_mel) its.
Proof.
  revert mean std. induction its as [|it its IH]; intros mean std H; simpl in *;
    [done|].
  destruct (load_spectrogram _ _ _ _ _ _ _ _ _ _ _) as [s|] eqn:Hs; [|done].
  simpl in H. constructor; [|by eapply IH].
  exists s. split; [done|].
  by eapply load_spectrogram_Ok_length.
Qed.

(** [get_normalization_constants] raises [ZeroDivisionError] on a data set
    without items; when it returns, every spectrogram was loaded and has
    the expected first dimension; and the spectrograms it averages are
    never normalized: the result is the same whatever the normalization
    is. *)
Theorem normalization_constants_from_raw_spectrograms norm hp self is_mel :
  (items self = [] →
   get_normalization_constants path_join np_load audio_load audio_spectrogram
     norm np_mean np_std zero add divide hp self is_mel
   = XRaise ZeroDivisionError)
  ∧ (∀ r,
       get_normalization_constants path_join np_load audio_load
         audio_spectrogram norm np_mean np_std zero add divide hp self is_mel
       = XOk r →
       items self ≠ []
       ∧ Forall (λ it, ∃ s,
            load_spectrogram path_join np_load audio_load audio_spectrogram
              norm hp (root_dir self) (audio it)
              (if is_mel then spectrogram it else linear_spectrogram it)
              false is_mel = Ok s
            ∧ length s = expected_dimension hp is_mel) (items self))
  ∧ (∀ norm',
       get_normalization_constants path_join np_load audio_load
         audio_spectrogram norm' np_mean np_std zero add divide hp self is_mel
       = get_normalization_constants path_join np_load audio_load
           audio_spectrogram norm np_mean np_std zero add divide hp self
           is_mel).
Proof.
  unfold get_normalization_constants. split_and!.
  - intros ->. simpl. done.
  - intros r H.
    destruct (accumulate _ _ _ _ _ _ _ _ _ _ _ _ _ _) as [[m s]|] eqn:Hacc;
      [|done].
    simpl in H. case_decide as Hlen; [done|]. split.
    + by destruct (items self).
    + by eapply accumulate_Ok.
  - intros norm'. by rewrite (accumulate_not_normalized norm' norm).
Qed.

End DatasetMoreFacts.

Section DatasetCounts.

Import Dataset DatasetMore.

Variables (remove_punctuation to_lower remove_odd_whitespaces : string → string).
Variable to_sequence : string → bool → list Z.

Lemma read_lines_Ok_long hp lines us its r :
  read_lines hp lines us its = Ok r →
  Forall (λ line, 8 ≤ length (tokens line)) lines.
Proof.
  revert us its. induction lines as [|l lines IH]; intros us its H; [done|].
  destruct (decide (length (tokens l) < 8)) as [Hs|Hl].
  - rewrite (read_lines_short hp (l :: lines) us its l) in H;
      [done|apply list_elem_of_here|done].
  - constructor; [lia|]. simpl in H.
    rewrite read_line_long in H by lia. simpl in H.
    case_bool_decide; by eapply IH.
Qed.

Lemma convert_all_Ok_inv hp unique_speakers raws items :
  convert_all to_sequence hp unique_speakers
    (clean remove_punctuation to_lower remove_odd_whitespaces hp <$> raws)
  = Ok items →
  Forall2 (λ raw it,
     list_index (r_speaker raw) unique_speakers = Some (speaker it)
     ∧ list_index (r_language raw) (Params.languages hp) = Some (language it))
    raws items.
Proof.
  revert items. induction raws as [|raw raws IH]; intros items H.
  - simpl in H. simplify_eq. constructor.
  - rewrite fmap_cons in H. simpl in H. unfold convert at 1 in H.
    destruct (clean_fields remove_punctuation to_lower remove_odd_whitespaces
                hp raw) as (_ & Hs & Hl).
    rewrite Hs, Hl in H.
    destruct (list_index (r_speaker raw) unique_speakers) as [i|] eqn:Hi;
      [|done].
    destruct (list_index (r_language raw) (Params.languages hp)) as [j|] eqn:Hj;
      [|done].
    simpl in H.
    match type of H with
    | context [convert_all ?a ?b ?c ?d] =>
        destruct (convert_all a b c d) as [rest|] eqn:Hrest; [|done]
    end.
    simpl in H. simplify_eq. constructor; [done|]. by apply IH.
Qed.

(** What [__init__] has done when it returns. *)
Lemma init_Ok_inv list_of_set hp meta_file its :
  init remove_punctuation to_lower remove_odd_whitespaces to_sequence
    list_of_set hp meta_file = Ok its →
  Forall (λ line, 8 ≤ length (tokens line)) meta_file
  ∧ Forall2 (λ raw it,
       list_index (r_speaker raw)
         (list_of_set (r_speaker <$> accepted_items hp meta_file))
       = Some (speaker it)
       ∧ list_index (r_language raw) (Params.languages hp)
         = Some (language it))
      (accepted_items hp meta_file) its.
Proof.
  unfold init. intros H.
  destruct (read_lines hp meta_file [] []) as [r|] eqn:Hr; [|done].
  pose proof (read_lines_Ok_long _ _ _ _ _ Hr) as Hlong.
  rewrite read_lines_long in Hr by done. simplify_eq. simpl in H.
  split; [done|]. by apply convert_all_Ok_inv.
Qed.

Lemma foldl_ids {A} (f : A → nat) (l : list A) (X : gset nat) :
  foldl (λ (S : gset nat) it, {[f it]} ∪ S) X l = list_to_set (f <$> l) ∪ X.
Proof.
  revert X. induction l as [|x l IH]; intros X; simpl.
  - by rewrite (left_id_L ∅ (∪)).
  - rewrite IH, (assoc_L (∪)). f_equal. apply (comm_L (∪)).
Qed.

Lemma size_list_to_set_le (l : list nat) :
  size (list_to_set l : gset nat) ≤ length l.
Proof.
  induction l as [|x l IH].
  - by rewrite list_to_set_nil, size_empty.
  - rewrite list_to_set_cons, size_union_alt, size_singleton.
    cbn [length].
    etrans; [|apply le_n_S, IH].
    apply le_n_S, subseteq_size. apply subseteq_difference_l. done.
Qed.

Lemma size_below (X : gset nat) n :
  (∀ k, k ∈ X → k < n) → size X ≤ n.
Proof.
  intros H. trans (size (list_to_set (seq 0 n) : gset nat)).
  - apply subseteq_size. intros k Hk.
    apply elem_of_list_to_set, elem_of_seq. specialize (H k Hk). lia.
  - rewrite size_list_to_set by apply NoDup_seq. by rewrite length_seq.
Qed.

Lemma size_range (X : gset nat) n :
  (∀ k, k ∈ X ↔ k < n) → size X = n.
Proof.
  intros H. trans (size (list_to_set (seq 0 n) : gset nat)).
  - f_equal. apply set_eq. intros k.
    rewrite elem_of_list_to_set, elem_of_seq, H. lia.
  - rewrite size_list_to_set by apply NoDup_seq. by rewrite length_seq.
Qed.

(** The speaker ids of a data set are the numbers below
    [get_num_speakers()], each of them used, as soon as
    [list(unique_speakers)] lists every speaker once. *)
Theorem speaker_ids_fill_the_range list_of_set hp meta_file root its :
  is_set_listing (r_speaker <$> accepted_items hp meta_file)
    (list_of_set (r_speaker <$> accepted_items hp meta_file)) = true →
  init remove_punctuation to_lower remove_odd_whitespaces to_sequence
    list_of_set hp meta_file = Ok its →
  get_num_speakers (Dataset root its)
  = length (list_of_set (r_speaker <$> accepted_items hp meta_file))
  ∧ (∀ it, it ∈ its → speaker it < get_num_speakers (Dataset root its))
  ∧ (∀ k, k < get_num_speakers (Dataset root its) →
          ∃ it, it ∈ its ∧ speaker it = k).
Proof.
  intros (Hnd & Hin)%is_set_listing_inv (_ & HF)%init_Ok_inv.
  set (listing := list_of_set (r_speaker <$> accepted_items hp meta_file)) in *.
  assert (Hset : ∀ k, k ∈ (list_to_set (speaker <$> its) : gset nat)
                      ↔ k < length listing).
  { intros k. rewrite elem_of_list_to_set, list_elem_of_fmap. split.
    - intros (it & -> & Hit).
      apply list_elem_of_lookup_1 in Hit as [i Hi].
      destruct (Forall2_lookup_r _ _ _ _ _ HF Hi) as (raw & _ & Hs & _).
      apply list_index_Some in Hs. by eapply lookup_lt_Some.
    - intros Hk. destruct (lookup_lt_is_Some_2 listing k Hk) as [name Hname].
      assert (name ∈ r_speaker <$> accepted_items hp meta_file) as Hadd.
      { apply Hin. by eapply list_elem_of_lookup_2. }
      apply list_elem_of_fmap in Hadd as (raw & -> & Hraw).
      apply list_elem_of_lookup_1 in Hraw as [i Hi].
      destruct (Forall2_lookup_l _ _ _ _ _ HF Hi) as (it & Hit & Hs & _).
      exists it. split; [|by eapply list_elem_of_lookup_2].
      apply list_index_Some in Hs.
      by eapply NoDup_lookup. }
  assert (Hsize : get_num_speakers (Dataset root its) = length listing).
  { unfold get_num_speakers. simpl. rewrite foldl_ids, (right_id_L ∅ (∪)).
    by apply size_range. }
  rewrite Hsize. split_and!; [done|..].
  - intros it Hit. apply Hset, elem_of_list_to_set, list_elem_of_fmap.
    by exists it.
  - intros k Hk. apply Hset, elem_of_list_to_set, list_elem_of_fmap in Hk
      as (it & -> & Hit).
    by exists it.
Qed.

(** The language id of an item is a position of [hp.languages], the first
    one of its language, and [get_num_languages()] counts the languages
    that occur: it is at most the number of configured languages. *)
Theorem language_ids_index_the_configuration list_of_set hp meta_file root its :
  init remove_punctuation to_lower remove_odd_whitespaces to_sequence
    list_of_set hp meta_file = Ok its →
  Forall2 (λ raw it,
     Params.languages hp !! language it = Some (r_language raw)
     ∧ ∀ j, j < language it → Params.languages hp !! j ≠ Some (r_language raw))
    (accepted_items hp meta_file) its
  ∧ (∀ it, it ∈ its → language it < length (Params.languages hp))
  ∧ get_num_languages (Dataset root its) ≤ length (Params.languages hp)
  ∧ get_num_languages (Dataset root its) ≤ DatasetMore.len (Dataset root its).
Proof.
  intros (_ & HF)%init_Ok_inv.
  assert (Hfirst : ∀ x l i, list_index x l = Some i →
                            ∀ j, j < i → l !! j ≠ Some x).
  { intros x l. induction l as [|y l IH]; intros i Hi j Hj; simpl in *;
      [done|].
    case_decide; simplify_eq/=; [lia|].
    destruct (list_index x l) as [k|]; simplify_eq/=.
    destruct j as [|j]; simpl; [congruence|]. apply (IH k); [done|lia]. }
  assert (Hlt : ∀ it, it ∈ its → language it < length (Params.languages hp)).
  { intros it Hit. apply list_elem_of_lookup_1 in Hit as [i Hi].
    destruct (Forall2_lookup_r _ _ _ _ _ HF Hi) as (raw & _ & _ & Hl).
    apply list_index_Some in Hl. by eapply lookup_lt_Some. }
  split_and!; [|done|..].
  - eapply Forall2_impl; [done|]. simpl. intros raw it [_ Hl].
    split; [by apply list_index_Some|by eapply Hfirst].
  - unfold get_num_languages. simpl. rewrite foldl_ids, (right_id_L ∅ (∪)).
    apply size_below. intros k Hk.
    apply elem_of_list_to_set, list_elem_of_fmap in Hk as (it & -> & Hit).
    by apply Hlt.
  - unfold get_num_languages, DatasetMore.len. simpl.
    rewrite foldl_ids, (right_id_L ∅ (∪)).
    etrans; [apply size_list_to_set_le|].
    by rewrite length_fmap.
Qed.

End DatasetCounts.

Lemma getitem_returns_checked_spectrograms_witness :
  ∃ e,
    DatasetMore.toy_getitem Collate.hp_small DatasetMore.toy_dataset 0 = Dataset.Ok e
    ∧ length (Collate.ex_a e) = 2
    ∧ Collate.ex_b e = None
    ∧ DatasetMore.toy_getitem Collate.hp_small DatasetMore.toy_dataset 2
      = Dataset.Raise Dataset.IndexError.
Proof.
  destruct (getitem_returns_checked_spectrograms Dataset.toy_join
              Dataset.toy_np_load (λ _, Dataset.Raise Dataset.External)
              (λ _ (_ : unit) _, Dataset.Raise Dataset.External)
              Dataset.toy_normalize Collate.hp_small DatasetMore.toy_dataset 0)
    as [_ H0].
  destruct (getitem_returns_checked_spectrograms Dataset.toy_join
              Dataset.toy_np_load (λ _, Dataset.Raise Dataset.External)
              (λ _ (_ : unit) _, Dataset.Raise Dataset.External)
              Dataset.toy_normalize Collate.hp_small DatasetMore.toy_dataset 2)
    as [H2 _].
  eexists. split; [vm_compute; reflexivity|].
  edestruct H0 as (_ & Hmel & Hlin).
  { intros _ x m. unfold Dataset.toy_normalize. apply length_map. }
  { vm_compute. reflexivity. }
  split; [exact Hmel|]. split; [exact Hlin|].
  apply H2. right. vm_compute. discriminate.
Defined.

Lemma normalization_constants_from_raw_spectrograms_witness :
  DatasetMore.toy_normalization_constants Collate.hp_small
    (DatasetMore.Dataset "root" []) true
  = DatasetMore.XRaise DatasetMore.ZeroDivisionError
  ∧ DatasetMore.items DatasetMore.toy_dataset_one ≠ [].
Proof.
  split.
  - destruct (normalization_constants_from_raw_spectrograms
                Dataset.toy_join Dataset.toy_np_load
                (λ _, Dataset.Raise Dataset.External)
                (λ _ (_ : unit) _, Dataset.Raise Dataset.External)
                (λ s, Z.of_nat (length s)) (λ _, 0%Z) 0%Z Z.add
                (λ v n, (v / Z.of_nat n)%Z) Dataset.toy_normalize
                Collate.hp_small (DatasetMore.Dataset "root" []) true)
      as (H & _).
    apply H. reflexivity.
  - destruct (normalization_constants_from_raw_spectrograms
                Dataset.toy_join Dataset.toy_np_load
                (λ _, Dataset.Raise Dataset.External)
                (λ _ (_ : unit) _, Dataset.Raise Dataset.External)
                (λ s, Z.of_nat (length s)) (λ _, 0%Z) 0%Z Z.add
                (λ v n, (v / Z.of_nat n)%Z) Dataset.toy_normalize
                Collate.hp_small DatasetMore.toy_dataset_one true)
      as (_ & H & _).
    destruct (H (2, 0)%Z) as [Hne _]; [vm_compute; reflexivity|].
    exact Hne.
Defined.

Lemma speaker_ids_fill_the_range_witness :
  DatasetMore.get_num_speakers DatasetMore.toy_dataset = 2.
Proof.
  destruct (speaker_ids_fill_the_range id id id Dataset.char_codes
              Dataset.listing_first_seen Params.default Dataset.meta_bob_alice
              "root" (DatasetMore.items DatasetMore.toy_dataset)) as (H & _).
  { vm_compute. reflexivity. }
  { vm_compute. reflexivity. }
  exact H.
Defined.

Lemma language_ids_index_the_configuration_witness :
  DatasetMore.get_num_languages DatasetMore.toy_dataset
  ≤ length (Params.languages Params.default).
Proof.
  destruct (language_ids_index_the_configuration id id id Dataset.char_codes
              Dataset.listing_first_seen Params.default Dataset.meta_bob_alice
              "root" (DatasetMore.items DatasetMore.toy_dataset))
    as (_ & _ & H & _).
  { vm_compute. reflexivity. }
  exact H.
Defined.

(** The language ids need not be below [get_num_languages()]: with two
    configured languages of which the second only occurs, the items have
    the language id 1 and [get_num_languages()] is 1. *)
Example language_id_not_below_the_count :
  ∃ its,
    Dataset.init id id id Dataset.char_codes Dataset.listing_first_seen
      (Params.mk 10 2 false false false 4 true true true
         ["de"; "en-us"]%string true true true false 22050%Z 4 2 true)
      Dataset.meta_bob_alice = Dataset.Ok its
    ∧ Dataset.language <$> its = [1; 1]
    ∧ DatasetMore.get_num_languages (DatasetMore.Dataset "root" its) = 1.
Proof.
  eexists. split; [vm_compute; reflexivity|]. split; vm_compute; reflexivity.
Qed.

(** ** create_meta_file when the body raises *)

Section CreateMetaFileFailure.

Import Dataset.

Context {World Audio Spec Dicts Dict : Type}.

#[local] Existing Instances Dataset.M_ret Dataset.M_bind.

Variable join : string → string → string.
Variable get_loader_by_name :
  string → string → Params.t → World → result (list loader_item) * World.
Variable build_phoneme_dicts :
  list (string * string) → Params.t → World → result Dicts * World.
Variable dict_get : Dicts → string → option Dict.
Variable to_phoneme :
  string → bool → string → Dict → Params.t → World → result string * World.
Variable path_exists : string → Params.t → World → result bool * World.
Variable makedirs : string → Params.t → World → result unit * World.
Variable open_write : string → Params.t → World → result unit * World.
Variable print_to : string → string → Params.t → World → result unit * World.
Variable close_file : string → Params.t → World → result unit * World.
Variable logger_progress : nat → nat → Params.t → World → result unit * World.
Variable audio_load' : string → Params.t → World → result Audio * World.
Variable audio_spectrogram' :
  Audio → bool → Params.t → World → result Spec * World.
Variable np_save : string → Spec → Params.t → World → result unit * World.

Lemma overwritten_eq_iff sr nfft hp :
  overwritten sr nfft hp = hp
  ↔ Params.sample_rate hp = sr ∧ Params.num_fft hp = nfft.
Proof.
  destruct hp. unfold overwritten, Params.set_num_fft, Params.set_sample_rate.
  simpl. split.
  - intros H. by simplify_eq.
  - by intros [-> ->].
Qed.

(** When [create_meta_file] raises, the exception is the one of the body
    (the loader, the phonemizer, the audio and file routines), and no
    handler restores the two fields: [Params.sample_rate] and
    [Params.num_fft] keep the arguments of the call, so [Params] are what
    they were only if they held these values already. *)
Theorem failed_create_meta_file_leaves_params_overwritten name root out sr
    nfft spectrograms phonemes hp w e hp' w' :
  create_meta_file join get_loader_by_name build_phoneme_dicts dict_get
    to_phoneme path_exists makedirs open_write print_to close_file
    logger_progress audio_load' audio_spectrogram' np_save name root out sr
    nfft spectrograms phonemes (hp, w) = (Raise e, (hp', w')) →
  hp' = overwritten sr nfft hp
  ∧ Params.sample_rate hp' = sr
  ∧ Params.num_fft hp' = nfft
  ∧ build_meta_file join get_loader_by_name build_phoneme_dicts dict_get
      to_phoneme path_exists makedirs open_write print_to close_file
      logger_progress audio_load' audio_spectrogram' np_save name root out
      spectrograms phonemes (overwritten sr nfft hp, w)
    = (Raise e, (overwritten sr nfft hp, w'))
  ∧ (hp' = hp ↔ Params.sample_rate hp = sr ∧ Params.num_fft hp = nfft).
Proof.
  intros H.
  pose proof (keeps_hp_build_meta_file join get_loader_by_name
                build_phoneme_dicts dict_get to_phoneme path_exists makedirs
                open_write print_to close_file logger_progress audio_load'
                audio_spectrogram' np_save name root out spectrograms phonemes
                (overwritten sr nfft hp, w)) as Hk.
  unfold create_meta_file, mbind, M_bind in H. simpl in H.
  change (Params.set_num_fft nfft (Params.set_sample_rate sr hp))
    with (overwritten sr nfft hp) in H.
  destruct (build_meta_file _ _ _ _ _ _ _ _ _ _ _ _ _ _ _ _ _ _ _ _)
    as [[[]|e1] [hp1 w1]] eqn:Hb; simpl in *.
  { unfold modify_hp in H. simpl in H. done. }
  simplify_eq. split_and!; try done.
  apply overwritten_eq_iff.
Qed.

End CreateMetaFileFailure.

Lemma failed_create_meta_file_leaves_params_overwritten_witness :
  Dataset.toy_build_meta_file Dataset.toy_audio_load_missing
    (Dataset.overwritten 16000 800 Params.default, [])
  = (Dataset.Raise Dataset.External,
     (Dataset.overwritten 16000 800 Params.default, [])).
Proof.
  assert (Hrun : Dataset.toy_create_meta_file Dataset.toy_audio_load_missing
                   16000 800 (Params.default, [])
                 = (Dataset.Raise Dataset.External,
                    (Dataset.overwritten 16000 800 Params.default, []))).
  { vm_compute. reflexivity. }
  destruct (failed_create_meta_file_leaves_params_overwritten _ _ _ _ _ _ _ _
              _ _ _ _ _ _ _ _ _ _ _ _ _ _ _ _ _ _ Hrun) as (_ & _ & _ & H & _).
  exact H.
Defined.

(** ** TextToSpeechDatasetCollection *)

Section CollectionFacts.

Import Dataset DatasetMore.

Variables (remove_punctuation to_lower remove_odd_whitespaces : string → string).
Variable to_sequence : string → bool → list Z.
Variable list_of_set : list string → list string.
Variable path_join : string → string → string.

Lemma checked_dataset_missing hp fs root file :
  fs !! path_join root file = None →
  checked_dataset remove_punctuation to_lower remove_odd_whitespaces
    to_sequence list_of_set path_join hp fs root file
  = XRaise (IOError (path_join root file)).
Proof.
  intros H. unfold checked_dataset. rewrite H.
  rewrite bool_decide_eq_false_2; [done|]. by intros [? ?].
Qed.

Lemma checked_dataset_present hp fs root file lines :
  fs !! path_join root file = Some lines →
  checked_dataset remove_punctuation to_lower remove_odd_whitespaces
    to_sequence list_of_set path_join hp fs root file
  = match init remove_punctuation to_lower remove_odd_whitespaces
            to_sequence list_of_set hp lines with
    | Ok its => XOk (Dataset root its)
    | Raise e => XRaise (Err e)
    end.
Proof.
  intros H. unfold checked_dataset, new_dataset. rewrite H.
  by rewrite bool_decide_eq_true_2 by by eexists.
Qed.

Lemma checked_dataset_Ok hp fs root file d :
  checked_dataset remove_punctuation to_lower remove_odd_whitespaces
    to_sequence list_of_set path_join hp fs root file = XOk d →
  ∃ lines, fs !! path_join root file = Some lines
           ∧ init remove_punctuation to_lower remove_odd_whitespaces
               to_sequence list_of_set hp lines = Ok (items d)
           ∧ root_dir d = root.
Proof.
  intros H. destruct (fs !! path_join root file) as [lines|] eqn:Hf.
  - rewrite (checked_dataset_present _ _ _ _ _ Hf) in H.
    exists lines. destruct (init _ _ _ _ _ _ _); by simplify_eq.
  - by rewrite (checked_dataset_missing _ _ _ _ Hf) in H.
Qed.

(** The three sets are read one after the other, and the first failure
    ends the construction: a missing training file raises [IOError] with
    its path; an exception raised while the training file is read comes
    out, also when the validation file is missing; a missing validation
    file raises [IOError] only once the training set is built.  When the
    constructor returns, the training and validation sets hold the items
    of their files and the root directory, and the test set exists exactly
    when a test file with a non-empty name was given. *)
Theorem collection_reads_the_sets_in_order hp fs root training_file
    validation_file test_file :
  let train_path := path_join root training_file in
  let val_path := path_join root validation_file in
  let r := collection_init remove_punctuation to_lower remove_odd_whitespaces
             to_sequence list_of_set path_join hp fs root training_file
             validation_file test_file in
  (fs !! train_path = None → r = XRaise (IOError train_path))
  ∧ (∀ lines e,
       fs !! train_path = Some lines →
       init remove_punctuation to_lower remove_odd_whitespaces to_sequence
         list_of_set hp lines = Raise e →
       r = XRaise (Err e))
  ∧ (∀ lines its,
       fs !! train_path = Some lines →
       init remove_punctuation to_lower remove_odd_whitespaces to_sequence
         list_of_set hp lines = Ok its →
       fs !! val_path = None →
       r = XRaise (IOError val_path))
  ∧ (∀ c, r = XOk c →
       ∃ train_lines val_lines,
         fs !! train_path = Some train_lines
         ∧ fs !! val_path = Some val_lines
         ∧ init remove_punctuation to_lower remove_odd_whitespaces to_sequence
             list_of_set hp train_lines = Ok (items (train c))
         ∧ init remove_punctuation to_lower remove_odd_whitespaces to_sequence
             list_of_set hp val_lines = Ok (items (dev c))
         ∧ root_dir (train c) = root
         ∧ root_dir (dev c) = root
         ∧ (is_Some (test c)
            ↔ ∃ file, test_file = Some file ∧ file ≠ ""%string)).
Proof.
  intros train_path val_path r. subst train_path val_path r.
  unfold collection_init. split_and!.
  - intros H. by rewrite (checked_dataset_missing _ _ _ _ H).
  - intros lines e H Hi. by rewrite (checked_dataset_present _ _ _ _ _ H), Hi.
  - intros lines its H Hi Hv.
    rewrite (checked_dataset_present _ _ _ _ _ H), Hi.
    by rewrite (checked_dataset_missing _ _ _ _ Hv).
  - intros c H.
    destruct (checked_dataset _ _ _ _ _ _ hp fs root training_file)
      as [tr|] eqn:Htr; [|done].
    destruct (checked_dataset _ _ _ _ _ _ hp fs root validation_file)
      as [dv|] eqn:Hdv; [|done].
    apply checked_dataset_Ok in Htr as (tl & Htl & Hti & Htroot).
    apply checked_dataset_Ok in Hdv as (vl & Hvl & Hvi & Hvroot).
    exists tl, vl.
    destruct test_file as [file|].
    + destruct (decide (file = ""%string)) as [->|Hne].
      * simplify_eq. simpl. split_and!; try done. split.
        -- by intros [? ?].
        -- by intros (file & ? & ?); simplify_eq.
      * destruct (checked_dataset _ _ _ _ _ _ hp fs root file)
          as [te|] eqn:Hte; [|done].
        simplify_eq. simpl. split_and!; try done. split; [|by eexists].
        intros _. by exists file.
    + simplify_eq. simpl. split_and!; try done. split.
      * by intros [? ?].
      * by intros (file & ? & ?).
Qed.

End CollectionFacts.

Lemma collection_reads_the_sets_in_order_witness :
  DatasetMore.collection_init id id id Dataset.char_codes
    Dataset.listing_first_seen Dataset.toy_join Params.default
    DatasetMore.toy_files "root" "missing.txt" "val.txt" None
  = DatasetMore.XRaise (DatasetMore.IOError "root/missing.txt")
  ∧ DatasetMore.collection_init id id id Dataset.char_codes
      Dataset.listing_first_seen Dataset.toy_join Params.default
      DatasetMore.toy_files "root" "train.txt" "dev.txt" None
    = DatasetMore.XRaise (DatasetMore.IOError "root/dev.txt").
Proof.
  split.
  - destruct (collection_reads_the_sets_in_order id id id Dataset.char_codes
                Dataset.listing_first_seen Dataset.toy_join Params.default
                DatasetMore.toy_files "root" "missing.txt" "val.txt" None)
      as (H & _).
    apply H. vm_compute. reflexivity.
  - destruct (collection_reads_the_sets_in_order id id id Dataset.char_codes
                Dataset.listing_first_seen Dataset.toy_join Params.default
                DatasetMore.toy_files "root" "train.txt" "dev.txt" None)
      as (_ & _ & H & _).
    eapply H.
    + vm_compute. reflexivity.
    + vm_compute. reflexivity.
    + vm_compute. reflexivity.
Defined.

(** ** The lines of the meta-file, written and read back *)

Section MetaLineFacts.

Import Dataset MetaFile.












End MetaLineFacts.


(** The line of the toy run is the one of [meta_line]. *)
Example meta_line_of_the_toy_run :
  last Dataset.toy_output
  = Some (MetaFile.meta_line 0 "bob" "en-us" "a0.wav"
            ("spectrograms/000000.npy" +:+ "|"
             +:+ "linear_spectrograms/000000.npy") "hello" "hello").
Proof. vm_compute. reflexivity. Qed.

(** A separator inside the text moves the rest of the text into the
    phonemes. *)
Example separator_in_the_text_shifts_the_fields :
  Dataset.read_line
    (MetaFile.meta_line 7 "bob" "en-us" "a7.wav" "|" "either|or" "ph"
     +:+ MetaFile.newline)
  = Dataset.Ok
      (Dataset.RawItem "000007" "bob" "en-us" "a7.wav" "" "" "either" "or").
Proof. vm_compute. reflexivity. Qed.

Section WriteItemLine.

Import Dataset MetaFile.

Context {World Audio Spec Dicts Dict : Type}.

#[local] Existing Instances Dataset.M_ret Dataset.M_bind.

Variable join : string → string → string.
Variable dict_get : Dicts → string → option Dict.
Variable to_phoneme :
  string → bool → string → Dict → Params.t → World → result string * World.
Variable print_to : string → string → Params.t → World → result unit * World.
Variable logger_progress : nat → nat → Params.t → World → result unit * World.
Variable audio_load' : string → Params.t → World → result Audio * World.
Variable audio_spectrogram' :
  Audio → bool → Params.t → World → result Spec * World.
Variable np_save : string → Spec → Params.t → World → result unit * World.

(** Without spectrograms and phonemes, [write_item] prints the line of
    [meta_line] with empty spectrogram paths and empty phonemes. *)
Lemma write_item_prints_meta_line root path dicts dirs n i it :
  write_item join dict_get to_phoneme print_to logger_progress audio_load'
    audio_spectrogram' np_save root path false false dicts dirs n i it
  = (language ← language_or_default (li_language it);
     call (print_to path
             (meta_line i (li_speaker it) language (li_audio it) "|"
                (li_text it) ""));;
     call (logger_progress (i + 1) n)).
Proof. reflexivity. Qed.

End WriteItemLine.

(** ** ModelParallelTacotron.forward *)

Section ModelParallelFacts.

Import ModelParallel.

Context {Split Encoded T State Ratio : Type}.
Variable _encoder_forward : Split → State → Encoded * State.
Variable decode : Encoded → Split → Ratio → State → (T * T * T * T) * State.
Variable cat : list T → T.

(** The loop followed by the last call of the decoder does what is left to
    do chunk by chunk. *)
Lemma forward_loop_chunk_by_chunk rest encoded prev_splits (r : ret) ratio st :
  (let '(encoded', prev', r', st') :=
     forward_loop _encoder_forward decode rest encoded prev_splits r ratio st in
   _decoder_forward decode encoded' prev' r' ratio st')
  = chunk_by_chunk _encoder_forward decode rest ratio
      (_decoder_forward decode encoded prev_splits r ratio st).1
      (_decoder_forward decode encoded prev_splits r ratio st).2.
Proof.
  revert encoded prev_splits r st.
  induction rest as [|next rest IH]; intros encoded prev_splits r st.
  - simpl. unfold chunk_by_chunk. simpl.
    by destruct (_decoder_forward _ _ _ _ _ _).
  - simpl.
    destruct (_decoder_forward decode encoded prev_splits r ratio st)
      as [r1 st1] eqn:Hd.
    destruct (_encoder_forward next st1) as [e2 st2] eqn:He.
    rewrite IH. unfold chunk_by_chunk. simpl. rewrite He.
    by destruct (_decoder_forward decode e2 next r1 ratio st2).
Qed.

Lemma chunk_by_chunk_lengths zipped ratio (r : ret) st :
  let out := (chunk_by_chunk _encoder_forward decode zipped ratio r st).1 in
  length out.1.1.1 = length r.1.1.1 + length zipped
  ∧ length out.1.1.2 = length r.1.1.2 + length zipped
  ∧ length out.1.2 = length r.1.2 + length zipped
  ∧ length out.2 = length r.2 + length zipped.
Proof.
  revert r st. induction zipped as [|s zipped IH]; intros r st.
  - simpl. lia.
  - unfold chunk_by_chunk. simpl.
    destruct (_encoder_forward s st) as [e st1].
    destruct (_decoder_forward decode e s r ratio st1) as [r1 st2] eqn:Hd.
    specialize (IH r1 st2). unfold chunk_by_chunk in IH. simpl in IH.
    destruct IH as (H0 & H1 & H2 & H3). rewrite H0, H1, H2, H3.
    unfold _decoder_forward in Hd.
    destruct (decode e s ratio st1) as [[[[post pre] stop] ali] st'].
    destruct r as [[[r0 r1'] r2] r3]. simplify_eq. simpl.
    rewrite !length_app. simpl. lia.
Qed.

(** The pipelined loop of [forward], which encodes a chunk between the
    decoding of the chunk before and its own, calls the encoder and the
    decoder in the order in which a plain loop over the chunks does: every
    chunk is decoded with its own encoding, the modules see the same
    sequence of calls, and the four results are the concatenations of one
    output per chunk, in the order of the chunks.  Without any chunk the
    call of [next] raises. *)
Theorem model_parallel_forward_is_chunk_by_chunk zipped ratio st :
  forward _encoder_forward decode cat zipped ratio st
  = match zipped with
    | [] => None
    | _ =>
        let '((r0, r1, r2, r3), st') :=
          chunk_by_chunk _encoder_forward decode zipped ratio
            ([], [], [], []) st in
        Some ((cat r0, cat r1, cat r2, cat r3), st')
    end
  ∧ (let out := (chunk_by_chunk _encoder_forward decode zipped ratio
                   ([], [], [], []) st).1 in
     length out.1.1.1 = length zipped ∧ length out.1.1.2 = length zipped
     ∧ length out.1.2 = length zipped ∧ length out.2 = length zipped).
Proof.
  split.
  - destruct zipped as [|first rest]; [done|].
    unfold forward.
    destruct (_encoder_forward first st) as [e st1] eqn:He.
    pose proof (forward_loop_chunk_by_chunk rest e first ([], [], [], [])
                  ratio st1) as Hloop.
    destruct (forward_loop _ _ rest e first _ ratio st1)
      as [[[e' prev'] r'] st'].
    rewrite Hloop. unfold chunk_by_chunk. simpl. rewrite He.
    by destruct (_decoder_forward decode e first _ ratio st1).
  - apply (chunk_by_chunk_lengths zipped ratio ([], [], [], []) st).
Qed.

End ModelParallelFacts.

(** Three chunks in the toy model: the decoder sees the states 1, 3 and 5,
    the encoder the states 0, 2 and 4. *)
Example toy_model_parallel_forward :
  ModelParallel.forward ModelParallel.toy_encoder ModelParallel.toy_decode
    (concat (A := nat)) [10; 20; 30] () 0
  = Some (([21; 43; 65], [20; 40; 60], [10; 20; 30], [1; 3; 5]), 6).
Proof. reflexivity. Qed.

(** ** TacotronLoss *)

Section TacotronLossFacts.

Import TacotronLoss.

Context {G V Inputs : Type}.
Variable mul : G → G → G.
Variable guided_loss : G → Inputs → V.

Lemma update_states_iter (self : t G) n :
  _gamma (Nat.iter n (update_states mul) self) = _gamma self
  ∧ _g (Nat.iter n (update_states mul) self)
    = Nat.iter n (λ g, mul g (_gamma self)) (_g self)
  ∧ (0 ≤ _g_steps self →
     _g_steps (Nat.iter n (update_states mul) self)
     = Z.max 0 (_g_steps self - Z.of_nat n))%Z.
Proof.
  induction n as [|n (Hgamma & Hg & Hsteps)].
  - simpl. split_and!; try done. lia.
  - rewrite Nat.iter_succ. unfold update_states at 1 3 5. simpl.
    rewrite Hgamma, Hg. split_and!; try done.
    intros H. rewrite (Hsteps H). lia.
Qed.

(** The guided attention loss is switched off for good: after [n] calls of
    [update_states] the counter is [max(0, _g_steps - n)] and [_g] was
    multiplied [n] times by [_gamma]; while [n] is below the initial
    counter the loss is computed (when [hp.guided_attention_loss]) with
    that [_g]; from the call number [_g_steps] on, [_guided_attention]
    returns [0] whatever its arguments, and no later call brings the
    counter back. *)
Theorem guided_attention_is_switched_off_for_good (self : t G) n :
  (0 ≤ _g_steps self)%Z →
  let self' := Nat.iter n (update_states mul) self in
  _g_steps self' = Z.max 0 (_g_steps self - Z.of_nat n)
  ∧ _g self' = Nat.iter n (λ g, mul g (_gamma self)) (_g self)
  ∧ ((Z.of_nat n < _g_steps self)%Z →
     ∀ inputs,
       _guided_attention guided_loss true self' inputs
       = Loss (guided_loss (_g self') inputs))
  ∧ ((_g_steps self ≤ Z.of_nat n)%Z →
     ∀ enabled inputs m,
       _guided_attention guided_loss enabled
         (Nat.iter m (update_states mul) self') inputs = Zero).
Proof.
  intros Hpos self'.
  destruct (update_states_iter self n) as (Hgamma & Hg & Hsteps).
  specialize (Hsteps Hpos). fold self' in Hgamma, Hg, Hsteps.
  split_and!; try done.
  - intros Hn inputs. unfold _guided_attention. simpl.
    rewrite bool_decide_eq_false_2; [done|]. rewrite Hsteps. lia.
  - intros Hn enabled inputs m. unfold _guided_attention.
    destruct (update_states_iter self' m) as (_ & _ & Hsteps').
    rewrite Hsteps' by lia. rewrite Hsteps.
    rewrite bool_decide_eq_true_2 by lia. by rewrite orb_true_r.
Qed.

End TacotronLossFacts.

Lemma guided_attention_is_switched_off_for_good_witness :
  TacotronLoss._guided_attention (λ (g : Z) (x : Z), (g + x)%Z) true
    (Nat.iter 1 (TacotronLoss.update_states Z.mul)
       (Nat.iter 3 (TacotronLoss.update_states Z.mul)
          (TacotronLoss.mk 5%Z 2%Z 3%Z))) 7%Z
  = TacotronLoss.Zero.
Proof.
  destruct (guided_attention_is_switched_off_for_good Z.mul
              (λ (g : Z) (x : Z), (g + x)%Z) (TacotronLoss.mk 5%Z 2%Z 3%Z) 3)
    as (_ & _ & _ & H).
  { simpl. lia. }
  apply H. simpl. lia.
Defined.

(** ** ConvBlock *)

Section LayersFacts.

Import Layers.

Lemma conv_block_padding_sum kernel dilation :
  ((conv_block_padding kernel dilation).1
   + (conv_block_padding kernel dilation).2
   = (kernel - 1) * dilation
     + (if bool_decide (kernel `mod` 2 = 0 ∧ dilation `mod` 2 = 0)
        then 1 else 0))%Z.
Proof.
  unfold conv_block_padding.
  pose proof (Z.div_mod ((kernel - 1) * dilation) 2 ltac:(lia)) as Hp.
  pose proof (Z.mod_pos_bound ((kernel - 1) * dilation) 2 ltac:(lia)) as Hpb.
  pose proof (Z.div_mod kernel 2 ltac:(lia)) as Hk.
  pose proof (Z.mod_pos_bound kernel 2 ltac:(lia)) as Hkb.
  pose proof (Z.div_mod dilation 2 ltac:(lia)) as Hd.
  pose proof (Z.mod_pos_bound dilation 2 ltac:(lia)) as Hdb.
  set (p := (((kernel - 1) * dilation) `div` 2)%Z) in *.
  set (r := (((kernel - 1) * dilation) `mod` 2)%Z) in *.
  set (a := (kernel `div` 2)%Z) in *. set (rk := (kernel `mod` 2)%Z) in *.
  set (b := (dilation `div` 2)%Z) in *. set (rd := (dilation `mod` 2)%Z) in *.
  clearbody p r a rk b rd.
  assert (rk = 0 ∨ rk = 1)%Z as [-> | ->] by lia;
    assert (rd = 0 ∨ rd = 1)%Z as [-> | ->] by lia;
    subst kernel dilation;
    repeat case_bool_decide; simpl; try lia.
Qed.

(** The padding of a block is "same" padding except for an even kernel
    with an even dilation: the two sides add up to what the convolution
    takes away, [dilation * (kernel - 1)], so that the block keeps the
    length of the sequence; when the kernel size and the dilation are both
    even they add up to one more and the sequence comes out longer by
    one. *)
Theorem conv_block_keeps_the_length_unless_both_even kernel dilation len :
  conv_block_length kernel dilation len
  = (if bool_decide (kernel `mod` 2 = 0 ∧ dilation `mod` 2 = 0)
     then len + 1 else len)%Z.
Proof.
  unfold conv_block_length.
  pose proof (conv_block_padding_sum kernel dilation) as H.
  destruct (conv_block_padding kernel dilation) as [pad_left pad_right].
  simpl in H. case_bool_decide; lia.
Qed.

End LayersFacts.

Example conv_block_padding_examples :
  Layers.conv_block_padding 5 1 = (2, 2)%Z
  ∧ Layers.conv_block_padding 31 1 = (15, 15)%Z
  ∧ Layers.conv_block_padding 4 1 = (1, 2)%Z
  ∧ Layers.conv_block_padding 4 2 = (3, 4)%Z
  ∧ Layers.conv_block_length 4 2 100 = 101%Z.
Proof. repeat split. Qed.
